(** * nutsdb: recovery, merge and the managed transaction facade of [db.go]

    A shallow embedding of [db.go].  Functions of the file are translated
    one by one and keep their Go names.  Everything [db.go] calls but does
    not define (the record codec, the data files, the B+ tree, the set,
    sorted-set and list structures, the transaction layer, [strconv2], the
    operating system) is a parameter of the development, gathered in the
    classes [Codec], [Structures] and [Platform]. *)

From Stdlib Require Import ZArith List String Ascii Bool Lia DecimalString.
From Stdlib Require Import Sorted Permutation.
From stdpp Require Import base option gmap strings list.
Import ListNotations.
Local Open Scope string_scope.
Local Open Scope Z_scope.

(** ** Errors *)

(** Go [error] values.  [fmt_Errorf p e] is [fmt.Errorf(p ++ "%s", e)]. *)
Inductive error : Type :=
  | io_EOF
  | ErrDBClosed
  | ErrBucket
  | ErrEntryIdxModeOpt
  | ErrFn
  | errors_New (msg : string)
  | fmt_Errorf (prefix : string) (cause : error)
  | foreign_error (code : Z).

(** What a Go call can do besides returning: dereference nil or index out
    of range ([Crash]); [Stuck] marks a loop of the model that used up its
    fuel. *)
Inductive res (A : Type) : Type :=
  | Val (a : A)
  | Crash
  | Stuck.
Arguments Val {A} a.
Arguments Crash {A}.
Arguments Stuck {A}.

(** ** Constants of [db.go] *)

Definition DataDeleteFlag : Z := 0.
Definition DataSetFlag : Z := 1.
Definition DataLPushFlag : Z := 2.
Definition DataRPushFlag : Z := 3.
Definition DataLRemFlag : Z := 4.
Definition DataLPopFlag : Z := 5.
Definition DataRPopFlag : Z := 6.
Definition DataLSetFlag : Z := 7.
Definition DataLTrimFlag : Z := 8.
Definition DataZAddFlag : Z := 9.
Definition DataZRemFlag : Z := 10.
Definition DataZRemRangeByRankFlag : Z := 11.
Definition DataZPopMaxFlag : Z := 12.
Definition DataZPopMinFlag : Z := 13.

Definition UnCommitted : Z := 0.
Definition Committed : Z := 1.

Definition DataStructureSet : Z := 0.
Definition DataStructureSortedSet : Z := 1.
Definition DataStructureBPTree : Z := 2.
Definition DataStructureList : Z := 3.

Definition bptDir : string := "bpt".

(** Modelled from the spec: the three index modes of [options.go]. *)
Inductive EntryIdxMode : Type :=
  | HintKeyValAndRAMIdxMode
  | HintKeyAndRAMIdxMode
  | HintBPTSparseIdxMode.

Definition mode_eqb (a b : EntryIdxMode) : bool :=
  match a, b with
  | HintKeyValAndRAMIdxMode, HintKeyValAndRAMIdxMode => true
  | HintKeyAndRAMIdxMode, HintKeyAndRAMIdxMode => true
  | HintBPTSparseIdxMode, HintBPTSparseIdxMode => true
  | _, _ => false
  end.

(** Fixed-width arithmetic of Go, written out. *)
Definition wrap_int64 (z : Z) : Z := (z + 2 ^ 63) mod 2 ^ 64 - 2 ^ 63.
Definition to_uint64 (z : Z) : Z := z mod 2 ^ 64.

(** ** Go's [path] and [strings] functions used by [db.go] *)

Definition slash : ascii := "/"%char.
Definition dot : ascii := "."%char.

Fixpoint strip_trailing_slashes (s : string) : string :=
  match s with
  | EmptyString => EmptyString
  | String c s' =>
      match strip_trailing_slashes s' with
      | EmptyString => if Ascii.eqb c slash then EmptyString else String c EmptyString
      | t => String c t
      end
  end.

Fixpoint last_element (cur s : string) : string :=
  match s with
  | EmptyString => cur
  | String c s' =>
      if Ascii.eqb c slash then last_element EmptyString s'
      else last_element (String.append cur (String c EmptyString)) s'
  end.

(** [path.Base] *)
Definition path_Base (p : string) : string :=
  if String.eqb p "" then "."
  else
    let p2 := last_element "" (strip_trailing_slashes p) in
    if String.eqb p2 "" then "/" else p2.

Fixpoint ext_scan (cur : option string) (s : string) : string :=
  match s with
  | EmptyString => match cur with Some e => e | None => "" end
  | String c s' =>
      if Ascii.eqb c slash then ext_scan None s'
      else if Ascii.eqb c dot then ext_scan (Some (String c EmptyString)) s'
      else ext_scan (option_map (fun e => String.append e (String c EmptyString)) cur) s'
  end.

(** [path.Ext]: from the last dot of the last element on. *)
Definition path_Ext (p : string) : string := ext_scan None p.

(** [strings.HasSuffix] and [strings.TrimSuffix] *)
Definition strings_HasSuffix (s suffix : string) : bool :=
  (String.length suffix <=? String.length s)%nat &&
  String.eqb
    (String.substring (String.length s - String.length suffix)
       (String.length suffix) s)
    suffix.

Definition strings_TrimSuffix (s suffix : string) : string :=
  if strings_HasSuffix s suffix
  then String.substring 0 (String.length s - String.length suffix) s
  else s.

Fixpoint split_go (sep : string) (skip : nat) (cur : string) (s : string)
  : list string :=
  match s with
  | EmptyString => [cur]
  | String c s' =>
      match skip with
      | S k => split_go sep k cur s'
      | O =>
          if String.prefix sep s
          then cur :: split_go sep (String.length sep - 1) "" s'
          else split_go sep O (String.append cur (String c EmptyString)) s'
      end
  end.

Fixpoint explode (s : string) : list string :=
  match s with
  | EmptyString => []
  | String c s' => String c EmptyString :: explode s'
  end.

(** [strings.Split]: cut at every non-overlapping occurrence of [sep]; an
    empty separator cuts after every byte. *)
Definition strings_Split (s sep : string) : list string :=
  if String.eqb sep "" then explode s else split_go sep O "" s.

(** [sort.Ints] *)
Fixpoint insert_sorted (x : Z) (l : list Z) : list Z :=
  match l with
  | [] => [x]
  | y :: l' => if Z.leb x y then x :: l else y :: insert_sorted x l'
  end.

Definition sort_Ints (l : list Z) : list Z := fold_right insert_sorted [] l.

(** ** The data model *)

Definition bytes : Type := string.

Record MetaData : Type := mkMeta {
  bucket : bytes;
  Flag : Z;
  ds : Z;
  status : Z;
  txID : Z;
  TTL : Z;
  timestamp : Z
}.

Record Entry : Type := mkEntry {
  Key : bytes;
  Value : bytes;
  Meta : MetaData
}.

Record Hint : Type := mkHint {
  key : bytes;
  fileID : Z;
  meta : MetaData;
  dataPos : Z
}.

(** [Record{H, E}]; [E = None] is the nil pointer.  In Go [H.meta] and
    [E.Meta] point to one [MetaData]; a write through one is made to both
    copies here ([set_meta_status]). *)
Record Record_ : Type := mkRecord {
  H : Hint;
  E : option Entry
}.

Definition with_status (m : MetaData) (s : Z) : MetaData :=
  mkMeta (bucket m) (Flag m) (ds m) s (txID m) (TTL m) (timestamp m).

Definition set_meta_status (r : Record_) (s : Z) : Record_ :=
  mkRecord
    (mkHint (key (H r)) (fileID (H r)) (with_status (meta (H r)) s) (dataPos (H r)))
    (option_map (fun e => mkEntry (Key e) (Value e) (with_status (Meta e) s)) (E r)).

Definition zero_MetaData : MetaData := mkMeta "" 0 0 0 0 0 0.

(** ** The record codec and [strconv2] *)

Class Codec : Type := {
  (** [DataSuffix], the suffix of segment files; the spec gives [.dat] *)
  DataSuffix : string;
  SeparatorForZSetKey : string;
  SeparatorForListKey : string;
  BPTRootIndexSuffix : string;
  (** the method [Size] of [Entry] *)
  Entry_Size : Entry -> Z;
  (** [IsExpired(ttl, timestamp)], which reads the clock *)
  IsExpired : Z -> Z -> bool;
  (** [strconv2]: value and error as returned *)
  StrToInt : string -> Z * option error;
  Int64ToStr : Z -> string;
  float64 : Type;
  (** the [float64] 0, the value Go's [ParseFloat] returns beside a
      syntax error *)
  float64_zero : float64;
  StrToFloat64 : string -> float64 * option error
}.

(** ** [checkEntryIdxMode] *)

Section CheckEntryIdxMode.
Context `{Codec}.

(** The [for _, f := range files] loop with its two flags; the early
    [break] ends the recursion. *)
Fixpoint checkEntryIdxMode_scan (files : list string)
    (hasDataFlag hasBptDirFlag : bool) : bool * bool :=
  match files with
  | [] => (hasDataFlag, hasBptDirFlag)
  | id :: rest =>
      let fileSuffix := path_Ext (path_Base id) in
      if String.eqb fileSuffix DataSuffix then
        if hasBptDirFlag then (true, hasBptDirFlag)
        else checkEntryIdxMode_scan rest true
               (if String.eqb id bptDir then true else hasBptDirFlag)
      else checkEntryIdxMode_scan rest hasDataFlag
             (if String.eqb id bptDir then true else hasBptDirFlag)
  end.

Definition err_downgrade : error :=
  errors_New "not support HintBPTSparseIdxMode switch to the other EntryIdxMode".
Definition err_upgrade : error :=
  errors_New "not support the other EntryIdxMode switch to HintBPTSparseIdxMode".

(** [readDir] is what [ioutil.ReadDir(db.opt.Dir)] returned: an error or
    the names of the directory's entries. *)
Definition checkEntryIdxMode (mode : EntryIdxMode)
    (readDir : error + list string) : option error :=
  match readDir with
  | inl err => Some err
  | inr files =>
      let '(hasDataFlag, hasBptDirFlag) :=
        checkEntryIdxMode_scan files false false in
      if negb (mode_eqb mode HintBPTSparseIdxMode) && hasDataFlag && hasBptDirFlag
      then Some err_downgrade
      else if mode_eqb mode HintBPTSparseIdxMode && negb hasBptDirFlag && hasDataFlag
      then Some err_upgrade
      else None
  end.

(** The directory holds a segment file / an entry named [bpt]. *)
Definition has_data_file (files : list string) : Prop :=
  exists f, In f files /\ path_Ext (path_Base f) = DataSuffix.
Definition has_bpt_dir (files : list string) : Prop := In bptDir files.

End CheckEntryIdxMode.

(** ** The structures behind the indexes *)

(** [CountFlagEnabled] of [bptree.go]. *)
Definition CountFlagEnabled : bool := true.

(** The B+ tree ([bptree.go]), the set, sorted set and list ([ds/...]), and
    the handle types of data files and transactions.  An operation takes
    the structure and gives the structure back as the call left it; an
    operation that [db.go] can reach with a nil receiver takes an [option]
    and may [Crash]. *)
Class Structures `{Codec} : Type := {
  BPTree : Type;
  NewTree : BPTree;
  BPTree_Insert : BPTree -> bytes -> option Entry -> Hint -> bool ->
                  BPTree * option error;
  BPTree_Find : option BPTree -> bytes -> res (error + Record_);
  BPTreeRootIdx : Type;
  BPTreeRootIdx_Size : BPTreeRootIdx -> Z;

  Set_ : Type;
  set_New : Set_;
  SAdd : Set_ -> string -> bytes -> Set_ * option error;
  SRem : Set_ -> string -> bytes -> Set_ * option error;
  SIsMember : option Set_ -> string -> bytes -> res bool;

  SortedSet : Type;
  zset_New : SortedSet;
  zset_Put : SortedSet -> string -> float64 -> bytes -> SortedSet;
  zset_Remove : SortedSet -> string -> SortedSet;
  zset_GetByRankRange : SortedSet -> Z -> Z -> bool -> SortedSet;
  zset_PopMax : SortedSet -> SortedSet;
  zset_PopMin : SortedSet -> SortedSet;
  (** [GetByKey(key) != nil] *)
  zset_GetByKey : option SortedSet -> string -> res bool;

  List_ : Type;
  list_New : List_;
  LPush : List_ -> string -> bytes -> List_;
  RPush : List_ -> string -> bytes -> List_;
  LRem : List_ -> string -> Z -> List_ * option error;
  LPop : List_ -> string -> List_ * option error;
  RPop : List_ -> string -> List_ * option error;
  LSet : List_ -> string -> Z -> bytes -> List_ * option error;
  Ltrim : List_ -> string -> Z -> Z -> List_ * option error;
  (** the items of [LRange(key, 0, -1)]; its error is dropped by the caller *)
  LRange : option List_ -> string -> Z -> Z -> res (list bytes);

  DataFile : Type;
  Tx : Type
}.

Record Options : Type := mkOptions {
  Dir : string;
  SegmentSize : Z;
  EntryIdxMode_ : EntryIdxMode;
  RWMode : Z;
  StartFileLoadingMode : Z
}.

Section Database.
Context `{Structures}.

(** The [DB] struct, without its mutex.  A nil map reads as the empty
    map, so [committedTxIds = nil] is the empty set. *)
Record DB : Type := mkDB {
  opt : Options;
  BPTreeIdx : gmap string BPTree;
  BPTreeRootIdxes : list BPTreeRootIdx;
  BPTreeKeyEntryPosMap : gmap string Z;
  SetIdx : gmap string Set_;
  SortedSetIdx : gmap string SortedSet;
  ListIdx : gmap string List_;
  ActiveFile : option DataFile;
  ActiveBPTreeIdx : BPTree;
  ActiveCommittedTxIdsIdx : BPTree;
  committedTxIds : gset Z;
  MaxFileID : Z;
  KeyCount : Z;
  closed : bool;
  isMerging : bool
}.

Definition set_BPTreeIdx (db : DB) v :=
  mkDB (opt db) v (BPTreeRootIdxes db) (BPTreeKeyEntryPosMap db) (SetIdx db)
    (SortedSetIdx db) (ListIdx db) (ActiveFile db) (ActiveBPTreeIdx db)
    (ActiveCommittedTxIdsIdx db) (committedTxIds db) (MaxFileID db)
    (KeyCount db) (closed db) (isMerging db).
Definition set_BPTreeRootIdxes (db : DB) v :=
  mkDB (opt db) (BPTreeIdx db) v (BPTreeKeyEntryPosMap db) (SetIdx db)
    (SortedSetIdx db) (ListIdx db) (ActiveFile db) (ActiveBPTreeIdx db)
    (ActiveCommittedTxIdsIdx db) (committedTxIds db) (MaxFileID db)
    (KeyCount db) (closed db) (isMerging db).
Definition set_BPTreeKeyEntryPosMap (db : DB) v :=
  mkDB (opt db) (BPTreeIdx db) (BPTreeRootIdxes db) v (SetIdx db)
    (SortedSetIdx db) (ListIdx db) (ActiveFile db) (ActiveBPTreeIdx db)
    (ActiveCommittedTxIdsIdx db) (committedTxIds db) (MaxFileID db)
    (KeyCount db) (closed db) (isMerging db).
Definition set_SetIdx (db : DB) v :=
  mkDB (opt db) (BPTreeIdx db) (BPTreeRootIdxes db) (BPTreeKeyEntryPosMap db) v
    (SortedSetIdx db) (ListIdx db) (ActiveFile db) (ActiveBPTreeIdx db)
    (ActiveCommittedTxIdsIdx db) (committedTxIds db) (MaxFileID db)
    (KeyCount db) (closed db) (isMerging db).
Definition set_SortedSetIdx (db : DB) v :=
  mkDB (opt db) (BPTreeIdx db) (BPTreeRootIdxes db) (BPTreeKeyEntryPosMap db)
    (SetIdx db) v (ListIdx db) (ActiveFile db) (ActiveBPTreeIdx db)
    (ActiveCommittedTxIdsIdx db) (committedTxIds db) (MaxFileID db)
    (KeyCount db) (closed db) (isMerging db).
Definition set_ListIdx (db : DB) v :=
  mkDB (opt db) (BPTreeIdx db) (BPTreeRootIdxes db) (BPTreeKeyEntryPosMap db)
    (SetIdx db) (SortedSetIdx db) v (ActiveFile db) (ActiveBPTreeIdx db)
    (ActiveCommittedTxIdsIdx db) (committedTxIds db) (MaxFileID db)
    (KeyCount db) (closed db) (isMerging db).
Definition set_ActiveFile (db : DB) v :=
  mkDB (opt db) (BPTreeIdx db) (BPTreeRootIdxes db) (BPTreeKeyEntryPosMap db)
    (SetIdx db) (SortedSetIdx db) (ListIdx db) v (ActiveBPTreeIdx db)
    (ActiveCommittedTxIdsIdx db) (committedTxIds db) (MaxFileID db)
    (KeyCount db) (closed db) (isMerging db).
Definition set_ActiveBPTreeIdx (db : DB) v :=
  mkDB (opt db) (BPTreeIdx db) (BPTreeRootIdxes db) (BPTreeKeyEntryPosMap db)
    (SetIdx db) (SortedSetIdx db) (ListIdx db) (ActiveFile db) v
    (ActiveCommittedTxIdsIdx db) (committedTxIds db) (MaxFileID db)
    (KeyCount db) (closed db) (isMerging db).
Definition set_ActiveCommittedTxIdsIdx (db : DB) v :=
  mkDB (opt db) (BPTreeIdx db) (BPTreeRootIdxes db) (BPTreeKeyEntryPosMap db)
    (SetIdx db) (SortedSetIdx db) (ListIdx db) (ActiveFile db)
    (ActiveBPTreeIdx db) v (committedTxIds db) (MaxFileID db)
    (KeyCount db) (closed db) (isMerging db).
Definition set_committedTxIds (db : DB) v :=
  mkDB (opt db) (BPTreeIdx db) (BPTreeRootIdxes db) (BPTreeKeyEntryPosMap db)
    (SetIdx db) (SortedSetIdx db) (ListIdx db) (ActiveFile db)
    (ActiveBPTreeIdx db) (ActiveCommittedTxIdsIdx db) v (MaxFileID db)
    (KeyCount db) (closed db) (isMerging db).
Definition set_MaxFileID (db : DB) v :=
  mkDB (opt db) (BPTreeIdx db) (BPTreeRootIdxes db) (BPTreeKeyEntryPosMap db)
    (SetIdx db) (SortedSetIdx db) (ListIdx db) (ActiveFile db)
    (ActiveBPTreeIdx db) (ActiveCommittedTxIdsIdx db) (committedTxIds db) v
    (KeyCount db) (closed db) (isMerging db).
Definition set_KeyCount (db : DB) v :=
  mkDB (opt db) (BPTreeIdx db) (BPTreeRootIdxes db) (BPTreeKeyEntryPosMap db)
    (SetIdx db) (SortedSetIdx db) (ListIdx db) (ActiveFile db)
    (ActiveBPTreeIdx db) (ActiveCommittedTxIdsIdx db) (committedTxIds db)
    (MaxFileID db) v (closed db) (isMerging db).
Definition set_isMerging (db : DB) v :=
  mkDB (opt db) (BPTreeIdx db) (BPTreeRootIdxes db) (BPTreeKeyEntryPosMap db)
    (SetIdx db) (SortedSetIdx db) (ListIdx db) (ActiveFile db)
    (ActiveBPTreeIdx db) (ActiveCommittedTxIdsIdx db) (committedTxIds db)
    (MaxFileID db) (KeyCount db) (closed db) v.

Definition is_sparse (db : DB) : bool :=
  mode_eqb (EntryIdxMode_ (opt db)) HintBPTSparseIdxMode.

(** [if _, ok := m[b]; !ok { m[b] = New() }] and the read [m[b]] that
    follows it. *)
Definition ensure {A} (new : A) (b : string) (m : gmap string A) : gmap string A :=
  match m !! b with
  | Some _ => m
  | None => <[b := new]> m
  end.
Definition at_bucket {A} (new : A) (b : string) (m : gmap string A) : A :=
  default new (m !! b).

(** A step of a function that returns [error]: the database as the step
    left it, and the error it returned with, if it returned. *)
Definition step : Type := DB -> res (DB * option error).

Definition and_then (f g : step) : step :=
  fun db =>
    match f db with
    | Val (db', None) => g db'
    | other => other
    end.

Definition skip : step := fun db => Val (db, None).

Definition wrap_err (prefix : string) (e : option error) : option error :=
  option_map (fmt_Errorf prefix) e.

End Database.

Infix ">>>" := and_then (at level 60, right associativity).

(** ** The index builders of recovery *)

Section Builders.
Context `{Structures}.

Definition when (c : bool) (s : step) : step := if c then s else skip.

Definition buildBPTreeIdx (bucket : string) (r : Record_) : step := fun db =>
  let db := set_BPTreeIdx db (ensure NewTree bucket (BPTreeIdx db)) in
  let '(t, err) :=
    BPTree_Insert (at_bucket NewTree bucket (BPTreeIdx db))
      (key (H r)) (E r) (H r) CountFlagEnabled in
  Val (set_BPTreeIdx db (<[bucket := t]> (BPTreeIdx db)),
       wrap_err "when build BPTreeIdx insert index err: " err).

Definition buildActiveBPTreeIdx (r : Record_) : step := fun db =>
  let newKey := String.append (bucket (meta (H r))) (key (H r)) in
  let '(t, err) :=
    BPTree_Insert (ActiveBPTreeIdx db) newKey (E r) (H r) CountFlagEnabled in
  Val (set_ActiveBPTreeIdx db t,
       wrap_err "when build BPTreeIdx insert index err: " err).

(** [db.SetIdx[bucket].op(...)] with its error wrapped by [fmt.Errorf]. *)
Definition on_set (bucket : string) (op : Set_ -> Set_ * option error)
    (prefix : string) : step := fun db =>
  let '(s, err) := op (at_bucket set_New bucket (SetIdx db)) in
  Val (set_SetIdx db (<[bucket := s]> (SetIdx db)), wrap_err prefix err).

Definition buildSetIdx (bucket : string) (r : Record_) : step := fun db =>
  let db := set_SetIdx db (ensure set_New bucket (SetIdx db)) in
  match E r with
  | None => Val (db, Some ErrEntryIdxModeOpt)
  | Some e =>
      (when (Flag (meta (H r)) =? DataSetFlag)
         (on_set bucket (fun s => SAdd s (Key e) (Value e))
            "when build SetIdx SAdd index err: ")
       >>> when (Flag (meta (H r)) =? DataDeleteFlag)
         (on_set bucket (fun s => SRem s (Key e) (Value e))
            "when build SetIdx SRem index err: ")) db
  end.

(** [_ = db.SortedSetIdx[bucket].op(...)]: whatever the call returns is
    dropped. *)
Definition on_zset (bucket : string) (op : SortedSet -> SortedSet) : step :=
  fun db =>
    Val (set_SortedSetIdx db
           (<[bucket := op (at_bucket zset_New bucket (SortedSetIdx db))]>
              (SortedSetIdx db)),
         None).

(** [r.E.Key] and [r.E.Value] are read through [r.E]: with [E r = None]
    the read is a nil dereference.  The test [r.E == nil] of the source
    sits after the first such read. *)
Definition buildSortedSetIdx (bucket : string) (r : Record_) : step :=
  (fun db => Val (set_SortedSetIdx db (ensure zset_New bucket (SortedSetIdx db)), None))
  >>> when (Flag (meta (H r)) =? DataZAddFlag)
        (fun db =>
           match E r with
           | None => Crash
           | Some e =>
               match strings_Split (Key e) SeparatorForZSetKey with
               | [key0; s] =>
                   let score := fst (StrToFloat64 s) in
                   match E r with
                   | None => Val (db, Some ErrEntryIdxModeOpt)
                   | Some e' =>
                       on_zset bucket (fun z => zset_Put z key0 score (Value e')) db
                   end
               | _ => Val (db, None)
               end
           end)
  >>> when (Flag (meta (H r)) =? DataZRemFlag)
        (fun db =>
           match E r with
           | None => Crash
           | Some e => on_zset bucket (fun z => zset_Remove z (Key e)) db
           end)
  >>> when (Flag (meta (H r)) =? DataZRemRangeByRankFlag)
        (fun db =>
           match E r with
           | None => Crash
           | Some e =>
               let start := fst (StrToInt (Key e)) in
               let end_ := fst (StrToInt (Value e)) in
               on_zset bucket (fun z => zset_GetByRankRange z start end_ true) db
           end)
  >>> when (Flag (meta (H r)) =? DataZPopMaxFlag) (on_zset bucket zset_PopMax)
  >>> when (Flag (meta (H r)) =? DataZPopMinFlag) (on_zset bucket zset_PopMin).

(** [ErrWhenBuildListIdx] *)
Definition ErrWhenBuildListIdx (err : error) : error :=
  fmt_Errorf "when build listIdx LRem err: " err.

Definition on_list (bucket : string) (op : List_ -> List_ * option error) : step :=
  fun db =>
    let '(l, err) := op (at_bucket list_New bucket (ListIdx db)) in
    Val (set_ListIdx db (<[bucket := l]> (ListIdx db)),
         option_map ErrWhenBuildListIdx err).

(** [keyAndIndex[i]]: out of range is a run-time panic. *)
Definition index_or_crash (parts : list string) (i : nat)
    (k : string -> res (DB * option error)) : res (DB * option error) :=
  match nth_error parts i with
  | Some s => k s
  | None => Crash
  end.

Definition buildListIdx (bucket : string) (r : Record_) : step := fun db =>
  let db := set_ListIdx db (ensure list_New bucket (ListIdx db)) in
  match E r with
  | None => Val (db, Some ErrEntryIdxModeOpt)
  | Some e =>
      let flag := Flag (meta (H r)) in
      if flag =? DataLPushFlag then
        on_list bucket (fun l => (LPush l (Key e) (Value e), None)) db
      else if flag =? DataRPushFlag then
        on_list bucket (fun l => (RPush l (Key e) (Value e), None)) db
      else if flag =? DataLRemFlag then
        let count := fst (StrToInt (Value e)) in
        on_list bucket (fun l => LRem l (Key e) count) db
      else if flag =? DataLPopFlag then
        on_list bucket (fun l => LPop l (Key e)) db
      else if flag =? DataRPopFlag then
        on_list bucket (fun l => RPop l (Key e)) db
      else if flag =? DataLSetFlag then
        let keyAndIndex := strings_Split (Key e) SeparatorForListKey in
        index_or_crash keyAndIndex 0 (fun newKey =>
        index_or_crash keyAndIndex 1 (fun idx =>
          let index := fst (StrToInt idx) in
          on_list bucket (fun l => LSet l newKey index (Value e)) db))
      else if flag =? DataLTrimFlag then
        let keyAndStartIndex := strings_Split (Key e) SeparatorForListKey in
        index_or_crash keyAndStartIndex 0 (fun newKey =>
        index_or_crash keyAndStartIndex 1 (fun st =>
          let start := fst (StrToInt st) in
          let end_ := fst (StrToInt (Value e)) in
          on_list bucket (fun l => Ltrim l newKey start end_) db))
      else Val (db, None)
  end.

Definition buildOtherIdxes (bucket : string) (r : Record_) : step :=
  when (ds (meta (H r)) =? DataStructureSet) (buildSetIdx bucket r)
  >>> when (ds (meta (H r)) =? DataStructureSortedSet) (buildSortedSetIdx bucket r)
  >>> when (ds (meta (H r)) =? DataStructureList) (buildListIdx bucket r).

(** The body of the [if _, ok := db.committedTxIds[r.H.meta.txID]; ok]
    of [buildHintIdx]: the record is handed to the builders. *)
Definition dispatch (r : Record_) : step := fun db =>
  let bucket := bucket (meta (H r)) in
  let isBPT := ds (meta (H r)) =? DataStructureBPTree in
  let r := if isBPT then set_meta_status r Committed else r in
  (when isBPT
     (if is_sparse db then buildActiveBPTreeIdx r else buildBPTreeIdx bucket r)
   >>> buildOtherIdxes bucket r
   >>> (fun db => Val (set_KeyCount db (wrap_int64 (KeyCount db + 1)), None))) db.

(** The loop [for _, r := range unconfirmedRecords] of [buildHintIdx]. *)
Fixpoint buildHintIdx_apply (unconfirmedRecords : list Record_) : step :=
  match unconfirmedRecords with
  | [] => skip
  | r :: rest =>
      (fun db =>
         if decide (txID (meta (H r)) ∈ committedTxIds db)
         then dispatch r db
         else Val (db, None))
      >>> buildHintIdx_apply rest
  end.

End Builders.

(** ** Data files, the directory and the transaction layer *)

(** What [ReadAt] returned: [(entry, nil)], [(nil, nil)] or [(_, err)]. *)
Inductive ReadResult : Type :=
  | ReadEntry (e : Entry)
  | ReadNil
  | ReadErr (err : error).

(** The calls [db.go] makes on data files, on the directory and on
    transactions, as they are written to the ghost log of a run. *)
Inductive Event : Type :=
  | EvNewDataFile (path : string)
  | EvReadAt (path : string) (off : Z)
  | EvClose (path : string)
  | EvRemove (path : string)
  | EvBegin (writable : bool)
  | EvPut (bucket : string) (key value : bytes) (ttl flag timestamp ds : Z)
  | EvCommit
  | EvRollback.

(** Everything stateful outside [db.go].  [World] is the directory with its
    files and the state of the transaction layer; the transaction methods
    also see the [DB] struct. *)
Class Platform `{Structures} : Type := {
  World : Type;
  ioutil_ReadDir : string -> World -> error + list string;
  NewDataFile : string -> Z -> Z -> World -> (error + DataFile) * World;
  DataFile_ReadAt : DataFile -> Z -> World -> ReadResult;
  rwManager_Close : DataFile -> World -> World;
  os_Remove : string -> World -> option error * World;
  ReadBPTreeRootIdxAt : string -> Z -> World -> option BPTreeRootIdx * option error;
  db_Begin : bool -> DB * World -> (error + Tx) * (DB * World);
  tx_put : Tx -> string -> bytes -> bytes -> Z -> Z -> Z -> Z ->
           DB * World -> option error * (DB * World);
  tx_Commit : Tx -> DB * World -> option error * (DB * World);
  tx_Rollback : Tx -> DB * World -> option error * (DB * World)
}.

(** How a loop body leaves the loop: [break], or [return err]. *)
Inductive loop_exit (A : Type) : Type :=
  | Break (a : A)
  | Return (err : error).
Arguments Break {A} a.
Arguments Return {A} err.

Section Engine.
Context `{Platform}.

Record State : Type := mkState {
  st_db : DB;
  st_world : World;
  st_log : list Event
}.

Definition with_db (s : State) (f : DB -> DB) : State :=
  mkState (f (st_db s)) (st_world s) (st_log s).
Definition with_world (s : State) (w : World) : State :=
  mkState (st_db s) w (st_log s).
Definition logged (s : State) (ev : Event) : State :=
  mkState (st_db s) (st_world s) (st_log s ++ [ev])%list.

(** The collaborators' calls, each leaving its event in the log. *)
Definition call_NewDataFile (path : string) (capacity mode : Z) (s : State)
  : (error + DataFile) * State :=
  let '(r, w) := NewDataFile path capacity mode (st_world s) in
  (r, logged (with_world s w) (EvNewDataFile path)).

Definition call_ReadAt (path : string) (f : DataFile) (off : Z) (s : State)
  : ReadResult * State :=
  (DataFile_ReadAt f off (st_world s), logged s (EvReadAt path off)).

Definition call_Close (path : string) (f : DataFile) (s : State) : State :=
  logged (with_world s (rwManager_Close f (st_world s))) (EvClose path).

Definition call_Remove (path : string) (s : State) : option error * State :=
  let '(r, w) := os_Remove path (st_world s) in
  (r, logged (with_world s w) (EvRemove path)).

Definition lift_tx {A} (op : DB * World -> A * (DB * World)) (ev : Event)
    (s : State) : A * State :=
  let '(r, (d, w)) := op (st_db s, st_world s) in
  (r, mkState d w (st_log s ++ [ev])%list).

Definition call_Begin (writable : bool) : State -> (error + Tx) * State :=
  lift_tx (db_Begin writable) (EvBegin writable).
Definition call_put (tx : Tx) (bucket : string) (key value : bytes)
    (ttl flag timestamp ds : Z) : State -> option error * State :=
  lift_tx (tx_put tx bucket key value ttl flag timestamp ds)
    (EvPut bucket key value ttl flag timestamp ds).
Definition call_Commit (tx : Tx) : State -> option error * State :=
  lift_tx (tx_Commit tx) EvCommit.
Definition call_Rollback (tx : Tx) : State -> option error * State :=
  lift_tx (tx_Rollback tx) EvRollback.

(** *** Paths *)

Definition getDataPath (db : DB) (fID : Z) : string :=
  String.append (Dir (opt db))
    (String.append "/" (String.append (Int64ToStr fID) DataSuffix)).

Definition getBPTDir (db : DB) : string :=
  String.append (Dir (opt db)) (String.append "/" bptDir).

Definition getBPTRootPath (db : DB) (fID : Z) : string :=
  String.append (getBPTDir db)
    (String.append "/root/" (String.append (Int64ToStr fID) BPTRootIndexSuffix)).

(** *** [getMaxFileIDAndFileIDs] *)

Fixpoint collect_dataFileIds (files : list string) (dataFileIds : list Z) : list Z :=
  match files with
  | [] => dataFileIds
  | id :: rest =>
      let fileSuffix := path_Ext (path_Base id) in
      if negb (String.eqb fileSuffix DataSuffix)
      then collect_dataFileIds rest dataFileIds
      else
        let id := strings_TrimSuffix id DataSuffix in
        let idVal := fst (StrToInt id) in
        collect_dataFileIds rest (dataFileIds ++ [idVal])%list
  end.

(** The error of [ReadDir] is dropped: [files] is then nil. *)
Definition getMaxFileIDAndFileIDs (s : State) : Z * list Z :=
  let files :=
    match ioutil_ReadDir (Dir (opt (st_db s))) (st_world s) with
    | inl _ => []
    | inr files => files
    end in
  match files with
  | [] => (0, [])
  | _ =>
      match collect_dataFileIds files [] with
      | [] => (0, [])
      | dataFileIds =>
          let sorted := sort_Ints dataFileIds in
          (List.last sorted 0, sorted)
      end
  end.

(** *** Merge *)

Definition isFilterEntry (entry : Entry) : bool :=
  (Flag (Meta entry) =? DataDeleteFlag) || (Flag (Meta entry) =? DataRPopFlag) ||
  (Flag (Meta entry) =? DataLPopFlag) || (Flag (Meta entry) =? DataLRemFlag) ||
  (Flag (Meta entry) =? DataLTrimFlag) || (Flag (Meta entry) =? DataZRemFlag) ||
  (Flag (Meta entry) =? DataZRemRangeByRankFlag) ||
  (Flag (Meta entry) =? DataZPopMaxFlag) ||
  (Flag (Meta entry) =? DataZPopMinFlag) ||
  IsExpired (TTL (Meta entry)) (timestamp (Meta entry)).

Definition res_bind {A B} (m : res A) (k : A -> res B) : res B :=
  match m with
  | Val a => k a
  | Crash => Crash
  | Stuck => Stuck
  end.

Definition getPendingMergeEntries (db : DB) (entry : Entry)
    (pendingMergeEntries : list Entry) : res (list Entry) :=
  let bkt := bucket (Meta entry) in
  res_bind
    (if ds (Meta entry) =? DataStructureBPTree then
       res_bind (BPTree_Find (BPTreeIdx db !! bkt) (Key entry)) (fun found =>
         match found with
         | inr r =>
             if Flag (meta (H r)) =? DataSetFlag
             then Val (pendingMergeEntries ++ [entry])%list
             else Val pendingMergeEntries
         | inl _ => Val pendingMergeEntries
         end)
     else Val pendingMergeEntries) (fun pendingMergeEntries =>
  res_bind
    (if ds (Meta entry) =? DataStructureSet then
       res_bind (SIsMember (SetIdx db !! bkt) (Key entry) (Value entry)) (fun b =>
         if b then Val (pendingMergeEntries ++ [entry])%list else Val pendingMergeEntries)
     else Val pendingMergeEntries) (fun pendingMergeEntries =>
  res_bind
    (if ds (Meta entry) =? DataStructureSortedSet then
       match strings_Split (Key entry) SeparatorForZSetKey with
       | [key0; _] =>
           res_bind (zset_GetByKey (SortedSetIdx db !! bkt) key0) (fun n =>
             if n then Val (pendingMergeEntries ++ [entry])%list else Val pendingMergeEntries)
       | _ => Val pendingMergeEntries
       end
     else Val pendingMergeEntries) (fun pendingMergeEntries =>
  if ds (Meta entry) =? DataStructureList then
    res_bind (LRange (ListIdx db !! bkt) (Key entry) 0 (-1)) (fun items =>
      if (Flag (Meta entry) =? DataRPushFlag) || (Flag (Meta entry) =? DataLPushFlag)
      then
        if existsb (String.eqb (Value entry)) items
        then Val (pendingMergeEntries ++ [entry])%list
        else Val pendingMergeEntries
      else Val pendingMergeEntries)
  else Val pendingMergeEntries))).

(** The loop [for _, e := range pendingMergeEntries] of [reWriteData]. *)
Fixpoint reWriteData_puts (tx : Tx) (entries : list Entry) (s : State)
  : option error * State :=
  match entries with
  | [] => (None, s)
  | e :: rest =>
      match call_put tx (bucket (Meta e)) (Key e) (Value e) (TTL (Meta e))
              (Flag (Meta e)) (timestamp (Meta e)) (ds (Meta e)) s with
      | (Some err, s) =>
          let '(_, s) := call_Rollback tx s in
          (Some err, with_db s (fun d => set_isMerging d false))
      | (None, s) => reWriteData_puts tx rest s
      end
  end.

Definition reWriteData (pendingMergeEntries : list Entry) (s : State)
  : option error * State :=
  match call_Begin true s with
  | (inl err, s) => (Some err, with_db s (fun d => set_isMerging d false))
  | (inr tx, s) =>
      let path := getDataPath (st_db s) (wrap_int64 (MaxFileID (st_db s) + 1)) in
      match call_NewDataFile path (SegmentSize (opt (st_db s))) (RWMode (opt (st_db s))) s with
      | (inl err, s) => (Some err, with_db s (fun d => set_isMerging d false))
      | (inr dataFile, s) =>
          let s := with_db s (fun d => set_ActiveFile d (Some dataFile)) in
          let s := with_db s (fun d => set_MaxFileID d (wrap_int64 (MaxFileID d + 1))) in
          match reWriteData_puts tx pendingMergeEntries s with
          | (Some err, s) => (Some err, s)
          | (None, s) =>
              let '(_, s) := call_Commit tx s in
              (None, s)
          end
      end
  end.

(** The inner [for] of [Merge], reading one segment from [off] on. *)
Fixpoint Merge_scan (fuel : nat) (path : string) (f : DataFile) (off : Z)
    (pendingMergeEntries : list Entry) (s : State)
  : res (loop_exit (list Entry) * State) :=
  match fuel with
  | O => Stuck
  | S fuel =>
      let '(rd, s) := call_ReadAt path f off s in
      match rd with
      | ReadNil => Val (Break pendingMergeEntries, s)
      | ReadEntry entry =>
          if isFilterEntry entry then
            let off := wrap_int64 (off + Entry_Size entry) in
            if off >=? SegmentSize (opt (st_db s))
            then Val (Break pendingMergeEntries, s)
            else Merge_scan fuel path f off pendingMergeEntries s
          else
            res_bind (getPendingMergeEntries (st_db s) entry pendingMergeEntries)
              (fun pendingMergeEntries =>
                 let off := wrap_int64 (off + Entry_Size entry) in
                 if off >=? SegmentSize (opt (st_db s))
                 then Val (Break pendingMergeEntries, s)
                 else Merge_scan fuel path f off pendingMergeEntries s)
      | ReadErr io_EOF => Val (Break pendingMergeEntries, s)
      | ReadErr err =>
          let s := call_Close path f s in
          Val (Return
                 (fmt_Errorf "when merge operation build hintIndex readAt err: " err),
               s)
      end
  end.

(** The loop [for _, pendingMergeFId := range pendingMergeFIds]. *)
Fixpoint Merge_loop (fuel : nat) (pendingMergeFIds : list Z) (s : State)
  : res (option error * State) :=
  match pendingMergeFIds with
  | [] => Val (None, s)
  | pendingMergeFId :: rest =>
      let path := getDataPath (st_db s) pendingMergeFId in
      match call_NewDataFile path (SegmentSize (opt (st_db s))) (RWMode (opt (st_db s))) s with
      | (inl err, s) => Val (Some err, with_db s (fun d => set_isMerging d false))
      | (inr f, s) =>
          res_bind (Merge_scan fuel path f 0 [] s) (fun '(ex, s) =>
            match ex with
            | Return err => Val (Some err, s)
            | Break pendingMergeEntries =>
                match reWriteData pendingMergeEntries s with
                | (Some err, s) => Val (Some err, call_Close path f s)
                | (None, s) =>
                    match call_Remove (getDataPath (st_db s) pendingMergeFId) s with
                    | (Some err, s) =>
                        let s := with_db s (fun d => set_isMerging d false) in
                        Val (Some (fmt_Errorf "when merge err: " err),
                             call_Close path f s)
                    | (None, s) => Merge_loop fuel rest (call_Close path f s)
                    end
                end
            end)
      end
  end.

(** [Merge].  [fuel] bounds the reads of one segment. *)
Definition Merge (fuel : nat) (s : State) : res (option error * State) :=
  if is_sparse (st_db s) then
    Val (Some (errors_New "not support mode `HintBPTSparseIdxMode`"), s)
  else
    let s := with_db s (fun d => set_isMerging d true) in
    let '(_, pendingMergeFIds) := getMaxFileIDAndFileIDs s in
    if (length pendingMergeFIds <? 2)%nat then
      Val (Some (errors_New "the number of files waiting to be merged is at least 2"),
           with_db s (fun d => set_isMerging d false))
    else Merge_loop fuel pendingMergeFIds s.


(** *** Recovery: the parse phase *)

(** The inner [for] of [parseDataFiles], reading one segment from [off]
    on. *)
Fixpoint parseDataFiles_scan (fuel : nat) (path : string) (f : DataFile)
    (fID off : Z) (unconfirmedRecords : list Record_)
    (committedTxIds : gset Z) (s : State)
  : res (loop_exit (list Record_ * gset Z) * State) :=
  match fuel with
  | O => Stuck
  | S fuel =>
      let '(rd, s) := call_ReadAt path f off s in
      match rd with
      | ReadNil => Val (Break (unconfirmedRecords, committedTxIds), s)
      | ReadEntry entry =>
          let e :=
            if mode_eqb (EntryIdxMode_ (opt (st_db s))) HintKeyValAndRAMIdxMode
            then Some (mkEntry (Key entry) (Value entry) (Meta entry))
            else None in
          let '(committedTxIds, s) :=
            if status (Meta entry) =? Committed then
              ({[ txID (Meta entry) ]} ∪ committedTxIds,
               with_db s (fun d =>
                 set_ActiveCommittedTxIdsIdx d
                   (fst (BPTree_Insert (ActiveCommittedTxIdsIdx d)
                           (Int64ToStr (wrap_int64 (txID (Meta entry)))) None
                           (mkHint "" 0 (mkMeta "" DataSetFlag 0 0 0 0 0) 0)
                           CountFlagEnabled))))
            else (committedTxIds, s) in
          let unconfirmedRecords :=
            (unconfirmedRecords ++
               [mkRecord (mkHint (Key entry) fID (Meta entry) (to_uint64 off)) e])%list in
          let s :=
            if is_sparse (st_db s) then
              with_db s (fun d =>
                set_BPTreeKeyEntryPosMap d
                  (<[String.append (bucket (Meta entry)) (Key entry) := off]>
                     (BPTreeKeyEntryPosMap d)))
            else s in
          parseDataFiles_scan fuel path f fID
            (wrap_int64 (off + Entry_Size entry)) unconfirmedRecords committedTxIds s
      | ReadErr io_EOF => Val (Break (unconfirmedRecords, committedTxIds), s)
      | ReadErr err =>
          if off >=? SegmentSize (opt (st_db s))
          then Val (Break (unconfirmedRecords, committedTxIds), s)
          else
            Val (Return (fmt_Errorf "when build hintIndex readAt err: " err),
                 call_Close path f s)
      end
  end.

(** What [parseDataFiles] returns: the records, the committed
    transaction ids and the error. *)
Definition parsed : Type := list Record_ * gset Z * option error.

Fixpoint parseDataFiles_loop (fuel : nat) (dataFileIds : list Z)
    (unconfirmedRecords : list Record_) (committedTxIds : gset Z) (s : State)
  : res (parsed * State) :=
  match dataFileIds with
  | [] => Val ((unconfirmedRecords, committedTxIds, None), s)
  | dataID :: rest =>
      let path := getDataPath (st_db s) dataID in
      match call_NewDataFile path (SegmentSize (opt (st_db s)))
              (StartFileLoadingMode (opt (st_db s))) s with
      | (inl err, s) => Val (([], ∅, Some err), s)
      | (inr f, s) =>
          res_bind
            (parseDataFiles_scan fuel path f dataID 0
               unconfirmedRecords committedTxIds s)
            (fun '(ex, s) =>
               match ex with
               | Return err => Val (([], ∅, Some err), s)
               | Break (unconfirmedRecords, committedTxIds) =>
                   parseDataFiles_loop fuel rest unconfirmedRecords
                     committedTxIds (call_Close path f s)
               end)
      end
  end.

(** [dataFileIds[len(dataFileIds)-1:]] panics on the empty slice. *)
Definition parseDataFiles (fuel : nat) (dataFileIds : list Z) (s : State)
  : res (parsed * State) :=
  if is_sparse (st_db s) then
    match dataFileIds with
    | [] => Crash
    | _ => parseDataFiles_loop fuel [List.last dataFileIds 0] [] ∅ s
    end
  else parseDataFiles_loop fuel dataFileIds [] ∅ s.

(** *** Recovery: the root indexes of sparse mode *)

Fixpoint buildBPTreeRootIdxes_scan (fuel : nat) (path : string) (off : Z)
    (s : State) : res (option error * State) :=
  match fuel with
  | O => Stuck
  | S fuel =>
      match ReadBPTreeRootIdxAt path off (st_world s) with
      | (_, Some io_EOF) => Val (None, s)
      | (None, None) => Val (None, s)
      | (_, Some err) => Val (Some err, s)
      | (Some bs, None) =>
          let s := with_db s (fun d =>
                     set_BPTreeRootIdxes d (BPTreeRootIdxes d ++ [bs])%list) in
          buildBPTreeRootIdxes_scan fuel path
            (wrap_int64 (off + BPTreeRootIdx_Size bs)) s
      end
  end.

Fixpoint buildBPTreeRootIdxes_loop (fuel : nat) (fIDs : list Z) (s : State)
  : res (option error * State) :=
  match fIDs with
  | [] => Val (None, s)
  | fID :: rest =>
      res_bind
        (buildBPTreeRootIdxes_scan fuel (getBPTRootPath (st_db s) fID) 0 s)
        (fun '(err, s) =>
           match err with
           | Some err => Val (Some err, s)
           | None => buildBPTreeRootIdxes_loop fuel rest s
           end)
  end.

Definition buildBPTreeRootIdxes (fuel : nat) (dataFileIds : list Z) (s : State)
  : res (option error * State) :=
  match dataFileIds with
  | [_] => Val (None, s)
  | [] => Crash
  | _ =>
      res_bind
        (buildBPTreeRootIdxes_loop fuel (removelast dataFileIds) s)
        (fun '(err, s) =>
           match err with
           | Some err => Val (Some err, s)
           | None => Val (None, with_db s (fun d => set_committedTxIds d ∅))
           end)
  end.

(** *** Recovery: [buildHintIdx] *)

Definition buildHintIdx (fuel : nat) (dataFileIds : list Z) (s : State)
  : res (option error * State) :=
  res_bind (parseDataFiles fuel dataFileIds s) (fun '((unconfirmedRecords, committedTxIds, err), s) =>
    let s := with_db s (fun d => set_committedTxIds d committedTxIds) in
    match err with
    | Some err => Val (Some err, s)
    | None =>
        match unconfirmedRecords with
        | [] => Val (None, s)
        | _ =>
            res_bind (buildHintIdx_apply unconfirmedRecords (st_db s)) (fun '(d, err) =>
              let s := with_db s (fun _ => d) in
              match err with
              | Some err => Val (Some err, s)
              | None =>
                  if is_sparse (st_db s)
                  then buildBPTreeRootIdxes fuel dataFileIds s
                  else Val (None, s)
              end)
        end
    end).

(** *** The managed transaction facade *)

(** A user function [fn(tx)]: it works on the database through [tx]. *)
Definition callback : Type := Tx -> DB * World -> option error * (DB * World).

Definition run_fn (fn : callback) (tx : Tx) (s : State) : option error * State :=
  let '(r, (d, w)) := fn tx (st_db s, st_world s) in
  (r, mkState d w (st_log s)).

Definition managed (writable : bool) (fn : callback) (s : State)
  : option error * State :=
  match call_Begin writable s with
  | (inl err, s) => (Some err, s)
  | (inr tx, s) =>
      match run_fn fn tx s with
      | (Some err, s) =>
          match call_Rollback tx s with
          | (Some errRollback, s) => (Some errRollback, s)
          | (None, s) => (Some err, s)
          end
      | (None, s) =>
          match call_Commit tx s with
          | (Some err, s) =>
              match call_Rollback tx s with
              | (Some errRollback, s) => (Some errRollback, s)
              | (None, s) => (Some err, s)
              end
          | (None, s) => (None, s)
          end
      end
  end.

(** [fn = None] is the nil function value. *)
Definition Update (fn : option callback) (s : State) : option error * State :=
  match fn with
  | None => (Some ErrFn, s)
  | Some fn => managed true fn s
  end.

Definition View (fn : option callback) (s : State) : option error * State :=
  match fn with
  | None => (Some ErrFn, s)
  | Some fn => managed false fn s
  end.

End Engine.

(** ** Opening and closing the database *)

Section Lifecycle.
Context `{Platform}.

(** Writes to the fields [fileID], [writeOff] and [ActualSize] of a
    [DataFile], and the helpers of [filesystem] and [os] that [Open] and
    [Backup] call. *)
Variable DataFile_with_fileID : DataFile -> Z -> DataFile.
Variable DataFile_with_writeOff : DataFile -> Z -> DataFile.
Variable DataFile_with_ActualSize : DataFile -> Z -> DataFile.
Variable PathIsExist : string -> World -> bool.
Variable MkdirAll : string -> World -> option error * World.
Variable CopyDir : string -> string -> World -> option error * World.

Definition set_closed (db : DB) (v : bool) : DB :=
  mkDB (opt db) (BPTreeIdx db) (BPTreeRootIdxes db) (BPTreeKeyEntryPosMap db)
    (SetIdx db) (SortedSetIdx db) (ListIdx db) (ActiveFile db)
    (ActiveBPTreeIdx db) (ActiveCommittedTxIdsIdx db) (committedTxIds db)
    (MaxFileID db) (KeyCount db) v (isMerging db).

(** The path of the active file, for the log. *)
Definition active_path (db : DB) : string := getDataPath db (MaxFileID db).

(** [setActiveFile]: on an error of [NewDataFile] the field is left nil. *)
Definition setActiveFile (s : State) : option error * State :=
  let filepath := getDataPath (st_db s) (MaxFileID (st_db s)) in
  match call_NewDataFile filepath (SegmentSize (opt (st_db s)))
          (RWMode (opt (st_db s))) s with
  | (inl err, s) => (Some err, with_db s (fun d => set_ActiveFile d None))
  | (inr f, s) =>
      (None,
       with_db s (fun d =>
         set_ActiveFile d (Some (DataFile_with_fileID f (MaxFileID d)))))
  end.

(** [getActiveFileWriteOff]: the offset and the error it returns. *)
Fixpoint getActiveFileWriteOff (fuel : nat) (off : Z) (s : State)
  : res ((Z * option error) * State) :=
  match fuel with
  | O => Stuck
  | S fuel =>
      match ActiveFile (st_db s) with
      | None => Crash
      | Some f =>
          let '(rd, s) := call_ReadAt (active_path (st_db s)) f off s in
          match rd with
          | ReadNil => Val ((off, None), s)
          | ReadEntry item =>
              let off := wrap_int64 (off + Entry_Size item) in
              let s := with_db s (fun d =>
                         set_ActiveFile d (Some (DataFile_with_ActualSize f off))) in
              getActiveFileWriteOff fuel off s
          | ReadErr io_EOF => Val ((off, None), s)
          | ReadErr err =>
              Val ((-1,
                    Some (fmt_Errorf "when build activeDataIndex readAt err: " err)),
                   s)
          end
      end
  end.

(** [buildIndexes].  The assignment to [db.ActiveFile.writeOff] is made
    whatever [getActiveFileWriteOff] returned. *)
Definition buildIndexes (fuel : nat) (s : State) : res (option error * State) :=
  let '(maxFileID, dataFileIds) := getMaxFileIDAndFileIDs s in
  let s := with_db s (fun d => set_MaxFileID d maxFileID) in
  match setActiveFile s with
  | (Some err, s) => Val (Some err, s)
  | (None, s) =>
      if match dataFileIds with [] => true | _ => false end && (maxFileID =? 0)
      then Val (None, s)
      else
        res_bind (getActiveFileWriteOff fuel 0 s) (fun '((off, err), s) =>
          match ActiveFile (st_db s) with
          | None => Crash
          | Some f =>
              let s := with_db s (fun d =>
                         set_ActiveFile d (Some (DataFile_with_writeOff f off))) in
              match err with
              | Some err => Val (Some err, s)
              | None => buildHintIdx fuel dataFileIds s
              end
          end)
  end.

(** The [DB] that [Open] starts from. *)
Definition new_DB (opt : Options) : DB :=
  mkDB opt ∅ [] ∅ ∅ ∅ ∅ None NewTree NewTree ∅ 0 0 false false.

Definition mkdir_if_missing (dir : string) (w : World) : option error * World :=
  if PathIsExist dir w then (None, w) else MkdirAll dir w.

(** [Open]: the error, and the state with the new [DB]. *)
Definition Open (fuel : nat) (opt : Options) (w : World)
  : res (option error * State) :=
  let db := new_DB opt in
  match mkdir_if_missing (Dir opt) w with
  | (Some err, w) => Val (Some err, mkState db w [])
  | (None, w) =>
      match checkEntryIdxMode (EntryIdxMode_ opt) (ioutil_ReadDir (Dir opt) w) with
      | Some err => Val (Some err, mkState db w [])
      | None =>
          let sparse_dirs : option error * World :=
            if mode_eqb (EntryIdxMode_ opt) HintBPTSparseIdxMode then
              let bptRootIdxDir :=
                String.append (Dir opt) (String.append "/" (String.append bptDir "/root")) in
              match mkdir_if_missing bptRootIdxDir w with
              | (Some err, w) => (Some err, w)
              | (None, w) =>
                  let bptTxIDIdxDir :=
                    String.append (Dir opt)
                      (String.append "/" (String.append bptDir "/txid")) in
                  mkdir_if_missing bptTxIDIdxDir w
              end
            else (None, w) in
          match sparse_dirs with
          | (Some err, w) => Val (Some err, mkState db w [])
          | (None, w) =>
              res_bind (buildIndexes fuel (mkState db w [])) (fun '(err, s) =>
                match err with
                | Some err => Val (Some (fmt_Errorf "db.buildIndexes error: " err), s)
                | None => Val (None, s)
                end)
          end
      end
  end.

(** [Close]: with [ActiveFile] nil the call on it is a nil dereference. *)
Definition Close (s : State) : res (option error * State) :=
  if closed (st_db s) then Val (Some ErrDBClosed, s)
  else
    let s := with_db s (fun d => set_closed d true) in
    match ActiveFile (st_db s) with
    | None => Crash
    | Some f =>
        let s := call_Close (active_path (st_db s)) f s in
        let s := with_db s (fun d => set_ActiveFile d None) in
        let s := with_db s (fun d => set_BPTreeIdx d ∅) in
        Val (None, s)
    end.

(** [Backup]: the copy runs inside [View]. *)
Definition Backup (dir : string) (s : State) : option error * State :=
  View
    (Some (fun (tx : Tx) (dw : DB * World) =>
             let '(err, w) := CopyDir (Dir (opt (fst dw))) dir (snd dw) in
             (err, (fst dw, w))))
    s.

End Lifecycle.

(** ** A small instance of the collaborators

    A directory of segment files read by offset, association lists for the
    index structures, decimal integers for scores, a clock stopped at
    time 100 and a transaction layer that accepts everything.  The closed
    examples below run the functions of [db.go] on it. *)

Definition sim_StrToInt (s : string) : Z * option error :=
  match NilZero.int_of_string s with
  | Some i => (Z.of_int i, None)
  | None => (0, Some (errors_New "invalid syntax"))
  end.

Definition sim_Int64ToStr (z : Z) : string := NilZero.string_of_int (Z.to_int z).

Definition sim_IsExpired (ttl timestamp : Z) : bool :=
  if ttl =? 0 then false else ttl <=? 100 - timestamp.

Definition sim_Entry_Size (e : Entry) : Z :=
  42 + Z.of_nat (String.length (bucket (Meta e)))
     + Z.of_nat (String.length (Key e)) + Z.of_nat (String.length (Value e)).

#[export] Instance sim_codec : Codec := {|
  DataSuffix := ".dat";
  SeparatorForZSetKey := "|";
  SeparatorForListKey := "|";
  BPTRootIndexSuffix := ".bptridx";
  Entry_Size := sim_Entry_Size;
  IsExpired := sim_IsExpired;
  StrToInt := sim_StrToInt;
  Int64ToStr := sim_Int64ToStr;
  float64 := Z;
  float64_zero := 0;
  StrToFloat64 := sim_StrToInt
|}.

Definition assoc_remove {A} (k : string) (l : list (string * A)) : list (string * A) :=
  List.filter (fun kv => negb (String.eqb (fst kv) k)) l.

Definition assoc_find {A} (k : string) (l : list (string * A)) : option A :=
  option_map snd (List.find (fun kv => String.eqb (fst kv) k) l).

Definition sim_tree : Type := list (string * Record_).

Definition sim_Insert (t : sim_tree) (k : bytes) (e : option Entry) (h : Hint)
    (countFlag : bool) : sim_tree * option error :=
  ((k, mkRecord h e) :: assoc_remove k t, None).

Definition sim_Find (t : option sim_tree) (k : bytes) : res (error + Record_) :=
  match t with
  | None => Crash
  | Some t =>
      match assoc_find k t with
      | Some r => Val (inr r)
      | None => Val (inl (errors_New "key not found"))
      end
  end.

Definition sim_set : Type := list (string * bytes).

Definition pair_eqb (a b : string * bytes) : bool :=
  String.eqb (fst a) (fst b) && String.eqb (snd a) (snd b).

Definition sim_SAdd (s : sim_set) (k : string) (v : bytes) : sim_set * option error :=
  (if existsb (pair_eqb (k, v)) s then s else s ++ [(k, v)], None)%list.

Definition sim_SRem (s : sim_set) (k : string) (v : bytes) : sim_set * option error :=
  if existsb (pair_eqb (k, v)) s
  then (List.filter (fun kv => negb (pair_eqb (k, v) kv)) s, None)
  else (s, Some (errors_New "item not exist")).

Definition sim_SIsMember (s : option sim_set) (k : string) (v : bytes) : res bool :=
  match s with
  | None => Crash
  | Some s => Val (existsb (pair_eqb (k, v)) s)
  end.

(** Kept in ascending order of score. *)
Definition sim_zset : Type := list (string * (Z * bytes)).

Fixpoint zset_insert (k : string) (score : Z) (v : bytes) (z : sim_zset) : sim_zset :=
  match z with
  | [] => [(k, (score, v))]
  | (k', (score', v')) :: z' =>
      if score <? score' then (k, (score, v)) :: z
      else (k', (score', v')) :: zset_insert k score v z'
  end.

Definition sim_zset_Put (z : sim_zset) (k : string) (score : Z) (v : bytes) : sim_zset :=
  zset_insert k score v (assoc_remove k z).

Definition sim_zset_GetByRankRange (z : sim_zset) (start end_ : Z) (remove : bool)
  : sim_zset :=
  if remove
  then (firstn (Z.to_nat (start - 1)) z ++ skipn (Z.to_nat end_) z)%list
  else z.

Definition sim_zset_GetByKey (z : option sim_zset) (k : string) : res bool :=
  match z with
  | None => Crash
  | Some z => Val (match assoc_find k z with Some _ => true | None => false end)
  end.

Definition sim_list : Type := list (string * list bytes).

Definition items_of (l : sim_list) (k : string) : list bytes :=
  default [] (assoc_find k l).

Definition with_items (l : sim_list) (k : string) (items : list bytes) : sim_list :=
  (k, items) :: assoc_remove k l.

Definition sim_LPop (l : sim_list) (k : string) : sim_list * option error :=
  match items_of l k with
  | [] => (l, Some (errors_New "list is empty"))
  | _ :: items => (with_items l k items, None)
  end.

Definition sim_RPop (l : sim_list) (k : string) : sim_list * option error :=
  match items_of l k with
  | [] => (l, Some (errors_New "list is empty"))
  | items => (with_items l k (removelast items), None)
  end.

Definition sim_LRem (l : sim_list) (k : string) (count : Z) : sim_list * option error :=
  match assoc_find k l with
  | None => (l, Some (errors_New "the list not found"))
  | Some items => (with_items l k (skipn (Z.to_nat count) items), None)
  end.

Definition sim_LSet (l : sim_list) (k : string) (index : Z) (v : bytes)
  : sim_list * option error :=
  if (0 <=? index) && (index <? Z.of_nat (length (items_of l k)))
  then (with_items l k (<[Z.to_nat index := v]> (items_of l k)), None)
  else (l, Some (errors_New "err index out of range")).

Definition sim_Ltrim (l : sim_list) (k : string) (start end_ : Z)
  : sim_list * option error :=
  match assoc_find k l with
  | None => (l, Some (errors_New "the list not found"))
  | Some items =>
      (with_items l k
         (firstn (Z.to_nat (end_ - start + 1)) (skipn (Z.to_nat start) items)),
       None)
  end.

Definition sim_LRange (l : option sim_list) (k : string) (start end_ : Z)
  : res (list bytes) :=
  match l with
  | None => Crash
  | Some l => Val (items_of l k)
  end.

(** An open data file is what can be read from it, by offset. *)
Definition sim_file : Type := list (Z * ReadResult).

#[export] Instance sim_structures : Structures := {|
  BPTree := sim_tree;
  NewTree := [];
  BPTree_Insert := sim_Insert;
  BPTree_Find := sim_Find;
  BPTreeRootIdx := unit;
  BPTreeRootIdx_Size := fun _ => 0;
  Set_ := sim_set;
  set_New := [];
  SAdd := sim_SAdd;
  SRem := sim_SRem;
  SIsMember := sim_SIsMember;
  SortedSet := sim_zset;
  zset_New := [];
  zset_Put := sim_zset_Put;
  zset_Remove := fun z k => assoc_remove k z;
  zset_GetByRankRange := sim_zset_GetByRankRange;
  zset_PopMax := fun z => removelast z;
  zset_PopMin := fun z => tl z;
  zset_GetByKey := sim_zset_GetByKey;
  List_ := sim_list;
  list_New := [];
  LPush := fun l k v => with_items l k (v :: items_of l k);
  RPush := fun l k v => with_items l k (items_of l k ++ [v])%list;
  LRem := sim_LRem;
  LPop := sim_LPop;
  RPop := sim_RPop;
  LSet := sim_LSet;
  Ltrim := sim_Ltrim;
  LRange := sim_LRange;
  DataFile := sim_file;
  Tx := unit
|}.

(** The files of the directory, by path, in the order of their names. *)
Definition sim_world : Type := list (string * sim_file).

Definition sim_ReadAt (f : sim_file) (off : Z) (w : sim_world) : ReadResult :=
  match List.find (fun r => fst r =? off) f with
  | Some r => snd r
  | None => ReadErr io_EOF
  end.

Definition sim_NewDataFile (path : string) (capacity mode : Z) (w : sim_world)
  : (error + sim_file) * sim_world :=
  match assoc_find path w with
  | Some f => (inr f, w)
  | None => (inr [], (w ++ [(path, [])])%list)
  end.

Definition sim_Remove (path : string) (w : sim_world) : option error * sim_world :=
  match assoc_find path w with
  | Some _ => (None, assoc_remove path w)
  | None => (Some (errors_New "no such file or directory"), w)
  end.

#[export] Instance sim_platform : Platform := {|
  World := sim_world;
  ioutil_ReadDir := fun dir w => inr (map (fun pf => path_Base (fst pf)) w);
  NewDataFile := sim_NewDataFile;
  DataFile_ReadAt := sim_ReadAt;
  rwManager_Close := fun f w => w;
  os_Remove := sim_Remove;
  ReadBPTreeRootIdxAt := fun path off w => (None, Some io_EOF);
  db_Begin := fun writable dw => (inr tt, dw);
  tx_put := fun tx b k v ttl flag ts ds dw => (None, dw);
  tx_Commit := fun tx dw => (None, dw);
  tx_Rollback := fun tx dw => (None, dw)
|}.

Definition sim_opt (mode : EntryIdxMode) : Options := mkOptions "/db" 1000 mode 0 0.

(** The database as [Open] makes it, before recovery. *)
Definition sim_db (mode : EntryIdxMode) : DB :=
  mkDB (sim_opt mode) ∅ [] ∅ ∅ ∅ ∅ None [] [] ∅ 0 0 false false.

Definition sim_state (mode : EntryIdxMode) (w : sim_world) : State :=
  mkState (sim_db mode) w [].

(** A segment holding [entries] back to back from offset 0. *)
Fixpoint sim_segment (off : Z) (entries : list Entry) : sim_file :=
  match entries with
  | [] => []
  | e :: rest => (off, ReadEntry e) :: sim_segment (off + sim_Entry_Size e) rest
  end.

Definition sim_entry (b k v : string) (flag ds st tx : Z) : Entry :=
  mkEntry k v (mkMeta b flag ds st tx 0 0).

(** * Properties *)

(** ** The mode-compatibility check *)

Section CheckEntryIdxModeFacts.
Context `{Codec}.

Lemma checkEntryIdxMode_scan_flags (files : list string) :
  forall d b d' b',
    checkEntryIdxMode_scan files d b = (d', b') ->
    (d' = true <-> d = true \/ has_data_file files) /\
    (b' = true <-> b = true \/ has_bpt_dir files).
Proof.
  unfold has_data_file, has_bpt_dir.
  induction files as [|id rest IH]; intros d b d' b' Hscan; simpl in Hscan.
  - inversion Hscan; subst. split; split; intros Hx; auto.
    + destruct Hx as [?|(f & [] & _)]; auto.
    + destruct Hx as [?|[]]; auto.
  - destruct (String.eqb_spec (path_Ext (path_Base id)) DataSuffix) as [Hd|Hd].
    + destruct b.
      * inversion Hscan; subst. split; split; intros Hx; auto.
        right. exists id. split; [left|]; auto.
      * apply IH in Hscan. destruct Hscan as [Hd' Hb'].
        split.
        -- rewrite Hd'. split; intros _; [|left; reflexivity].
           right. exists id. split; [left|]; auto.
        -- rewrite Hb'. destruct (String.eqb_spec id bptDir) as [->|Hne].
           ++ split; intros _; [right; left|left]; reflexivity.
           ++ split; (intros [?|Hin]; [left; assumption|right]).
              ** right; assumption.
              ** destruct Hin as [?|?]; [congruence|assumption].
    + apply IH in Hscan. destruct Hscan as [Hd' Hb'].
      split.
      * rewrite Hd'. split; (intros [?|(f & Hin & Hf)]; [left; assumption|right]).
        -- exists f. split; [right|]; assumption.
        -- destruct Hin as [->|Hin]; [contradiction|]. exists f. split; assumption.
      * rewrite Hb'. destruct (String.eqb_spec id bptDir) as [->|Hne].
        -- split; intros _; [right; left|left]; reflexivity.
        -- split; (intros [?|Hin]; [left; assumption|right]).
           ++ right; assumption.
           ++ destruct Hin as [?|?]; [congruence|assumption].
Qed.

Lemma mode_eqb_eq (a b : EntryIdxMode) : mode_eqb a b = true <-> a = b.
Proof. destruct a, b; simpl; split; congruence. Qed.

(** C5.  On a directory listing, [checkEntryIdxMode] returns its first
    error exactly when a segment file and an entry named [bpt] are there
    and the mode is not sparse, its second (different) error exactly when
    a segment file is there, no [bpt] entry is, and the mode is sparse,
    and nil in every other case. *)
Theorem checkEntryIdxMode_exact (mode : EntryIdxMode) (files : list string) :
  err_downgrade <> err_upgrade /\
  (checkEntryIdxMode mode (inr files) = Some err_downgrade <->
     has_data_file files /\ has_bpt_dir files /\ mode <> HintBPTSparseIdxMode) /\
  (checkEntryIdxMode mode (inr files) = Some err_upgrade <->
     has_data_file files /\ ~ has_bpt_dir files /\ mode = HintBPTSparseIdxMode) /\
  (checkEntryIdxMode mode (inr files) = None <->
     ~ (has_data_file files /\ has_bpt_dir files /\ mode <> HintBPTSparseIdxMode) /\
     ~ (has_data_file files /\ ~ has_bpt_dir files /\ mode = HintBPTSparseIdxMode)).
Proof.
  assert (Hne : err_downgrade <> err_upgrade) by (unfold err_downgrade, err_upgrade; congruence).
  split; [exact Hne|].
  unfold checkEntryIdxMode.
  destruct (checkEntryIdxMode_scan files false false) as [d b] eqn:Hscan.
  apply checkEntryIdxMode_scan_flags in Hscan. destruct Hscan as [Hd Hb].
  assert (Hd' : d = true <-> has_data_file files)
    by (rewrite Hd; split; [intros [?|?]; [discriminate|assumption]|auto]).
  assert (Hb' : b = true <-> has_bpt_dir files)
    by (rewrite Hb; split; [intros [?|?]; [discriminate|assumption]|auto]).
  clear Hd Hb.
  pose proof (mode_eqb_eq mode HintBPTSparseIdxMode) as Hm.
  destruct (mode_eqb mode HintBPTSparseIdxMode), d, b; simpl;
    repeat split; intros; try congruence; try tauto;
    try (exfalso; intuition congruence); intuition congruence.
Qed.

End CheckEntryIdxModeFacts.

(** ** Recovery applies the committed records only *)

Section BuilderFacts.
Context `{Structures}.

(** A step that leaves the committed-transaction set alone. *)
Definition keeps_committed (f : step) : Prop :=
  forall db db' err, f db = Val (db', err) -> committedTxIds db' = committedTxIds db.

Lemma keeps_skip : keeps_committed skip.
Proof. intros db db' err Heq. inversion Heq. reflexivity. Qed.

Lemma keeps_and_then (f g : step) :
  keeps_committed f -> keeps_committed g -> keeps_committed (f >>> g).
Proof.
  intros Hf Hg db db' err Heq. unfold and_then in Heq.
  destruct (f db) as [[d1 [e1|]]| |] eqn:Hfd; try discriminate.
  - inversion Heq; subst. eapply Hf; eassumption.
  - rewrite (Hg _ _ _ Heq). eapply Hf; eassumption.
Qed.

Lemma keeps_when (c : bool) (f : step) : keeps_committed f -> keeps_committed (when c f).
Proof. destruct c; simpl; auto using keeps_skip. Qed.

Lemma keeps_on_set b op p : keeps_committed (on_set b op p).
Proof.
  intros db db' err Heq. unfold on_set in Heq.
  destruct (op _) as [s e]. inversion Heq. reflexivity.
Qed.

Lemma keeps_on_zset b op : keeps_committed (on_zset b op).
Proof. intros db db' err Heq. inversion Heq. reflexivity. Qed.

Lemma keeps_on_list b op : keeps_committed (on_list b op).
Proof.
  intros db db' err Heq. unfold on_list in Heq.
  destruct (op _) as [s e]. inversion Heq. reflexivity.
Qed.

Lemma keeps_buildBPTreeIdx b r : keeps_committed (buildBPTreeIdx b r).
Proof.
  intros db db' err Heq. unfold buildBPTreeIdx in Heq.
  destruct (BPTree_Insert _ _ _ _ _) as [t e]. inversion Heq. reflexivity.
Qed.

Lemma keeps_buildActiveBPTreeIdx r : keeps_committed (buildActiveBPTreeIdx r).
Proof.
  intros db db' err Heq. unfold buildActiveBPTreeIdx in Heq.
  destruct (BPTree_Insert _ _ _ _ _) as [t e]. inversion Heq. reflexivity.
Qed.

Lemma keeps_buildSetIdx b r : keeps_committed (buildSetIdx b r).
Proof.
  intros db db' err Heq. unfold buildSetIdx in Heq.
  destruct (E r) as [e|].
  - apply (keeps_and_then _ _ (keeps_when _ _ (keeps_on_set _ _ _))
             (keeps_when _ _ (keeps_on_set _ _ _))) in Heq.
    exact Heq.
  - inversion Heq. reflexivity.
Qed.

Lemma keeps_buildSortedSetIdx b r : keeps_committed (buildSortedSetIdx b r).
Proof.
  unfold buildSortedSetIdx.
  repeat apply keeps_and_then; try apply keeps_when; try apply keeps_on_zset.
  - intros db db' err Heq. inversion Heq. reflexivity.
  - intros db db' err Heq. destruct (E r) as [e|]; [|discriminate].
    destruct (strings_Split _ _) as [|k0 [|s [|]]];
      solve [inversion Heq; reflexivity | eapply keeps_on_zset; eassumption].
  - intros db db' err Heq. destruct (E r) as [e|]; [|discriminate].
    eapply keeps_on_zset; eassumption.
  - intros db db' err Heq. destruct (E r) as [e|]; [|discriminate].
    eapply keeps_on_zset; eassumption.
Qed.

Lemma keeps_buildListIdx b r : keeps_committed (buildListIdx b r).
Proof.
  intros db db' err Heq. unfold buildListIdx, index_or_crash in Heq.
  destruct (E r) as [e|]; [|inversion Heq; reflexivity].
  repeat match type of Heq with
         | (if ?c then _ else _) = _ => destruct c
         | match ?x with Some _ => _ | None => _ end = _ => destruct x; [|discriminate]
         end;
    solve [inversion Heq; reflexivity | apply keeps_on_list in Heq; exact Heq].
Qed.

Lemma keeps_buildOtherIdxes b r : keeps_committed (buildOtherIdxes b r).
Proof.
  unfold buildOtherIdxes.
  repeat apply keeps_and_then; apply keeps_when;
    [apply keeps_buildSetIdx | apply keeps_buildSortedSetIdx | apply keeps_buildListIdx].
Qed.

Lemma keeps_dispatch r : keeps_committed (dispatch r).
Proof.
  intros db db' err Heq. unfold dispatch in Heq.
  revert Heq. apply keeps_and_then; [|apply keeps_and_then].
  - apply keeps_when. destruct (is_sparse db);
      [apply keeps_buildActiveBPTreeIdx | apply keeps_buildBPTreeIdx].
  - apply keeps_buildOtherIdxes.
  - intros d d' e Heq. inversion Heq. reflexivity.
Qed.

(** The builders run on a list of records, one after the other. *)
Fixpoint dispatch_all (records : list Record_) : step :=
  match records with
  | [] => skip
  | r :: rest => dispatch r >>> dispatch_all rest
  end.

(** The records of committed transactions, in log order. *)
Definition committed_records (committed : gset Z) (records : list Record_)
  : list Record_ :=
  List.filter (fun r => bool_decide (txID (meta (H r)) ∈ committed)) records.

Lemma buildHintIdx_apply_committed (records : list Record_) :
  forall db,
    buildHintIdx_apply records db =
    dispatch_all (committed_records (committedTxIds db) records) db.
Proof.
  induction records as [|r rest IH]; intros db; simpl; [reflexivity|].
  unfold and_then at 1.
  destruct (decide (txID (meta (H r)) ∈ committedTxIds db)) as [Hin|Hout].
  - rewrite (bool_decide_eq_true_2 _ Hin). simpl. unfold and_then at 1.
    destruct (dispatch r db) as [[d1 [e1|]]| |] eqn:Hd; try reflexivity.
    rewrite IH. rewrite (keeps_dispatch r _ _ _ Hd). reflexivity.
  - rewrite (bool_decide_eq_false_2 _ Hout). apply IH.
Qed.

End BuilderFacts.

(** ** Records without a resident entry *)

Section NilEntry.
Context `{Structures}.

(** A record of pointer-only mode: [E] is nil. *)
Definition pointer_record (k : bytes) (fid : Z) (b : bytes)
    (flag dsv st tx ttl ts pos : Z) : Record_ :=
  mkRecord (mkHint k fid (mkMeta b flag dsv st tx ttl ts) pos) None.

Lemma buildSetIdx_nil_entry (bkt : string) (h : Hint) (db : DB) :
  buildSetIdx bkt (mkRecord h None) db =
  Val (set_SetIdx db (ensure set_New bkt (SetIdx db)), Some ErrEntryIdxModeOpt).
Proof. reflexivity. Qed.

Lemma buildListIdx_nil_entry (bkt : string) (h : Hint) (db : DB) :
  buildListIdx bkt (mkRecord h None) db =
  Val (set_ListIdx db (ensure list_New bkt (ListIdx db)), Some ErrEntryIdxModeOpt).
Proof. reflexivity. Qed.

Lemma and_then_no_ErrEntryIdxModeOpt (f g : step) :
  (forall db db', f db <> Val (db', Some ErrEntryIdxModeOpt)) ->
  (forall db db', g db <> Val (db', Some ErrEntryIdxModeOpt)) ->
  forall db db', (f >>> g) db <> Val (db', Some ErrEntryIdxModeOpt).
Proof.
  intros Hf Hg db db'. unfold and_then.
  destruct (f db) as [[d1 [e1|]]| |] eqn:Hfd; try discriminate.
  - rewrite <- Hfd. apply Hf.
  - apply Hg.
Qed.

Lemma when_no_ErrEntryIdxModeOpt (c : bool) (f : step) :
  (forall db db', f db <> Val (db', Some ErrEntryIdxModeOpt)) ->
  forall db db', when c f db <> Val (db', Some ErrEntryIdxModeOpt).
Proof. destruct c; simpl; auto; unfold skip; intros _ db db'; congruence. Qed.

Lemma on_zset_no_ErrEntryIdxModeOpt b op :
  forall db db', on_zset b op db <> Val (db', Some ErrEntryIdxModeOpt).
Proof. intros db db'. unfold on_zset. congruence. Qed.

(** C3.  The sorted-set builder on a record whose [E] is nil: with the
    zadd, zrem or zrem-range-by-rank flag it dereferences nil, with the
    zpop-max flag it pops from the index and returns nil, and with no flag
    at all does it return [ErrEntryIdxModeOpt]. *)
Theorem buildSortedSetIdx_nil_entry (bkt : string) (k : bytes) (fid : Z)
    (b : bytes) (dsv st tx ttl ts pos : Z) (db : DB) :
  let r := fun flag => pointer_record k fid b flag dsv st tx ttl ts pos in
  buildSortedSetIdx bkt (r DataZAddFlag) db = Crash /\
  buildSortedSetIdx bkt (r DataZRemFlag) db = Crash /\
  buildSortedSetIdx bkt (r DataZRemRangeByRankFlag) db = Crash /\
  buildSortedSetIdx bkt (r DataZPopMaxFlag) db =
    Val (set_SortedSetIdx db
           (<[bkt := zset_PopMax
                       (at_bucket zset_New bkt (ensure zset_New bkt (SortedSetIdx db)))]>
              (ensure zset_New bkt (SortedSetIdx db))),
         None) /\
  (forall flag db',
     buildSortedSetIdx bkt (r flag) db <> Val (db', Some ErrEntryIdxModeOpt)).
Proof.
  intros r. repeat split.
  intros flag db'. unfold buildSortedSetIdx.
  repeat apply and_then_no_ErrEntryIdxModeOpt;
    try apply when_no_ErrEntryIdxModeOpt;
    try apply on_zset_no_ErrEntryIdxModeOpt;
    intros d d'; simpl; congruence.
Qed.

(** ** Sorted-set records whose key or score does not parse *)



End NilEntry.

Definition unsplit_zadd_record : Record_ :=
  let m := mkMeta "S" DataZAddFlag DataStructureSortedSet Committed 1 0 0 in
  mkRecord (mkHint "apple" 0 m 0) (Some (mkEntry "apple" "A" m)).




(** ** What a run leaves in the log and in the database *)

Section EngineFacts.
Context `{Platform}.

(** [s'] comes after [s]: its log is the log of [s] followed by events
    that all satisfy [P]. *)
Definition extends (P : Event -> Prop) (s s' : State) : Prop :=
  exists evs, st_log s' = (st_log s ++ evs)%list /\ Forall P evs.

Lemma extends_refl P s : extends P s s.
Proof. exists []. split; [symmetry; apply app_nil_r|constructor]. Qed.

Lemma extends_trans P s1 s2 s3 : extends P s1 s2 -> extends P s2 s3 -> extends P s1 s3.
Proof.
  intros (e1 & L1 & F1) (e2 & L2 & F2). exists (e1 ++ e2)%list. split.
  - rewrite L2, L1. symmetry. apply app_assoc.
  - apply Forall_app. split; assumption.
Qed.

Lemma extends_one P s s' ev :
  st_log s' = (st_log s ++ [ev])%list -> P ev -> extends P s s'.
Proof. intros L Pev. exists [ev]. split; [exact L|]. constructor; [exact Pev|constructor]. Qed.

Lemma extends_with_db P s s' f : extends P s s' -> extends P s (with_db s' f).
Proof. intros (e & L & F). exists e. split; assumption. Qed.

Lemma call_NewDataFile_spec path c m s r s' :
  call_NewDataFile path c m s = (r, s') ->
  st_db s' = st_db s /\ st_log s' = (st_log s ++ [EvNewDataFile path])%list.
Proof.
  unfold call_NewDataFile. destruct (NewDataFile _ _ _ _) as [r0 w].
  intros Heq. inversion Heq; subst. split; reflexivity.
Qed.

Lemma call_Remove_spec path s r s' :
  call_Remove path s = (r, s') ->
  st_db s' = st_db s /\ st_log s' = (st_log s ++ [EvRemove path])%list.
Proof.
  unfold call_Remove. destruct (os_Remove _ _) as [r0 w].
  intros Heq. inversion Heq; subst. split; reflexivity.
Qed.

Lemma lift_tx_spec {A} (op : DB * World -> A * (DB * World)) ev s r s' :
  lift_tx op ev s = (r, s') ->
  st_log s' = (st_log s ++ [ev])%list /\
  op (st_db s, st_world s) = (r, (st_db s', st_world s')).
Proof.
  unfold lift_tx. destruct (op _) as [r0 [d w]].
  intros Heq. inversion Heq; subst. split; reflexivity.
Qed.

(** The event of the [tx.put] that [reWriteData] makes for an entry. *)
Definition put_of (e : Entry) : Event :=
  EvPut (bucket (Meta e)) (Key e) (Value e) (TTL (Meta e)) (Flag (Meta e))
    (timestamp (Meta e)) (ds (Meta e)).

Lemma res_bind_Val {A B} (m : res A) (k : A -> res B) (b : B) :
  res_bind m k = Val b -> exists a, m = Val a /\ k a = Val b.
Proof. destruct m; simpl; try discriminate. intros Hk. exists a. split; auto. Qed.

Ltac open_stage Hs :=
  repeat match type of Hs with
         | (if ?c then _ else _) = Val _ => destruct c
         | res_bind _ _ = Val _ =>
             let a := fresh "a" in
             let Ha := fresh "Ha" in
             apply res_bind_Val in Hs as (a & Ha & Hs)
         | match ?x with inl _ => _ | inr _ => _ end = Val _ => destruct x
         | match ?x with [] => _ | _ :: _ => _ end = Val _ => destruct x
         end.

Lemma getPendingMergeEntries_Forall (Q : Entry -> Prop) d entry pending pending' :
  Forall Q pending -> Q entry ->
  getPendingMergeEntries d entry pending = Val pending' ->
  Forall Q pending'.
Proof.
  intros Hp He.
  assert (Hadd : forall l, Forall Q l -> Forall Q (l ++ [entry])%list).
  { intros l Hl. apply Forall_app. split; [exact Hl|]. constructor; [exact He|constructor]. }
  unfold getPendingMergeEntries. intros Heq.
  apply res_bind_Val in Heq as (p1 & S1 & Heq).
  apply res_bind_Val in Heq as (p2 & S2 & Heq).
  apply res_bind_Val in Heq as (p3 & S3 & Heq).
  assert (F1 : Forall Q p1) by (open_stage S1; inversion S1; subst; auto).
  assert (F2 : Forall Q p2) by (open_stage S2; inversion S2; subst; auto).
  assert (F3 : Forall Q p3) by (open_stage S3; inversion S3; subst; auto).
  open_stage Heq; inversion Heq; subst; auto.
Qed.

End EngineFacts.

(** ** An invariant of the merge loop *)

(** The transaction layer keeps a property of the [DB] struct. *)
Definition tx_keeps `{Platform} (Inv : DB -> Prop) : Prop :=
  (forall b d w, Inv d -> Inv (fst (snd (db_Begin b (d, w))))) /\
  (forall tx b k v ttl f ts dsv d w,
     Inv d -> Inv (fst (snd (tx_put tx b k v ttl f ts dsv (d, w))))) /\
  (forall tx d w, Inv d -> Inv (fst (snd (tx_Commit tx (d, w))))) /\
  (forall tx d w, Inv d -> Inv (fst (snd (tx_Rollback tx (d, w))))).

Section MergeInvariant.
Context `{Platform}.
Variable Inv : DB -> Prop.
Variable P : Event -> Prop.
Variable okid : Z -> Prop.

Hypothesis Htx : tx_keeps Inv.
Hypothesis Hactive : forall d f, Inv d -> Inv (set_ActiveFile d f).
Hypothesis Hmax : forall d m, Inv d -> Inv (set_MaxFileID d m).
Hypothesis HP_new : forall p, P (EvNewDataFile p).
Hypothesis HP_close : forall p, P (EvClose p).
Hypothesis HP_begin : forall b, P (EvBegin b).
Hypothesis HP_commit : P EvCommit.
Hypothesis HP_rollback : P EvRollback.
Hypothesis HP_put : forall e, isFilterEntry e = false -> P (put_of e).
Hypothesis HP_read :
  forall d id off, Inv d -> okid id -> P (EvReadAt (getDataPath d id) off).
Hypothesis HP_remove :
  forall d id, Inv d -> okid id -> P (EvRemove (getDataPath d id)).

Lemma lift_tx_inv {A} (op : DB * World -> A * (DB * World)) ev s r s' :
  (forall d w, Inv d -> Inv (fst (snd (op (d, w))))) ->
  P ev -> Inv (st_db s) ->
  lift_tx op ev s = (r, s') ->
  extends P s s' /\ Inv (st_db s').
Proof.
  intros Hop Pev Hi Heq. apply lift_tx_spec in Heq as [L Hopeq].
  split; [eapply extends_one; eassumption|].
  specialize (Hop _ (st_world s) Hi). rewrite Hopeq in Hop. exact Hop.
Qed.

Lemma reWriteData_puts_inv tx entries :
  forall s err s',
    Inv (st_db s) ->
    Forall (fun e => isFilterEntry e = false) entries ->
    reWriteData_puts tx entries s = (err, s') ->
    extends P s s' /\ (err = None -> Inv (st_db s')).
Proof.
  destruct Htx as (_ & Hput & _ & Hrb).
  induction entries as [|e rest IH]; intros s err s' Hi Hun Heq; simpl in Heq.
  - inversion Heq; subst. split; [apply extends_refl|auto].
  - inversion Hun as [|? ? He Hrest]; subst.
    destruct (call_put _ _ _ _ _ _ _ _ s) as [[e1|] s1] eqn:Hp.
    + apply (lift_tx_inv _ _ _ _ _ (Hput _ _ _ _ _ _ _ _) (HP_put _ He) Hi) in Hp
        as [X1 I1].
      destruct (call_Rollback tx s1) as [r2 s2] eqn:Hr.
      apply (lift_tx_inv _ _ _ _ _ (Hrb _) HP_rollback I1) in Hr as [X2 I2].
      inversion Heq; subst. split; [|discriminate].
      apply extends_with_db. eapply extends_trans; eassumption.
    + apply (lift_tx_inv _ _ _ _ _ (Hput _ _ _ _ _ _ _ _) (HP_put _ He) Hi) in Hp
        as [X1 I1].
      destruct (IH _ _ _ I1 Hrest Heq) as [X2 I2].
      split; [eapply extends_trans; eassumption|exact I2].
Qed.

Lemma reWriteData_inv entries s err s' :
  Inv (st_db s) ->
  Forall (fun e => isFilterEntry e = false) entries ->
  reWriteData entries s = (err, s') ->
  extends P s s' /\ (err = None -> Inv (st_db s')).
Proof.
  destruct Htx as (Hbegin & _ & Hcommit & _).
  intros Hi Hun Heq. unfold reWriteData in Heq.
  destruct (call_Begin true s) as [[e1|tx] s1] eqn:Hb;
    apply (lift_tx_inv _ _ _ _ _ (Hbegin _) (HP_begin _) Hi) in Hb as [X1 I1].
  - inversion Heq; subst. split; [|discriminate]. apply extends_with_db. exact X1.
  - destruct (call_NewDataFile _ _ _ s1) as [[e2|dataFile] s2] eqn:Hn;
      apply call_NewDataFile_spec in Hn as [D2 L2];
      pose proof (extends_one P _ _ _ L2 (HP_new _)) as X2.
    + inversion Heq; subst. split; [|discriminate].
      apply extends_with_db. eapply extends_trans; eassumption.
    + match type of Heq with
      | match reWriteData_puts _ _ ?s3 with _ => _ end = _ =>
          destruct (reWriteData_puts tx entries s3) as [[e3|] s4] eqn:Hputs;
          apply reWriteData_puts_inv in Hputs as [X3 I3];
          [ | | exact Hun | | | exact Hun]
      end.
      * inversion Heq; subst. split; [|discriminate].
        eapply extends_trans; [exact X1|]. eapply extends_trans; [exact X2|].
        destruct X3 as (evs & L3 & F3). exists evs. split; assumption.
      * simpl. apply Hmax. apply Hactive. rewrite D2. exact I1.
      * destruct (call_Commit tx s4) as [r5 s5] eqn:Hc.
        apply (lift_tx_inv _ _ _ _ _ (Hcommit _) HP_commit (I3 eq_refl)) in Hc
          as [X5 I5].
        inversion Heq; subst. split; [|intros _; exact I5].
        eapply extends_trans; [exact X1|]. eapply extends_trans; [exact X2|].
        eapply extends_trans; [|exact X5].
        destruct X3 as (evs & L3 & F3). exists evs. split; assumption.
      * simpl. apply Hmax. apply Hactive. rewrite D2. exact I1.
Qed.

Lemma Merge_scan_inv fuel path f :
  (forall off, P (EvReadAt path off)) ->
  forall off pending s ex s',
    Forall (fun e => isFilterEntry e = false) pending ->
    Merge_scan fuel path f off pending s = Val (ex, s') ->
    extends P s s' /\ st_db s' = st_db s /\
    match ex with
    | Break pending' => Forall (fun e => isFilterEntry e = false) pending'
    | Return _ => True
    end.
Proof.
  intros Hread.
  induction fuel as [|fuel IH]; intros off pending s ex s' Hun Heq; [discriminate|].
  simpl in Heq.
  assert (X0 : extends P s (logged s (EvReadAt path off)))
    by (eapply extends_one; [reflexivity|apply Hread]).
  destruct (DataFile_ReadAt f off (st_world s)) as [entry| |err].
  - destruct (isFilterEntry entry) eqn:Hf.
    + destruct (_ >=? _).
      * inversion Heq; subst. repeat split; assumption.
      * apply IH in Heq as (X1 & D1 & R1); [|exact Hun].
        split; [eapply extends_trans; eassumption|]. split; assumption.
    + apply res_bind_Val in Heq as (pending1 & Hg & Heq).
      apply (getPendingMergeEntries_Forall _ _ _ _ _ Hun Hf) in Hg.
      destruct (_ >=? _).
      * inversion Heq; subst. repeat split; assumption.
      * apply IH in Heq as (X1 & D1 & R1); [|exact Hg].
        split; [eapply extends_trans; eassumption|]. split; assumption.
  - inversion Heq; subst. repeat split; assumption.
  - destruct err; inversion Heq; subst;
      solve [ repeat split; assumption
            | split; [|split; [reflexivity|exact Logic.I]];
              eapply extends_trans; [exact X0|];
              eapply extends_one; [reflexivity|apply HP_close] ].
Qed.

Lemma Merge_loop_inv fuel ids :
  forall s err s',
    Inv (st_db s) ->
    Forall okid ids ->
    Merge_loop fuel ids s = Val (err, s') ->
    extends P s s' /\ (err = None -> Inv (st_db s')).
Proof.
  induction ids as [|id rest IH]; intros s err s' Hi Hok Heq; simpl in Heq.
  - inversion Heq; subst. split; [apply extends_refl|auto].
  - inversion Hok as [|? ? Hid Hrest]; subst.
    destruct (call_NewDataFile _ _ _ s) as [[e1|f] s1] eqn:Hn;
      apply call_NewDataFile_spec in Hn as [D1 L1];
      pose proof (extends_one P _ _ _ L1 (HP_new _)) as X1.
    + inversion Heq; subst. split; [|discriminate]. apply extends_with_db. exact X1.
    + apply res_bind_Val in Heq as ([ex s2] & Hscan & Heq).
      apply Merge_scan_inv in Hscan as (X2 & D2 & R2);
        [|intros off; apply HP_read; assumption|constructor].
      assert (X12 : extends P s s2) by (eapply extends_trans; eassumption).
      destruct ex as [pending|err0].
      * destruct (reWriteData pending s2) as [[e3|] s3] eqn:Hrw;
          apply reWriteData_inv in Hrw as [X3 I3];
          try exact R2; try (rewrite D2, D1; exact Hi).
        -- inversion Heq; subst. split; [|discriminate].
           eapply extends_trans; [exact X12|]. eapply extends_trans; [exact X3|].
           eapply extends_one; [reflexivity|apply HP_close].
        -- specialize (I3 eq_refl).
           destruct (call_Remove _ s3) as [[e4|] s4] eqn:Hrm;
             apply call_Remove_spec in Hrm as [D4 L4];
             pose proof (extends_one P _ _ _ L4 (HP_remove _ _ I3 Hid)) as X4.
           ++ inversion Heq; subst. split; [|discriminate].
              eapply extends_trans; [exact X12|]. eapply extends_trans; [exact X3|].
              eapply extends_trans; [exact X4|].
              eapply extends_one; [reflexivity|apply HP_close].
           ++ apply IH in Heq as [X5 I5]; [| simpl; rewrite D4; exact I3 | exact Hrest].
              split; [|exact I5].
              eapply extends_trans; [exact X12|]. eapply extends_trans; [exact X3|].
              eapply extends_trans; [exact X4|].
              eapply extends_trans; [|exact X5].
              eapply extends_one; [reflexivity|apply HP_close].
      * inversion Heq; subst. split; [exact X12|discriminate].
Qed.

End MergeInvariant.

(** ** Merge *)

Section MergeFacts.
Context `{Platform}.

(** The opcodes whose records merge drops. *)
Definition destructive (flag : Z) : Prop :=
  flag = DataDeleteFlag \/ flag = DataRPopFlag \/ flag = DataLPopFlag \/
  flag = DataLRemFlag \/ flag = DataLTrimFlag \/ flag = DataZRemFlag \/
  flag = DataZRemRangeByRankFlag \/ flag = DataZPopMaxFlag \/
  flag = DataZPopMinFlag.

Lemma isFilterEntry_spec (e : Entry) :
  isFilterEntry e = true <->
  destructive (Flag (Meta e)) \/ IsExpired (TTL (Meta e)) (timestamp (Meta e)) = true.
Proof.
  unfold isFilterEntry, destructive.
  rewrite !orb_true_iff, !Z.eqb_eq. tauto.
Qed.

(** A [tx.put] of the log carries neither a destructive opcode nor an
    expired [(ttl, timestamp)]. *)
Definition live_put (ev : Event) : Prop :=
  match ev with
  | EvPut _ _ _ ttl flag ts _ => ~ destructive flag /\ IsExpired ttl ts = false
  | _ => True
  end.

Lemma live_put_of (e : Entry) : isFilterEntry e = false -> live_put (put_of e).
Proof.
  intros Hf. simpl.
  destruct (IsExpired (TTL (Meta e)) (timestamp (Meta e))) eqn:Hx.
  - assert (isFilterEntry e = true) by (apply isFilterEntry_spec; auto). congruence.
  - split; [|reflexivity]. intros Hd.
    assert (isFilterEntry e = true) by (apply isFilterEntry_spec; auto). congruence.
Qed.

Lemma tx_keeps_True : tx_keeps (fun _ => True).
Proof. repeat split. Qed.

Lemma Merge_unfold fuel s err s' :
  Merge fuel s = Val (err, s') ->
  (is_sparse (st_db s) = true /\ err <> None /\ s' = s) \/
  (is_sparse (st_db s) = false /\ err <> None /\
   s' = with_db s (fun d => set_isMerging d false)) \/
  (is_sparse (st_db s) = false /\
   (2 <= length (snd (getMaxFileIDAndFileIDs s)))%nat /\
   Merge_loop fuel (snd (getMaxFileIDAndFileIDs s))
     (with_db s (fun d => set_isMerging d true)) = Val (err, s')).
Proof.
  unfold Merge. destruct (is_sparse (st_db s)) eqn:Hs.
  - intros Heq. inversion Heq. left. repeat split; congruence.
  - change (getMaxFileIDAndFileIDs (with_db s (fun d => set_isMerging d true)))
      with (getMaxFileIDAndFileIDs s).
    destruct (getMaxFileIDAndFileIDs s) as [mx ids]. simpl.
    destruct (Nat.ltb_spec (length ids) 2) as [Hlt|Hge]; intros Heq.
    + inversion Heq. right. left. repeat split; congruence.
    + right. right. auto.
Qed.

(** C4.  [isFilterEntry] holds exactly of the records with a destructive
    opcode or an expired [(ttl, timestamp)] (so not of a live list-set
    record), and no [tx.put] that a run of [Merge] makes carries such a
    record. *)
Theorem Merge_skips_filtered_records (fuel : nat) (s : State)
    (err : option error) (s' : State) :
  Merge fuel s = Val (err, s') ->
  (forall e, isFilterEntry e = true <->
             destructive (Flag (Meta e)) \/
             IsExpired (TTL (Meta e)) (timestamp (Meta e)) = true) /\
  (forall e, Flag (Meta e) = DataLSetFlag ->
             isFilterEntry e = IsExpired (TTL (Meta e)) (timestamp (Meta e))) /\
  extends live_put s s'.
Proof.
  intros Hm. split; [exact isFilterEntry_spec|]. split.
  - intros e Hf. unfold isFilterEntry. rewrite Hf. reflexivity.
  - apply Merge_unfold in Hm as [(_ & _ & ->)|[(_ & _ & ->)|(_ & _ & Hloop)]].
    + apply extends_refl.
    + apply extends_with_db, extends_refl.
    + apply (Merge_loop_inv (fun _ => True) live_put (fun _ => True)) in Hloop;
        try (intros; exact Logic.I); try exact tx_keeps_True;
        try exact live_put_of; try exact Logic.I.
      * destruct Hloop as [(evs & L & F) _]. exists evs. split; assumption.
      * apply Forall_forall. intros; exact Logic.I.
Qed.

(** C6.  In sparse mode, and with fewer than two segment files listed,
    [Merge] returns an error; the directory and its files are as before,
    and no call on a data file or a transaction was made. *)
Theorem Merge_rejects_without_touching_files (fuel : nat) (s : State) :
  is_sparse (st_db s) = true \/
  (length (snd (getMaxFileIDAndFileIDs s)) < 2)%nat ->
  exists err s',
    Merge fuel s = Val (Some err, s') /\
    st_world s' = st_world s /\
    st_log s' = st_log s /\
    getMaxFileIDAndFileIDs s' = getMaxFileIDAndFileIDs s.
Proof.
  intros Hpre. unfold Merge.
  destruct (is_sparse (st_db s)) eqn:Hs.
  - eexists. exists s. repeat split.
  - destruct Hpre as [Hd|Hlen]; [discriminate|].
    change (getMaxFileIDAndFileIDs (with_db s (fun d => set_isMerging d true)))
      with (getMaxFileIDAndFileIDs s).
    destruct (getMaxFileIDAndFileIDs s) as [mx ids] eqn:Hg. simpl in Hlen |- *.
    apply Nat.ltb_lt in Hlen. rewrite Hlen.
    eexists. eexists. split; [reflexivity|]. repeat split. exact Hg.
Qed.

(** C9.  When the transaction layer leaves [isMerging] alone, a run of
    [Merge] that returns nil ends with [isMerging] still true.  With fewer
    than two segment files the flag is reset to false; on a read error
    that is not EOF the error is returned with the flag left true. *)
Theorem Merge_success_leaves_isMerging_set (fuel : nat) (s : State) :
  tx_keeps (fun d => isMerging d = true) ->
  (forall s', Merge fuel s = Val (None, s') -> isMerging (st_db s') = true) /\
  (is_sparse (st_db s) = false ->
   (length (snd (getMaxFileIDAndFileIDs s)) < 2)%nat ->
   exists err s', Merge fuel s = Val (Some err, s') /\ isMerging (st_db s') = false) /\
  (forall id rest f s1 err,
     is_sparse (st_db s) = false ->
     snd (getMaxFileIDAndFileIDs s) = id :: rest ->
     rest <> [] ->
     call_NewDataFile (getDataPath (st_db s) id) (SegmentSize (opt (st_db s)))
       (RWMode (opt (st_db s))) (with_db s (fun d => set_isMerging d true))
       = (inr f, s1) ->
     DataFile_ReadAt f 0 (st_world s1) = ReadErr err ->
     err <> io_EOF ->
     exists s',
       Merge (S fuel) s =
         Val (Some (fmt_Errorf "when merge operation build hintIndex readAt err: " err),
              s') /\
       isMerging (st_db s') = true).
Proof.
  intros Htx. split; [|split].
  - intros s' Hm.
    apply Merge_unfold in Hm as [(_ & Hne & _)|[(_ & Hne & _)|(_ & _ & Hloop)]];
      try congruence.
    apply (Merge_loop_inv (fun d => isMerging d = true) (fun _ => True) (fun _ => True))
      in Hloop; try (intros; exact Logic.I); auto.
    + destruct Hloop as [_ Hi]. apply Hi. reflexivity.
    + apply List.Forall_forall. intros; exact Logic.I.
  - intros Hs Hlen. unfold Merge. rewrite Hs.
    change (getMaxFileIDAndFileIDs (with_db s (fun d => set_isMerging d true)))
      with (getMaxFileIDAndFileIDs s).
    destruct (getMaxFileIDAndFileIDs s) as [mx ids]. simpl in Hlen |- *.
    apply Nat.ltb_lt in Hlen. rewrite Hlen.
    eexists. eexists. split; reflexivity.
  - intros id rest f s1 err Hs Hids Hrest Hn Hr Hne. unfold Merge. rewrite Hs.
    change (getMaxFileIDAndFileIDs (with_db s (fun d => set_isMerging d true)))
      with (getMaxFileIDAndFileIDs s).
    destruct (getMaxFileIDAndFileIDs s) as [mx ids]. simpl in Hids. subst ids.
    destruct rest as [|id2 rest]; [congruence|].
    cbn [length Nat.ltb Nat.leb]. cbn [Merge_loop].
    change (st_db (with_db s (fun d => set_isMerging d true)))
      with (set_isMerging (st_db s) true).
    change (opt (set_isMerging (st_db s) true)) with (opt (st_db s)).
    change (getDataPath (set_isMerging (st_db s) true) id)
      with (getDataPath (st_db s) id).
    rewrite Hn. cbn [Merge_scan call_ReadAt]. rewrite Hr.
    pose proof (call_NewDataFile_spec _ _ _ _ _ _ Hn) as [D1 _].
    destruct err; try congruence;
      (eexists; split; [reflexivity|]; simpl; rewrite D1; reflexivity).
Qed.

End MergeFacts.

(** ** Which files the merge loop works on *)

Section MergeFiles.
Context `{Platform}.

Lemma getDataPath_opt (d d' : DB) (id : Z) :
  opt d' = opt d -> getDataPath d' id = getDataPath d id.
Proof. intros Ho. unfold getDataPath. rewrite Ho. reflexivity. Qed.

Lemma In_extends P s s' ev : extends P s s' -> In ev (st_log s) -> In ev (st_log s').
Proof. intros (evs & L & _) Hin. rewrite L. apply in_or_app. left. exact Hin. Qed.

Lemma In_logged s ev : In ev (st_log (logged s ev)).
Proof. simpl. apply in_or_app. right. left. reflexivity. Qed.

Let any_event : Event -> Prop := fun _ => True.

Lemma Merge_scan_reads_first fuel path f off pending s ex s' :
  Merge_scan fuel path f off pending s = Val (ex, s') ->
  In (EvReadAt path off) (st_log s').
Proof.
  destruct fuel as [|fuel]; [discriminate|]. simpl. intros Heq.
  assert (Hgen : forall n off1 p1 ex1 s0 s1,
             In (EvReadAt path off) (st_log s0) ->
             Merge_scan n path f off1 p1 s0 = Val (ex1, s1) ->
             In (EvReadAt path off) (st_log s1)).
  { induction n as [|n IHn]; intros off1 p1 ex1 s0 s1 Hin Hs; [discriminate|].
    simpl in Hs.
    assert (Hin' : In (EvReadAt path off) (st_log (logged s0 (EvReadAt path off1))))
      by (simpl; apply in_or_app; left; exact Hin).
    destruct (DataFile_ReadAt f off1 (st_world s0)) as [entry| |e0].
    - destruct (isFilterEntry entry).
      + destruct (_ >=? _); [inversion Hs; subst; exact Hin'|].
        eapply IHn; eassumption.
      + apply res_bind_Val in Hs as (p2 & _ & Hs).
        destruct (_ >=? _); [inversion Hs; subst; exact Hin'|].
        eapply IHn; eassumption.
    - inversion Hs; subst. exact Hin'.
    - destruct e0; inversion Hs; subst; try exact Hin';
        simpl; apply in_or_app; left; exact Hin'. }
  destruct (DataFile_ReadAt f off (st_world s)) as [entry| |e0].
  - destruct (isFilterEntry entry).
    + destruct (_ >=? _); [inversion Heq; subst; apply In_logged|].
      eapply Hgen; [apply In_logged|eassumption].
    + apply res_bind_Val in Heq as (p2 & _ & Heq).
      destruct (_ >=? _); [inversion Heq; subst; apply In_logged|].
      eapply Hgen; [apply In_logged|eassumption].
  - inversion Heq; subst. apply In_logged.
  - destruct e0; inversion Heq; subst; try apply In_logged;
      simpl; apply in_or_app; left; apply In_logged.
Qed.

Section FixedOptions.
Variable o : Options.
Hypothesis Htx : tx_keeps (fun d => opt d = o).

Lemma Merge_loop_frame fuel ids s err s' :
  opt (st_db s) = o ->
  Merge_loop fuel ids s = Val (err, s') ->
  extends any_event s s' /\ (err = None -> opt (st_db s') = o).
Proof.
  intros Ho Hloop.
  apply (Merge_loop_inv (fun d => opt d = o) any_event (fun _ => True)) in Hloop;
    try (intros; exact Logic.I); auto.
  apply Forall_forall. intros; exact Logic.I.
Qed.

Lemma Merge_loop_removes_all fuel ids :
  forall s s',
    opt (st_db s) = o ->
    Merge_loop fuel ids s = Val (None, s') ->
    forall id, In id ids ->
      In (EvReadAt (getDataPath (st_db s) id) 0) (st_log s') /\
      In (EvRemove (getDataPath (st_db s) id)) (st_log s').
Proof.
  induction ids as [|id0 rest IH]; intros s s' Ho Hloop id Hin; [destruct Hin|].
  simpl in Hloop.
  destruct (call_NewDataFile _ _ _ s) as [[e1|f] s1] eqn:Hn; [discriminate|].
  apply call_NewDataFile_spec in Hn as [D1 L1].
  apply res_bind_Val in Hloop as ([ex s2] & Hscan & Hloop).
  pose proof (Merge_scan_reads_first _ _ _ _ _ _ _ _ Hscan) as Hread.
  apply (Merge_scan_inv any_event (fun _ => Logic.I) fuel _ f (fun _ => Logic.I)) in Hscan
    as (_ & D2 & R2); [|constructor].
  destruct ex as [pending|err0]; [|discriminate].
  destruct (reWriteData pending s2) as [[e3|] s3] eqn:Hrw; [discriminate|].
  apply (reWriteData_inv (fun d => opt d = o) any_event) in Hrw as [X3 I3];
    try (intros; exact Logic.I); auto; [|rewrite D2, D1; exact Ho].
  specialize (I3 eq_refl).
  destruct (call_Remove _ s3) as [[e4|] s4] eqn:Hrm; [discriminate|].
  apply call_Remove_spec in Hrm as [D4 L4].
  assert (O5 : opt (st_db (call_Close (getDataPath (st_db s) id0) f s4)) = o)
    by (simpl; rewrite D4; exact I3).
  pose proof (Merge_loop_frame _ _ _ _ _ O5 Hloop) as [X5 _].
  assert (P3 : getDataPath (st_db s3) id0 = getDataPath (st_db s) id0)
    by (apply getDataPath_opt; congruence).
  destruct Hin as [<-|Hin].
  - split.
    + eapply In_extends; [exact X5|]. simpl. apply in_or_app. left.
      rewrite L4. apply in_or_app. left.
      eapply In_extends; [exact X3|exact Hread].
    + eapply In_extends; [exact X5|]. simpl. apply in_or_app. left.
      rewrite L4, P3. apply in_or_app. right. left. reflexivity.
  - destruct (IH _ _ O5 Hloop id Hin) as [R W].
    assert (P5 : getDataPath (st_db (call_Close (getDataPath (st_db s) id0) f s4)) id
                 = getDataPath (st_db s) id)
      by (apply getDataPath_opt; congruence).
    rewrite P5 in R, W. split; assumption.
Qed.

End FixedOptions.

(** A read or a removal of the log is of a file of [paths]. *)
Definition listed_event (paths : list string) (ev : Event) : Prop :=
  match ev with
  | EvReadAt p _ => In p paths
  | EvRemove p => In p paths
  | _ => True
  end.

Lemma last_In (l : list Z) (d : Z) : l <> [] -> In (List.last l d) l.
Proof.
  induction l as [|x [|y l'] IH]; intros Hne; [congruence|left; reflexivity|].
  right. apply IH. discriminate.
Qed.

Lemma getMaxFileIDAndFileIDs_max_listed (s : State) :
  snd (getMaxFileIDAndFileIDs s) <> [] ->
  In (fst (getMaxFileIDAndFileIDs s)) (snd (getMaxFileIDAndFileIDs s)).
Proof.
  unfold getMaxFileIDAndFileIDs.
  destruct (match ioutil_ReadDir _ _ with inl _ => [] | inr files => files end)
    as [|f0 files]; [simpl; congruence|].
  destruct (collect_dataFileIds (f0 :: files) []) as [|i0 ids];
    [simpl; congruence|].
  cbv beta iota. unfold fst, snd. apply last_In.
Qed.

(** C2, amended.  The loop of [Merge] works on every segment file listed
    when [Merge] starts, the highest-numbered one included: a read or a
    removal that a run makes is of a listed file, so a file that is not
    listed (a newer one) is neither read nor removed; the highest id is
    listed; and a run that returns nil has read and removed each listed
    file.  The transaction layer is taken not to change the options. *)
Theorem Merge_works_on_every_listed_file (fuel : nat) (s : State)
    (err : option error) (s' : State) :
  tx_keeps (fun d => opt d = opt (st_db s)) ->
  Merge fuel s = Val (err, s') ->
  extends
    (listed_event (map (getDataPath (st_db s)) (snd (getMaxFileIDAndFileIDs s))))
    s s' /\
  (snd (getMaxFileIDAndFileIDs s) <> [] ->
   In (fst (getMaxFileIDAndFileIDs s)) (snd (getMaxFileIDAndFileIDs s))) /\
  (err = None ->
   forall id, In id (snd (getMaxFileIDAndFileIDs s)) ->
     In (EvReadAt (getDataPath (st_db s) id) 0) (st_log s') /\
     In (EvRemove (getDataPath (st_db s) id)) (st_log s')).
Proof.
  intros Htx Hm. split; [|split; [apply getMaxFileIDAndFileIDs_max_listed|]].
  - apply Merge_unfold in Hm as [(_ & _ & ->)|[(_ & _ & ->)|(_ & _ & Hloop)]].
    + apply extends_refl.
    + apply extends_with_db, extends_refl.
    + set (ids := snd (getMaxFileIDAndFileIDs s)) in *.
      apply (Merge_loop_inv (fun d => opt d = opt (st_db s))
               (listed_event (map (getDataPath (st_db s)) ids))
               (fun id => In id ids)) in Hloop;
        try (intros; exact Logic.I); auto.
      * destruct Hloop as [(evs & L & F) _]. exists evs. split; assumption.
      * intros d id off Hd Hid. simpl. rewrite (getDataPath_opt _ _ _ Hd).
        apply in_map. exact Hid.
      * intros d id Hd Hid. simpl. rewrite (getDataPath_opt _ _ _ Hd).
        apply in_map. exact Hid.
      * apply List.Forall_forall. auto.
  - intros -> id Hid.
    apply Merge_unfold in Hm as [(_ & Hne & _)|[(_ & Hne & _)|(_ & _ & Hloop)]];
      try congruence.
    exact (Merge_loop_removes_all _ Htx _ _
             (with_db s (fun d => set_isMerging d true)) _ eq_refl Hloop id Hid).
Qed.

End MergeFiles.

(** ** Recovery *)

Section RecoveryFacts.
Context `{Platform}.

(** [buildHintIdx] with its loop replaced by the builders run on the
    records of committed transactions only. *)
Definition buildHintIdx_committed_only (fuel : nat) (dataFileIds : list Z)
    (s : State) : res (option error * State) :=
  res_bind (parseDataFiles fuel dataFileIds s) (fun '((unconfirmedRecords, committedTxIds, err), s) =>
    let s := with_db s (fun d => set_committedTxIds d committedTxIds) in
    match err with
    | Some err => Val (Some err, s)
    | None =>
        match unconfirmedRecords with
        | [] => Val (None, s)
        | _ =>
            res_bind
              (dispatch_all (committed_records committedTxIds unconfirmedRecords)
                 (st_db s))
              (fun '(d, err) =>
                 let s := with_db s (fun _ => d) in
                 match err with
                 | Some err => Val (Some err, s)
                 | None =>
                     if is_sparse (st_db s)
                     then buildBPTreeRootIdxes fuel dataFileIds s
                     else Val (None, s)
                 end)
        end
    end).

(** C1.  Recovery hands to the builders the records whose [txID] is in the
    committed-transaction set, and no other: [buildHintIdx] is
    [buildHintIdx] run on the committed records alone, and its loop leaves
    the database as it is on records that are all uncommitted. *)
Theorem buildHintIdx_applies_committed_only (fuel : nat) (dataFileIds : list Z)
    (s : State) :
  buildHintIdx fuel dataFileIds s = buildHintIdx_committed_only fuel dataFileIds s /\
  (forall records db,
     Forall (fun r => txID (meta (H r)) ∉ committedTxIds db) records ->
     buildHintIdx_apply records db = Val (db, None)).
Proof.
  split.
  - unfold buildHintIdx, buildHintIdx_committed_only.
    destruct (parseDataFiles fuel dataFileIds s) as [[[[recs c] err] s1]| |];
      simpl; try reflexivity.
    destruct err as [err|]; [reflexivity|].
    destruct recs as [|r rest]; [reflexivity|].
    rewrite buildHintIdx_apply_committed. reflexivity.
  - intros records db Hall. rewrite buildHintIdx_apply_committed.
    replace (committed_records (committedTxIds db) records) with (@nil Record_);
      [reflexivity|].
    induction Hall as [|r rest Hr _ IH]; [reflexivity|].
    simpl. rewrite (bool_decide_eq_false_2 _ Hr). exact IH.
Qed.

Lemma parse_error_fails_recovery fuel ids s recs c err s1 :
  parseDataFiles fuel ids s = Val ((recs, c, Some err), s1) ->
  buildHintIdx fuel ids s =
  Val (Some err, with_db s1 (fun d => set_committedTxIds d c)).
Proof. intros Hp. unfold buildHintIdx. rewrite Hp. reflexivity. Qed.

(** ** Read errors of the parse phase *)

(** The record [parseDataFiles] makes of the entry read at [off] in the
    segment [fID]. *)
Definition record_at (mode : EntryIdxMode) (fID off : Z) (entry : Entry) : Record_ :=
  mkRecord (mkHint (Key entry) fID (Meta entry) (to_uint64 off))
    (if mode_eqb mode HintKeyValAndRAMIdxMode
     then Some (mkEntry (Key entry) (Value entry) (Meta entry))
     else None).

(** What the open file [f] of segment [fID] holds from offset [off] on, in
    the directory state [w]: the entries that follow one another, as
    records, and how reading them ends.  [None] is a clean stop: no entry,
    EOF, or any read error at an offset of [segmentSize] or more (a torn
    tail).  [Some err] is a read error [err], not EOF, at an offset below
    [segmentSize]. *)
Inductive segment_reads (w : World) (segmentSize : Z) (mode : EntryIdxMode)
    (f : DataFile) (fID : Z) : Z -> list Record_ -> option error -> Prop :=
  | reads_entry off entry records stop :
      DataFile_ReadAt f off w = ReadEntry entry ->
      segment_reads w segmentSize mode f fID
        (wrap_int64 (off + Entry_Size entry)) records stop ->
      segment_reads w segmentSize mode f fID off
        (record_at mode fID off entry :: records) stop
  | reads_nil off :
      DataFile_ReadAt f off w = ReadNil ->
      segment_reads w segmentSize mode f fID off [] None
  | reads_EOF off :
      DataFile_ReadAt f off w = ReadErr io_EOF ->
      segment_reads w segmentSize mode f fID off [] None
  | reads_torn_tail off err :
      DataFile_ReadAt f off w = ReadErr err ->
      segmentSize <= off ->
      segment_reads w segmentSize mode f fID off [] None
  | reads_error off err :
      DataFile_ReadAt f off w = ReadErr err ->
      err <> io_EOF ->
      off < segmentSize ->
      segment_reads w segmentSize mode f fID off [] (Some err).

(** The segments [ids] of the directory of [d], opened and read one after
    the other from the directory state [w]: the records of all of them
    when each stops cleanly, and the first read error otherwise, with the
    records read until then. *)
Inductive segments_read (d : DB) : World -> list Z -> list Record_ -> option error -> Prop :=
  | segments_done w : segments_read d w [] [] None
  | segments_clean w fID rest f w1 records records' stop :
      NewDataFile (getDataPath d fID) (SegmentSize (opt d))
        (StartFileLoadingMode (opt d)) w = (inr f, w1) ->
      segment_reads w1 (SegmentSize (opt d)) (EntryIdxMode_ (opt d)) f fID 0
        records None ->
      segments_read d (rwManager_Close f w1) rest records' stop ->
      segments_read d w (fID :: rest) (records ++ records')%list stop
  | segments_error w fID rest f w1 records err :
      NewDataFile (getDataPath d fID) (SegmentSize (opt d))
        (StartFileLoadingMode (opt d)) w = (inr f, w1) ->
      segment_reads w1 (SegmentSize (opt d)) (EntryIdxMode_ (opt d)) f fID 0
        records (Some err) ->
      segments_read d w (fID :: rest) records (Some err).

Lemma parseDataFiles_scan_reads w segmentSize mode path f fID off records stop :
  segment_reads w segmentSize mode f fID off records stop ->
  forall fuel unconfirmedRecords committedTxIds s,
    st_world s = w ->
    SegmentSize (opt (st_db s)) = segmentSize ->
    EntryIdxMode_ (opt (st_db s)) = mode ->
    (length records < fuel)%nat ->
    exists committedTxIds' s',
      parseDataFiles_scan fuel path f fID off unconfirmedRecords committedTxIds s =
      Val (match stop with
           | None => Break ((unconfirmedRecords ++ records)%list, committedTxIds')
           | Some err => Return (fmt_Errorf "when build hintIndex readAt err: " err)
           end, s') /\
      opt (st_db s') = opt (st_db s) /\
      st_world s' = match stop with
                    | None => w
                    | Some _ => rwManager_Close f w
                    end.
Proof.
  induction 1 as [off entry records stop Hread _ IH|off Hread|off Hread
                 |off err Hread Hge|off err Hread Hne Hlt];
    intros fuel recs c s Hw Hsz Hmode Hfuel;
    (destruct fuel as [|fuel]; [simpl in Hfuel; lia|]);
    simpl; unfold call_ReadAt; rewrite Hw, Hread; cbn [st_db logged].
  - rewrite Hmode.
    destruct (status (Meta entry) =? Committed);
      destruct (is_sparse (st_db s)) eqn:Hsp;
      cbn [st_db with_db logged]; unfold is_sparse in *; cbn [opt set_ActiveCommittedTxIdsIdx] in *;
      rewrite ?Hsp;
      match goal with
      | |- context [parseDataFiles_scan fuel path f fID ?o ?r ?c' ?s'] =>
          destruct (IH fuel r c' s') as (c2 & s2 & E2 & O2 & W2);
            [exact Hw|exact Hsz|exact Hmode|simpl in Hfuel; lia|];
            exists c2, s2; rewrite E2; rewrite <- app_assoc;
            repeat split; [exact O2|exact W2]
      end.
  - exists c, (logged s (EvReadAt path off)). rewrite app_nil_r. repeat split. exact Hw.
  - exists c, (logged s (EvReadAt path off)). rewrite app_nil_r. repeat split. exact Hw.
  - exists c, (logged s (EvReadAt path off)). rewrite app_nil_r.
    rewrite Hsz. apply Z.geb_le in Hge. rewrite Hge.
    destruct err; repeat split; exact Hw.
  - exists c, (call_Close path f (logged s (EvReadAt path off))).
    rewrite Hsz.
    assert (Hge : (off >=? segmentSize) = false)
      by (rewrite Z.geb_leb; apply Z.leb_gt; exact Hlt).
    rewrite Hge. destruct err; try congruence; repeat split; simpl; rewrite Hw; reflexivity.
Qed.

Lemma parseDataFiles_loop_reads d w ids records stop :
  segments_read d w ids records stop ->
  forall fuel unconfirmedRecords committedTxIds s,
    st_world s = w ->
    opt (st_db s) = opt d ->
    (length records < fuel)%nat ->
    exists committedTxIds' s',
      parseDataFiles_loop fuel ids unconfirmedRecords committedTxIds s =
      Val (match stop with
           | None => ((unconfirmedRecords ++ records)%list, committedTxIds', None)
           | Some err =>
               ([], ∅, Some (fmt_Errorf "when build hintIndex readAt err: " err))
           end, s').
Proof.
  induction 1 as [w|w fID rest f w1 records records' stop Hopen Hseg _ IH
                 |w fID rest f w1 records err Hopen Hseg];
    intros fuel recs c s Hw Hopt Hfuel.
  - exists c, s. simpl. rewrite app_nil_r. reflexivity.
  - simpl. unfold call_NewDataFile.
    rewrite (getDataPath_opt d (st_db s) fID Hopt), Hopt, Hw, Hopen.
    rewrite length_app in Hfuel.
    destruct (parseDataFiles_scan_reads _ _ _ (getDataPath d fID) _ _ _ _ _ Hseg fuel recs c
                (logged (with_world s w1) (EvNewDataFile (getDataPath d fID))))
      as (c1 & s1 & E1 & O1 & W1);
      [reflexivity|simpl; rewrite Hopt; reflexivity|simpl; rewrite Hopt; reflexivity|lia|].
    rewrite E1. simpl.
    destruct (IH fuel (recs ++ records)%list c1 (call_Close (getDataPath d fID) f s1))
      as (c2 & s2 & E2);
      [simpl; rewrite W1; reflexivity|simpl; rewrite O1; simpl; exact Hopt|lia|].
    exists c2, s2. rewrite E2. rewrite <- app_assoc. reflexivity.
  - simpl. unfold call_NewDataFile.
    rewrite (getDataPath_opt d (st_db s) fID Hopt), Hopt, Hw, Hopen.
    destruct (parseDataFiles_scan_reads _ _ _ (getDataPath d fID) _ _ _ _ _ Hseg fuel recs c
                (logged (with_world s w1) (EvNewDataFile (getDataPath d fID))))
      as (c1 & s1 & E1 & _);
      [reflexivity|simpl; rewrite Hopt; reflexivity|simpl; rewrite Hopt; reflexivity
      |exact Hfuel|].
    rewrite E1. simpl. exists c1, s1. reflexivity.
Qed.

(** C8.  The parse phase of recovery on segments that are read as
    [segments_read] says.  When every segment stops cleanly (at no entry,
    at EOF, or at any read error at an offset of [SegmentSize] or more),
    [parseDataFiles] returns their records and no error.  When a segment
    has a read error that is not EOF at an offset below [SegmentSize],
    [parseDataFiles] returns that error, wrapped, and no records, and
    recovery fails: [buildHintIdx] returns the error.  In sparse mode the
    segments read are the last of [dataFileIds] alone. *)
Theorem parseDataFiles_read_errors (fuel : nat) (dataFileIds : list Z) (s : State)
    (records : list Record_) (stop : option error) :
  (is_sparse (st_db s) = true -> dataFileIds <> []) ->
  segments_read (st_db s) (st_world s)
    (if is_sparse (st_db s) then [List.last dataFileIds 0] else dataFileIds)
    records stop ->
  (length records < fuel)%nat ->
  match stop with
  | None =>
      exists committedTxIds s',
        parseDataFiles fuel dataFileIds s = Val ((records, committedTxIds, None), s')
  | Some err =>
      exists s',
        parseDataFiles fuel dataFileIds s =
        Val (([], ∅, Some (fmt_Errorf "when build hintIndex readAt err: " err)), s') /\
        buildHintIdx fuel dataFileIds s =
        Val (Some (fmt_Errorf "when build hintIndex readAt err: " err),
             with_db s' (fun d => set_committedTxIds d ∅))
  end.
Proof.
  intros Hne Hsegs Hfuel.
  assert (Hparse :
    parseDataFiles fuel dataFileIds s =
    parseDataFiles_loop fuel
      (if is_sparse (st_db s) then [List.last dataFileIds 0] else dataFileIds) [] ∅ s).
  { unfold parseDataFiles. destruct (is_sparse (st_db s)); [|reflexivity].
    destruct dataFileIds; [|reflexivity]. exfalso. apply Hne; reflexivity. }
  destruct (parseDataFiles_loop_reads _ _ _ _ _ Hsegs fuel [] ∅ s eq_refl eq_refl Hfuel)
    as (c & s' & Eloop).
  rewrite <- Hparse in Eloop.
  destruct stop as [err|].
  - exists s'. split; [exact Eloop|].
    exact (parse_error_fails_recovery _ _ _ _ _ _ _ Eloop).
  - exists c, s'. exact Eloop.
Qed.

(** ** The managed transaction facade *)

(** C7, amended.  [Update] and [View] with a nil function return [ErrFn]
    and leave the state and the log as they are, so no transaction was
    begun; when the function returns an error, [Rollback] is called and
    the function's error is returned, or the error of [Rollback] when it
    has one; when [Commit] fails, [Rollback] is called and the error of
    [Commit] is returned, or the error of [Rollback] when it has one. *)
Theorem managed_facade (writable : bool) (fn : callback) (s : State) :
  Update None s = (Some ErrFn, s) /\
  View None s = (Some ErrFn, s) /\
  Update (Some fn) s = managed true fn s /\
  View (Some fn) s = managed false fn s /\
  (forall tx s1 err s2 s3,
     call_Begin writable s = (inr tx, s1) ->
     run_fn fn tx s1 = (Some err, s2) ->
     (call_Rollback tx s2 = (None, s3) ->
      managed writable fn s = (Some err, s3) /\
      st_log s3 = (st_log s2 ++ [EvRollback])%list) /\
     (forall errRollback,
        call_Rollback tx s2 = (Some errRollback, s3) ->
        managed writable fn s = (Some errRollback, s3))) /\
  (forall tx s1 s2 err s3 s4,
     call_Begin writable s = (inr tx, s1) ->
     run_fn fn tx s1 = (None, s2) ->
     call_Commit tx s2 = (Some err, s3) ->
     (call_Rollback tx s3 = (None, s4) ->
      managed writable fn s = (Some err, s4) /\
      st_log s4 = (st_log s3 ++ [EvRollback])%list) /\
     (forall errRollback,
        call_Rollback tx s3 = (Some errRollback, s4) ->
        managed writable fn s = (Some errRollback, s4))) /\
  (forall tx s1 s2 s3,
     call_Begin writable s = (inr tx, s1) ->
     run_fn fn tx s1 = (None, s2) ->
     call_Commit tx s2 = (None, s3) ->
     managed writable fn s = (None, s3)).
Proof.
  do 4 (split; [reflexivity|]).
  split; [|split].
  - intros tx s1 err s2 s3 Hb Hf. unfold managed. rewrite Hb, Hf. split.
    + intros Hr. rewrite Hr. split; [reflexivity|].
      apply lift_tx_spec in Hr as [L _]. exact L.
    + intros errRollback Hr. rewrite Hr. reflexivity.
  - intros tx s1 s2 err s3 s4 Hb Hf Hc. unfold managed. rewrite Hb, Hf, Hc. split.
    + intros Hr. rewrite Hr. split; [reflexivity|].
      apply lift_tx_spec in Hr as [L _]. exact L.
    + intros errRollback Hr. rewrite Hr. reflexivity.
  - intros tx s1 s2 s3 Hb Hf Hc. unfold managed. rewrite Hb, Hf, Hc. reflexivity.
Qed.

End RecoveryFacts.

(** ** Runs on the small instance *)

(** Two segments: [0.dat] sets [x] and [y] in bucket [u]; [1.dat], the
    highest-numbered one, deletes [x] and sets [z]. *)
Definition two_segments : sim_world :=
  [("/db/0.dat",
    sim_segment 0
      [sim_entry "u" "x" "1" DataSetFlag DataStructureBPTree Committed 1;
       sim_entry "u" "y" "2" DataSetFlag DataStructureBPTree Committed 2]);
   ("/db/1.dat",
    sim_segment 0
      [sim_entry "u" "x" "" DataDeleteFlag DataStructureBPTree Committed 3;
       sim_entry "u" "z" "3" DataSetFlag DataStructureBPTree Committed 4])].

(** The state after recovery of [two_segments], with an empty log. *)
Definition recovered : State :=
  match buildHintIdx 10 [0; 1] (sim_state HintKeyValAndRAMIdxMode two_segments) with
  | Val (_, s) => mkState (set_MaxFileID (st_db s) 1) (st_world s) []
  | _ => sim_state HintKeyValAndRAMIdxMode two_segments
  end.

Definition merged : State :=
  match Merge 10 recovered with
  | Val (_, s) => s
  | _ => recovered
  end.

Lemma Merge_recovered : Merge 10 recovered = Val (None, merged).
Proof.
  assert (Herr : match Merge 10 recovered with
                 | Val (e, _) => e = None
                 | _ => False
                 end) by (vm_compute; reflexivity).
  unfold merged.
  destruct (Merge 10 recovered) as [[e s]| |]; try contradiction.
  rewrite Herr. reflexivity.
Qed.

Lemma sim_tx_keeps (Inv : DB -> Prop) : tx_keeps Inv.
Proof. repeat split; intros; assumption. Qed.

(** C2, as stated, fails: [1.dat] is the highest-numbered segment when
    [Merge] starts, and the run reads it, rewrites its live record [z] and
    removes it. *)
Lemma Merge_rewrites_and_removes_highest_segment :
  getMaxFileIDAndFileIDs recovered = (1, [0; 1]) /\
  Merge 10 recovered = Val (None, merged) /\
  In (EvReadAt "/db/1.dat" 0) (st_log merged) /\
  In (EvPut "u" "z" "3" 0 DataSetFlag 0 DataStructureBPTree) (st_log merged) /\
  In (EvRemove "/db/1.dat") (st_log merged) /\
  assoc_find "/db/1.dat" (st_world merged) = None.
Proof.
  split; [vm_compute; reflexivity|].
  split; [exact Merge_recovered|].
  vm_compute. repeat split; auto 30.
Qed.

Lemma Merge_works_on_every_listed_file_witness :
  extends
    (listed_event (map (getDataPath (st_db recovered))
                     (snd (getMaxFileIDAndFileIDs recovered))))
    recovered merged /\
  (snd (getMaxFileIDAndFileIDs recovered) <> [] ->
   In (fst (getMaxFileIDAndFileIDs recovered)) (snd (getMaxFileIDAndFileIDs recovered))) /\
  (@None error = None ->
   forall id, In id (snd (getMaxFileIDAndFileIDs recovered)) ->
     In (EvReadAt (getDataPath (st_db recovered) id) 0) (st_log merged) /\
     In (EvRemove (getDataPath (st_db recovered) id)) (st_log merged)).
Proof.
  apply (Merge_works_on_every_listed_file 10 recovered None merged).
  - apply sim_tx_keeps.
  - exact Merge_recovered.
Defined.

Lemma Merge_skips_filtered_records_witness : extends live_put recovered merged.
Proof.
  exact (proj2 (proj2 (Merge_skips_filtered_records 10 recovered None merged
                        Merge_recovered))).
Defined.

Lemma Merge_success_leaves_isMerging_set_witness : isMerging (st_db merged) = true.
Proof.
  exact (proj1 (Merge_success_leaves_isMerging_set 10 recovered (sim_tx_keeps _))
           merged Merge_recovered).
Defined.

(** A directory with one segment. *)
Definition one_segment : State :=
  sim_state HintKeyValAndRAMIdxMode
    [("/db/0.dat",
      sim_segment 0 [sim_entry "u" "x" "1" DataSetFlag DataStructureBPTree Committed 1])].

Lemma Merge_rejects_without_touching_files_witness :
  exists err s',
    Merge 10 one_segment = Val (Some err, s') /\
    st_world s' = st_world one_segment /\
    st_log s' = st_log one_segment /\
    getMaxFileIDAndFileIDs s' = getMaxFileIDAndFileIDs one_segment.
Proof.
  apply (Merge_rejects_without_touching_files 10 one_segment).
  right. vm_compute. constructor.
Defined.

(** A first segment whose first read fails with an error that is not
    EOF. *)
Definition unreadable_segment : @DataFile sim_codec sim_structures :=
  [(0, ReadErr (foreign_error 5))].

Definition torn_state : State :=
  mkState (set_MaxFileID (sim_db HintKeyValAndRAMIdxMode) 1)
    [("/db/0.dat", unreadable_segment);
     ("/db/1.dat",
      sim_segment 0 [sim_entry "u" "x" "1" DataSetFlag DataStructureBPTree Committed 1])]
    [].

(** Three segments of 45 bytes: [0.dat] holds one entry and then a read
    error at offset 45, a torn tail; [1.dat] holds one entry and ends at
    offset 45; the first read of [2.dat] is a read error. *)
Definition short_segments_db : DB :=
  mkDB (mkOptions "/db" 45 HintKeyValAndRAMIdxMode 0 0)
    ∅ [] ∅ ∅ ∅ ∅ None [] [] ∅ 0 0 false false.

Definition entry_x : Entry :=
  sim_entry "u" "x" "1" DataSetFlag DataStructureBPTree Committed 1.
Definition entry_y : Entry :=
  sim_entry "u" "y" "2" DataSetFlag DataStructureBPTree Committed 2.

Definition torn_tail_segment : @DataFile sim_codec sim_structures :=
  [(0, ReadEntry entry_x); (45, ReadErr (foreign_error 7))].

Definition ended_segment : @DataFile sim_codec sim_structures :=
  sim_segment 0 [entry_y].

Definition short_segments : State :=
  mkState short_segments_db
    [("/db/0.dat", torn_tail_segment);
     ("/db/1.dat", ended_segment);
     ("/db/2.dat", unreadable_segment)]
    [].

Lemma torn_tail_segment_reads :
  segment_reads (st_world short_segments) 45 HintKeyValAndRAMIdxMode
    torn_tail_segment 0 0
    [record_at HintKeyValAndRAMIdxMode 0 0 entry_x] None.
Proof.
  apply reads_entry; [reflexivity|].
  apply (reads_torn_tail _ _ _ _ _ _ (foreign_error 7)); [reflexivity|].
  vm_compute. discriminate.
Qed.

Lemma ended_segment_reads :
  segment_reads (st_world short_segments) 45 HintKeyValAndRAMIdxMode
    ended_segment 1 0
    [record_at HintKeyValAndRAMIdxMode 1 0 entry_y] None.
Proof.
  apply reads_entry; [reflexivity|].
  apply reads_EOF. reflexivity.
Qed.

Lemma unreadable_segment_reads :
  segment_reads (st_world short_segments) 45 HintKeyValAndRAMIdxMode
    unreadable_segment 2 0 [] (Some (foreign_error 5)).
Proof.
  apply reads_error; [reflexivity|discriminate|reflexivity].
Qed.

Lemma parseDataFiles_read_errors_witness :
  (exists committedTxIds s',
     parseDataFiles 3 [0; 1] short_segments =
     Val (([record_at HintKeyValAndRAMIdxMode 0 0 entry_x;
            record_at HintKeyValAndRAMIdxMode 1 0 entry_y],
           committedTxIds, None), s')) /\
  (exists s',
     parseDataFiles 3 [0; 1; 2] short_segments =
     Val (([], ∅,
           Some (fmt_Errorf "when build hintIndex readAt err: " (foreign_error 5))),
          s') /\
     buildHintIdx 3 [0; 1; 2] short_segments =
     Val (Some (fmt_Errorf "when build hintIndex readAt err: " (foreign_error 5)),
          with_db s' (fun d => set_committedTxIds d ∅))).
Proof.
  split.
  - apply (parseDataFiles_read_errors 3 [0; 1] short_segments
             [record_at HintKeyValAndRAMIdxMode 0 0 entry_x;
              record_at HintKeyValAndRAMIdxMode 1 0 entry_y] None).
    + discriminate.
    + apply (segments_clean _ _ 0 [1] torn_tail_segment (st_world short_segments)
               [record_at HintKeyValAndRAMIdxMode 0 0 entry_x]
               [record_at HintKeyValAndRAMIdxMode 1 0 entry_y] None);
        [reflexivity|exact torn_tail_segment_reads|].
      apply (segments_clean _ _ 1 [] ended_segment
               (st_world short_segments)
               [record_at HintKeyValAndRAMIdxMode 1 0 entry_y] [] None);
        [reflexivity|exact ended_segment_reads|apply segments_done].
    + simpl. lia.
  - apply (parseDataFiles_read_errors 3 [0; 1; 2] short_segments
             [record_at HintKeyValAndRAMIdxMode 0 0 entry_x;
              record_at HintKeyValAndRAMIdxMode 1 0 entry_y]
             (Some (foreign_error 5))).
    + discriminate.
    + apply (segments_clean _ _ 0 [1; 2] torn_tail_segment (st_world short_segments)
               [record_at HintKeyValAndRAMIdxMode 0 0 entry_x]
               [record_at HintKeyValAndRAMIdxMode 1 0 entry_y]
               (Some (foreign_error 5)));
        [reflexivity|exact torn_tail_segment_reads|].
      apply (segments_clean _ _ 1 [2] ended_segment
               (st_world short_segments)
               [record_at HintKeyValAndRAMIdxMode 1 0 entry_y] []
               (Some (foreign_error 5)));
        [reflexivity|exact ended_segment_reads|].
      apply (segments_error _ _ 2 [] unreadable_segment (st_world short_segments)
               [] (foreign_error 5));
        [reflexivity|exact unreadable_segment_reads].
    + simpl. lia.
Defined.

(** A read error during merge is returned with [isMerging] left true. *)
Example Merge_read_error_leaves_isMerging_set :
  match Merge 10 torn_state with
  | Val (err, s') =>
      err = Some (fmt_Errorf "when merge operation build hintIndex readAt err: "
                    (foreign_error 5)) /\
      isMerging (st_db s') = true
  | _ => False
  end.
Proof. vm_compute. split; reflexivity. Qed.

Definition failing_fn : callback := fun tx dw => (Some ErrBucket, dw).

(** The small instance with a transaction layer whose [Commit] returns
    [commit] and whose [Rollback] returns [rollback]. *)
Definition flaky_platform (commit rollback : option error)
  : @Platform sim_codec sim_structures := {|
  World := sim_world;
  ioutil_ReadDir := fun dir w => inr (map (fun pf => path_Base (fst pf)) w);
  NewDataFile := sim_NewDataFile;
  DataFile_ReadAt := sim_ReadAt;
  rwManager_Close := fun f w => w;
  os_Remove := sim_Remove;
  ReadBPTreeRootIdxAt := fun path off w => (None, Some io_EOF);
  db_Begin := fun writable dw => (inr tt, dw);
  tx_put := fun tx b k v ttl flag ts ds dw => (None, dw);
  tx_Commit := fun tx dw => (commit, dw);
  tx_Rollback := fun tx dw => (rollback, dw)
|}.

Definition flaky_state (commit rollback : option error) (log : list Event)
  : @State sim_codec sim_structures (flaky_platform commit rollback) :=
  @mkState sim_codec sim_structures (flaky_platform commit rollback)
    (sim_db HintKeyValAndRAMIdxMode) [] log.

(** A user function that does nothing and returns [result]. *)
Definition flaky_fn (commit rollback : option error) (result : option error)
  : @callback sim_codec sim_structures (flaky_platform commit rollback) :=
  fun tx dw => (result, dw).

(** C7, as stated, fails: [Commit] fails with error 1, the [Rollback]
    that follows fails with error 2, and [Update] returns error 2, which
    is not the failure of [Commit]. *)
Lemma Update_commit_failure_returns_rollback_error :
  @tx_Commit sim_codec sim_structures
    (flaky_platform (Some (foreign_error 1)) (Some (foreign_error 2)))
    tt (sim_db HintKeyValAndRAMIdxMode, []) =
  (Some (foreign_error 1), (sim_db HintKeyValAndRAMIdxMode, [])) /\
  Update (Some (flaky_fn (Some (foreign_error 1)) (Some (foreign_error 2)) None))
    (flaky_state (Some (foreign_error 1)) (Some (foreign_error 2)) []) =
  (Some (foreign_error 2),
   flaky_state (Some (foreign_error 1)) (Some (foreign_error 2))
     [EvBegin true; EvCommit; EvRollback]) /\
  foreign_error 2 <> foreign_error 1.
Proof. split; [reflexivity|]. split; [reflexivity|discriminate]. Qed.

(** The four failing runs of the facade: the function fails and
    [Rollback] succeeds or fails; [Commit] fails and [Rollback] succeeds
    or fails. *)
Lemma managed_facade_witness :
  managed true failing_fn one_segment =
  (Some ErrBucket,
   mkState (st_db one_segment) (st_world one_segment) [EvBegin true; EvRollback]) /\
  managed true (flaky_fn None (Some (foreign_error 2)) (Some ErrBucket))
    (flaky_state None (Some (foreign_error 2)) []) =
  (Some (foreign_error 2),
   flaky_state None (Some (foreign_error 2)) [EvBegin true; EvRollback]) /\
  managed true (flaky_fn (Some (foreign_error 1)) None None)
    (flaky_state (Some (foreign_error 1)) None []) =
  (Some (foreign_error 1),
   flaky_state (Some (foreign_error 1)) None [EvBegin true; EvCommit; EvRollback]) /\
  managed true (flaky_fn (Some (foreign_error 1)) (Some (foreign_error 2)) None)
    (flaky_state (Some (foreign_error 1)) (Some (foreign_error 2)) []) =
  (Some (foreign_error 2),
   flaky_state (Some (foreign_error 1)) (Some (foreign_error 2))
     [EvBegin true; EvCommit; EvRollback]).
Proof.
  split; [|split; [|split]].
  - destruct (managed_facade true failing_fn one_segment) as (_ & _ & _ & _ & Hfn & _).
    exact (proj1 (proj1 (Hfn tt _ ErrBucket _ _ eq_refl eq_refl) eq_refl)).
  - destruct (managed_facade true
                (flaky_fn None (Some (foreign_error 2)) (Some ErrBucket))
                (flaky_state None (Some (foreign_error 2)) []))
      as (_ & _ & _ & _ & Hfn & _).
    exact (proj2 (Hfn tt _ ErrBucket _ _ eq_refl eq_refl) (foreign_error 2) eq_refl).
  - destruct (managed_facade true (flaky_fn (Some (foreign_error 1)) None None)
                (flaky_state (Some (foreign_error 1)) None []))
      as (_ & _ & _ & _ & _ & Hcommit & _).
    exact (proj1 (proj1 (Hcommit tt _ _ (foreign_error 1) _ _ eq_refl eq_refl eq_refl)
                    eq_refl)).
  - destruct (managed_facade true
                (flaky_fn (Some (foreign_error 1)) (Some (foreign_error 2)) None)
                (flaky_state (Some (foreign_error 1)) (Some (foreign_error 2)) []))
      as (_ & _ & _ & _ & _ & Hcommit & _).
    exact (proj2 (Hcommit tt _ _ (foreign_error 1) _ _ eq_refl eq_refl eq_refl)
             (foreign_error 2) eq_refl).
Defined.

(** * Further properties *)

(** ** The listing of segment files *)

Section Listing.
Context `{Platform}.

Lemma insert_sorted_Permutation (x : Z) (l : list Z) :
  Permutation (insert_sorted x l) (x :: l).
Proof.
  induction l as [|y l IH]; simpl; [reflexivity|].
  destruct (Z.leb x y); [reflexivity|].
  rewrite IH. apply perm_swap.
Qed.

Lemma sort_Ints_Permutation (l : list Z) : Permutation (sort_Ints l) l.
Proof.
  induction l as [|x l IH]; simpl; [reflexivity|].
  rewrite insert_sorted_Permutation. constructor. exact IH.
Qed.

Lemma insert_sorted_Sorted (x : Z) (l : list Z) :
  Sorted Z.le l -> Sorted Z.le (insert_sorted x l).
Proof.
  induction l as [|y l IH]; intros Hs; simpl.
  - repeat constructor.
  - destruct (Z.leb_spec x y) as [Hle|Hgt].
    + constructor; [exact Hs|]. constructor. exact Hle.
    + inversion Hs as [|? ? Hs' Hhd]; subst.
      constructor; [apply IH; exact Hs'|].
      destruct l as [|z l]; simpl.
      * constructor. lia.
      * destruct (Z.leb_spec x z); constructor; [lia|].
        inversion Hhd; subst. assumption.
Qed.

Lemma sort_Ints_Sorted (l : list Z) : Sorted Z.le (sort_Ints l).
Proof.
  induction l as [|x l IH]; simpl; [constructor|].
  apply insert_sorted_Sorted. exact IH.
Qed.

Lemma Sorted_last_max (l : list Z) (d : Z) :
  Sorted Z.le l -> Forall (fun x => x <= List.last l d) l.
Proof.
  intros Hs. apply Sorted_StronglySorted in Hs; [|intros a b c; lia].
  induction Hs as [|x l Hs IH Hall]; [constructor|].
  destruct l as [|y l'].
  - constructor; [simpl; lia|constructor].
  - change (List.last (x :: y :: l') d) with (List.last (y :: l') d).
    constructor; [|exact IH].
    rewrite List.Forall_forall in Hall.
    apply Hall. apply last_In. discriminate.
Qed.

(** The names of a listing that [getMaxFileIDAndFileIDs] takes for
    segment files, and the id it reads from a name. *)
Definition is_data_name (id : string) : bool :=
  String.eqb (path_Ext (path_Base id)) DataSuffix.

Definition id_of_name (id : string) : Z :=
  fst (StrToInt (strings_TrimSuffix id DataSuffix)).

Lemma collect_dataFileIds_spec (files : list string) :
  forall acc,
    collect_dataFileIds files acc =
    (acc ++ map id_of_name (List.filter is_data_name files))%list.
Proof.
  induction files as [|id rest IH]; intros acc; simpl.
  - symmetry. apply app_nil_r.
  - unfold is_data_name at 1.
    destruct (String.eqb (path_Ext (path_Base id)) DataSuffix); simpl.
    + rewrite IH. rewrite <- app_assoc. reflexivity.
    + apply IH.
Qed.

Definition listing (s : State) : list string :=
  match ioutil_ReadDir (Dir (opt (st_db s))) (st_world s) with
  | inl _ => []
  | inr files => files
  end.

(** X1.  The ids [getMaxFileIDAndFileIDs] returns are the ids read from
    the names with extension [DataSuffix], one per name, in ascending
    order; the maximum it returns is the greatest of them, and 0 when
    there is none (also when the directory cannot be read). *)
Theorem getMaxFileIDAndFileIDs_sorted_ids (s : State) :
  Permutation (snd (getMaxFileIDAndFileIDs s))
    (map id_of_name (List.filter is_data_name (listing s))) /\
  Sorted Z.le (snd (getMaxFileIDAndFileIDs s)) /\
  Forall (fun id => id <= fst (getMaxFileIDAndFileIDs s))
    (snd (getMaxFileIDAndFileIDs s)) /\
  (snd (getMaxFileIDAndFileIDs s) = [] -> fst (getMaxFileIDAndFileIDs s) = 0).
Proof.
  unfold getMaxFileIDAndFileIDs, listing.
  destruct (match ioutil_ReadDir _ _ with inl _ => [] | inr files => files end)
    as [|f0 files].
  - simpl. repeat split; constructor.
  - rewrite collect_dataFileIds_spec. rewrite app_nil_l.
    destruct (map id_of_name (List.filter is_data_name (f0 :: files)))
      as [|i0 ids] eqn:Hids.
    + simpl. repeat split; constructor.
    + cbv beta iota. unfold fst, snd. split; [apply sort_Ints_Permutation|].
      split; [apply sort_Ints_Sorted|]. split.
      * apply Sorted_last_max. apply sort_Ints_Sorted.
      * intros Hnil. exfalso.
        pose proof (sort_Ints_Permutation (i0 :: ids)) as Hp.
        rewrite Hnil in Hp. apply Permutation_nil in Hp. discriminate.
Qed.

End Listing.

(** ** What a builder changes *)

Section BuilderFrames.
Context `{Structures}.

Section Lens.
Variable A : Type.
Variable upd : DB -> A -> DB.
Hypothesis upd_upd : forall d a b, upd (upd d a) b = upd d b.
Hypothesis upd_id : forall d, exists a, d = upd d a.

(** A step that changes one field of the database only. *)
Definition only (f : step) : Prop :=
  forall db db' err, f db = Val (db', err) -> exists m, db' = upd db m.

Lemma only_skip : only skip.
Proof. intros db db' err Heq. inversion Heq; subst. apply upd_id. Qed.

Lemma only_and_then (f g : step) : only f -> only g -> only (f >>> g).
Proof.
  intros Hf Hg db db' err Heq. unfold and_then in Heq.
  destruct (f db) as [[d1 [e1|]]| |] eqn:Hfd; try discriminate.
  - inversion Heq; subst. eapply Hf; eassumption.
  - destruct (Hf _ _ _ Hfd) as [m1 ->].
    destruct (Hg _ _ _ Heq) as [m2 ->].
    exists m2. apply upd_upd.
Qed.

Lemma only_when (c : bool) (f : step) : only f -> only (when c f).
Proof. destruct c; simpl; auto using only_skip. Qed.

End Lens.

Lemma set_SetIdx_id (d : DB) : exists a, d = set_SetIdx d a.
Proof. exists (SetIdx d). destruct d; reflexivity. Qed.
Lemma set_SortedSetIdx_id (d : DB) : exists a, d = set_SortedSetIdx d a.
Proof. exists (SortedSetIdx d). destruct d; reflexivity. Qed.
Lemma set_ListIdx_id (d : DB) : exists a, d = set_ListIdx d a.
Proof. exists (ListIdx d). destruct d; reflexivity. Qed.

Lemma buildBPTreeIdx_only b r : only _ set_BPTreeIdx (buildBPTreeIdx b r).
Proof.
  intros db db' err Heq. unfold buildBPTreeIdx in Heq.
  destruct (BPTree_Insert _ _ _ _ _) as [t e]. inversion Heq. eexists. reflexivity.
Qed.

Lemma buildActiveBPTreeIdx_only r : only _ set_ActiveBPTreeIdx (buildActiveBPTreeIdx r).
Proof.
  intros db db' err Heq. unfold buildActiveBPTreeIdx in Heq.
  destruct (BPTree_Insert _ _ _ _ _) as [t e]. inversion Heq. eexists. reflexivity.
Qed.

Lemma on_set_only b op p : only _ set_SetIdx (on_set b op p).
Proof.
  intros db db' err Heq. unfold on_set in Heq.
  destruct (op _) as [m e]. inversion Heq. eexists. reflexivity.
Qed.

Lemma on_zset_only b op : only _ set_SortedSetIdx (on_zset b op).
Proof. intros db db' err Heq. inversion Heq. eexists. reflexivity. Qed.

Lemma on_list_only b op : only _ set_ListIdx (on_list b op).
Proof.
  intros db db' err Heq. unfold on_list in Heq.
  destruct (op _) as [m e]. inversion Heq. eexists. reflexivity.
Qed.

Lemma buildSetIdx_only b r : only _ set_SetIdx (buildSetIdx b r).
Proof.
  intros db db' err Heq. unfold buildSetIdx in Heq.
  destruct (E r) as [e|].
  - apply (only_and_then _ set_SetIdx (fun _ _ _ => eq_refl) _ _
             (only_when _ _ set_SetIdx_id _ _ (on_set_only _ _ _))
             (only_when _ _ set_SetIdx_id _ _ (on_set_only _ _ _))) in Heq.
    destruct Heq as [m ->]. exists m. reflexivity.
  - inversion Heq. eexists. reflexivity.
Qed.

Lemma buildSortedSetIdx_only b r : only _ set_SortedSetIdx (buildSortedSetIdx b r).
Proof.
  unfold buildSortedSetIdx.
  repeat apply (only_and_then _ set_SortedSetIdx (fun _ _ _ => eq_refl));
    try apply (only_when _ _ set_SortedSetIdx_id);
    try apply on_zset_only.
  - intros db db' err Heq. inversion Heq. eexists. reflexivity.
  - intros db db' err Heq. destruct (E r) as [e|]; [|discriminate].
    destruct (strings_Split _ _) as [|k0 [|s0 [|]]];
      solve [inversion Heq; subst; apply set_SortedSetIdx_id
            | eapply on_zset_only; eassumption].
  - intros db db' err Heq. destruct (E r) as [e|]; [|discriminate].
    eapply on_zset_only; eassumption.
  - intros db db' err Heq. destruct (E r) as [e|]; [|discriminate].
    eapply on_zset_only; eassumption.
Qed.

Lemma buildListIdx_only b r : only _ set_ListIdx (buildListIdx b r).
Proof.
  intros db db' err Heq. unfold buildListIdx, index_or_crash in Heq.
  destruct (E r) as [e|]; [|inversion Heq; eexists; reflexivity].
  repeat match type of Heq with
         | (if ?c then _ else _) = _ => destruct c
         | match ?x with Some _ => _ | None => _ end = _ => destruct x; [|discriminate]
         end;
    solve [ inversion Heq; eexists; reflexivity
          | apply on_list_only in Heq; destruct Heq as [m ->]; exists m; reflexivity ].
Qed.

End BuilderFrames.

Section DispatchFacts.
Context `{Structures}.

Lemma buildOtherIdxes_shape b r d1 d2 err :
  buildOtherIdxes b r d1 = Val (d2, err) ->
  (ds (meta (H r)) = DataStructureSet /\ exists m, d2 = set_SetIdx d1 m) \/
  (ds (meta (H r)) = DataStructureSortedSet /\ exists m, d2 = set_SortedSetIdx d1 m) \/
  (ds (meta (H r)) = DataStructureList /\ exists m, d2 = set_ListIdx d1 m) \/
  (ds (meta (H r)) <> DataStructureSet /\ ds (meta (H r)) <> DataStructureSortedSet /\
   ds (meta (H r)) <> DataStructureList /\ d2 = d1 /\ err = None).
Proof.
  unfold buildOtherIdxes, and_then, when, skip.
  destruct (Z.eqb_spec (ds (meta (H r))) DataStructureSet) as [E0|N0];
    destruct (Z.eqb_spec (ds (meta (H r))) DataStructureSortedSet) as [E1|N1];
    destruct (Z.eqb_spec (ds (meta (H r))) DataStructureList) as [E3|N3];
    try (exfalso; unfold DataStructureSet, DataStructureSortedSet, DataStructureList in *;
         congruence).
  - intros Heq. left. split; [exact E0|].
    destruct (buildSetIdx b r d1) as [[d [e|]]| |] eqn:Hb; inversion Heq; subst;
      eapply buildSetIdx_only; eassumption.
  - intros Heq. right. left. split; [exact E1|].
    destruct (buildSortedSetIdx b r d1) as [[d [e|]]| |] eqn:Hb; inversion Heq; subst;
      eapply buildSortedSetIdx_only; eassumption.
  - intros Heq. right. right. left. split; [exact E3|].
    destruct (buildListIdx b r d1) as [[d [e|]]| |] eqn:Hb; inversion Heq; subst;
      eapply buildListIdx_only; eassumption.
  - intros Heq. inversion Heq; subst. right. right. right. auto.
Qed.

Lemma set_meta_status_ds r st : ds (meta (H (set_meta_status r st))) = ds (meta (H r)).
Proof. reflexivity. Qed.

Ltac frame_done :=
  repeat split; intros; try reflexivity; try congruence;
  try match goal with Hor : _ \/ _ |- _ => destruct Hor; congruence end.

(** X2.  A record handed to the builders changes the index of its data
    structure and [KeyCount], and nothing else: the ordered-map index in
    the modes that are not sparse, the active ordered index in sparse
    mode, the set, sorted-set or list index for the other structures;
    [KeyCount] goes up by one exactly when the builders return nil. *)
Theorem dispatch_changes_one_index (r : Record_) (db db' : DB) (err : option error) :
  dispatch r db = Val (db', err) ->
  (opt db' = opt db /\ MaxFileID db' = MaxFileID db /\
   committedTxIds db' = committedTxIds db /\ ActiveFile db' = ActiveFile db /\
   closed db' = closed db /\ isMerging db' = isMerging db /\
   BPTreeRootIdxes db' = BPTreeRootIdxes db /\
   BPTreeKeyEntryPosMap db' = BPTreeKeyEntryPosMap db /\
   ActiveCommittedTxIdsIdx db' = ActiveCommittedTxIdsIdx db) /\
  (ds (meta (H r)) <> DataStructureSet -> SetIdx db' = SetIdx db) /\
  (ds (meta (H r)) <> DataStructureSortedSet -> SortedSetIdx db' = SortedSetIdx db) /\
  (ds (meta (H r)) <> DataStructureList -> ListIdx db' = ListIdx db) /\
  (ds (meta (H r)) <> DataStructureBPTree \/ is_sparse db = true ->
   BPTreeIdx db' = BPTreeIdx db) /\
  (ds (meta (H r)) <> DataStructureBPTree \/ is_sparse db = false ->
   ActiveBPTreeIdx db' = ActiveBPTreeIdx db) /\
  (err = None -> KeyCount db' = wrap_int64 (KeyCount db + 1)) /\
  (err <> None -> KeyCount db' = KeyCount db).
Proof.
  unfold dispatch, and_then.
  destruct (Z.eqb_spec (ds (meta (H r))) DataStructureBPTree) as [EB|NB].
  - (* an ordered-map record *)
    cbn [when].
    assert (Hother : forall d d2 e,
               buildOtherIdxes (bucket (meta (H r))) (set_meta_status r Committed) d
                 = Val (d2, e) -> d2 = d /\ e = None).
    { intros d d2 e Ho. apply buildOtherIdxes_shape in Ho.
      rewrite set_meta_status_ds in Ho.
      unfold DataStructureSet, DataStructureSortedSet, DataStructureList,
        DataStructureBPTree in *.
      destruct Ho as [[X _]|[[X _]|[[X _]|(_ & _ & _ & -> & ->)]]];
        try congruence. auto. }
    destruct (is_sparse db) eqn:Hs.
    + destruct (buildActiveBPTreeIdx _ db) as [[d1 [e1|]]| |] eqn:Hb; try discriminate;
        destruct (buildActiveBPTreeIdx_only _ _ _ _ Hb) as [m ->].
      * intros Heq. inversion Heq; subst.
        frame_done.
      * destruct (buildOtherIdxes _ _ _) as [[d2 [e2|]]| |] eqn:Ho; try discriminate;
          destruct (Hother _ _ _ Ho) as [-> He]; try discriminate.
        intros Heq. inversion Heq; subst.
        frame_done.
    + destruct (buildBPTreeIdx _ _ db) as [[d1 [e1|]]| |] eqn:Hb; try discriminate;
        destruct (buildBPTreeIdx_only _ _ _ _ _ Hb) as [m ->].
      * intros Heq. inversion Heq; subst.
        frame_done.
      * destruct (buildOtherIdxes _ _ _) as [[d2 [e2|]]| |] eqn:Ho; try discriminate;
          destruct (Hother _ _ _ Ho) as [-> He]; try discriminate.
        intros Heq. inversion Heq; subst.
        frame_done.
  - (* a set, sorted-set or list record *)
    cbn [when skip].
    destruct (buildOtherIdxes _ _ db) as [[d2 [e2|]]| |] eqn:Ho; try discriminate;
      apply buildOtherIdxes_shape in Ho;
      intros Heq; inversion Heq; subst;
      destruct Ho as [[X [m ->]]|[[X [m ->]]|[[X [m ->]]|(N0 & N1 & N3 & -> & Hn)]]];
      unfold DataStructureSet, DataStructureSortedSet, DataStructureList,
        DataStructureBPTree in *;
      frame_done.
Qed.

End DispatchFacts.

(** ** Counting keys, and builders that cannot fail or cannot go on *)

Section CountFacts.
Context `{Structures}.

Lemma wrap_int64_small (a : Z) : - 2 ^ 63 <= a < 2 ^ 63 -> wrap_int64 a = a.
Proof. intros Hr. unfold wrap_int64. rewrite Z.mod_small; lia. Qed.

Lemma wrap_int64_add_l (a b : Z) : wrap_int64 (wrap_int64 a + b) = wrap_int64 (a + b).
Proof.
  unfold wrap_int64.
  replace ((a + 2 ^ 63) mod 2 ^ 64 - 2 ^ 63 + b + 2 ^ 63)
    with ((a + 2 ^ 63) mod 2 ^ 64 + b) by lia.
  rewrite Zplus_mod_idemp_l.
  replace (a + 2 ^ 63 + b) with (a + b + 2 ^ 63) by lia. reflexivity.
Qed.

Lemma dispatch_KeyCount r db db' :
  dispatch r db = Val (db', None) -> KeyCount db' = wrap_int64 (KeyCount db + 1).
Proof.
  unfold dispatch, and_then. intros Heq.
  match type of Heq with
  | match ?step1 with _ => _ end = _ =>
      destruct step1 as [[d1 [e1|]]| |] eqn:S1; try discriminate
  end.
  assert (K1 : KeyCount d1 = KeyCount db).
  { unfold when in S1. destruct (_ =? _).
    - destruct (is_sparse db).
      + destruct (buildActiveBPTreeIdx_only _ _ _ _ S1) as [m ->]. reflexivity.
      + destruct (buildBPTreeIdx_only _ _ _ _ _ S1) as [m ->]. reflexivity.
    - inversion S1. reflexivity. }
  destruct (buildOtherIdxes _ _ d1) as [[d2 [e2|]]| |] eqn:S2; try discriminate.
  assert (K2 : KeyCount d2 = KeyCount d1).
  { apply buildOtherIdxes_shape in S2.
    destruct S2 as [[_ [m ->]]|[[_ [m ->]]|[[_ [m ->]]|(_ & _ & _ & -> & _)]]];
      reflexivity. }
  inversion Heq; subst. simpl. rewrite K2, K1. reflexivity.
Qed.

Lemma wrap_int64_range (a : Z) : - 2 ^ 63 <= wrap_int64 a < 2 ^ 63.
Proof.
  unfold wrap_int64.
  pose proof (Z.mod_pos_bound (a + 2 ^ 63) (2 ^ 64) ltac:(lia)). lia.
Qed.

Lemma dispatch_all_KeyCount (records : list Record_) :
  forall db db',
    - 2 ^ 63 <= KeyCount db < 2 ^ 63 ->
    dispatch_all records db = Val (db', None) ->
    KeyCount db' = wrap_int64 (KeyCount db + Z.of_nat (length records)).
Proof.
  induction records as [|r rest IH]; intros db db' Hr Heq; simpl in Heq.
  - inversion Heq; subst. simpl. rewrite Z.add_0_r.
    symmetry. apply wrap_int64_small. exact Hr.
  - unfold and_then in Heq.
    destruct (dispatch r db) as [[d1 [e1|]]| |] eqn:Hd; try discriminate.
    apply dispatch_KeyCount in Hd.
    apply IH in Heq; [|rewrite Hd; apply wrap_int64_range].
    rewrite Heq, Hd. rewrite wrap_int64_add_l.
    f_equal. simpl length. lia.
Qed.

(** X3.  When the loop of [buildHintIdx] returns nil, [KeyCount] has gone
    up by the number of records of committed transactions, whatever their
    opcode (in the arithmetic of Go's [int]). *)
Theorem buildHintIdx_apply_counts_committed (records : list Record_) (db db' : DB) :
  - 2 ^ 63 <= KeyCount db < 2 ^ 63 ->
  buildHintIdx_apply records db = Val (db', None) ->
  KeyCount db' =
  wrap_int64
    (KeyCount db +
     Z.of_nat (length (committed_records (committedTxIds db) records))).
Proof.
  intros Hr Heq. rewrite buildHintIdx_apply_committed in Heq.
  apply dispatch_all_KeyCount in Heq; assumption.
Qed.

(** X4.  With a resident entry the sorted-set builder never returns an
    error, whatever the opcode, the key and the score are: it returns nil
    and at most the sorted-set index has changed. *)
Theorem buildSortedSetIdx_never_fails (bkt : string) (r : Record_) (e : Entry)
    (db : DB) :
  E r = Some e ->
  exists m, buildSortedSetIdx bkt r db = Val (set_SortedSetIdx db m, None).
Proof.
  intros HE. unfold buildSortedSetIdx, and_then, when, skip, on_zset. rewrite HE.
  destruct (Flag (meta (H r)) =? DataZAddFlag);
    [destruct (strings_Split (Key e) SeparatorForZSetKey) as [|k0 [|s0 [|x l]]]|];
    destruct (Flag (meta (H r)) =? DataZRemFlag);
    destruct (Flag (meta (H r)) =? DataZRemRangeByRankFlag);
    destruct (Flag (meta (H r)) =? DataZPopMaxFlag);
    destruct (Flag (meta (H r)) =? DataZPopMinFlag);
    eexists; reflexivity.
Qed.

(** X5.  A list-set or list-trim record whose key holds no
    [SeparatorForListKey] makes the list builder index its split key out
    of range: recovery panics. *)
Theorem buildListIdx_key_without_index_panics (bkt : string) (r : Record_)
    (e : Entry) (db : DB) :
  E r = Some e ->
  Flag (meta (H r)) = DataLSetFlag \/ Flag (meta (H r)) = DataLTrimFlag ->
  (length (strings_Split (Key e) SeparatorForListKey) < 2)%nat ->
  buildListIdx bkt r db = Crash.
Proof.
  intros HE Hflag Hlen. unfold buildListIdx, index_or_crash. rewrite HE.
  destruct (strings_Split (Key e) SeparatorForListKey) as [|k0 [|k1 l]];
    simpl in Hlen; try lia;
    destruct Hflag as [-> | ->]; reflexivity.
Qed.

End CountFacts.

(** ** What merge keeps and how it rewrites *)

Section RewriteFacts.
Context `{Platform}.

Ltac split_stage Hs :=
  repeat match type of Hs with
         | (if ?c then _ else _) = Val _ => destruct c eqn:?
         | res_bind _ _ = Val _ =>
             let a := fresh "a" in
             let Ha := fresh "Ha" in
             apply res_bind_Val in Hs as (a & Ha & Hs)
         | match ?x with inl _ => _ | inr _ => _ end = Val _ => destruct x
         | match ?x with [] => _ | _ :: _ => _ end = Val _ => destruct x
         end.

Ltac ds_consts :=
  unfold DataStructureBPTree, DataStructureSet, DataStructureSortedSet,
    DataStructureList in *.

(** X6.  [getPendingMergeEntries] returns the list it was given, or that
    list with the entry added at its end; a list record that is not a
    push (a list-set record, say) is never added, and neither is a record
    of an unknown data structure. *)
Theorem getPendingMergeEntries_adds_at_most_the_entry (d : DB) (e : Entry)
    (pending pending' : list Entry) :
  getPendingMergeEntries d e pending = Val pending' ->
  (pending' = pending \/ pending' = (pending ++ [e])%list) /\
  (ds (Meta e) = DataStructureList ->
   Flag (Meta e) <> DataLPushFlag -> Flag (Meta e) <> DataRPushFlag ->
   pending' = pending) /\
  (ds (Meta e) <> DataStructureBPTree -> ds (Meta e) <> DataStructureSet ->
   ds (Meta e) <> DataStructureSortedSet -> ds (Meta e) <> DataStructureList ->
   pending' = pending).
Proof.
  unfold getPendingMergeEntries. intros Heq.
  apply res_bind_Val in Heq as (p1 & S1 & Heq).
  apply res_bind_Val in Heq as (p2 & S2 & Heq).
  apply res_bind_Val in Heq as (p3 & S3 & Heq).
  destruct (Z.eqb_spec (ds (Meta e)) DataStructureBPTree) as [EB|NB];
    destruct (Z.eqb_spec (ds (Meta e)) DataStructureSet) as [ES|NS];
    destruct (Z.eqb_spec (ds (Meta e)) DataStructureSortedSet) as [EZ|NZ];
    destruct (Z.eqb_spec (ds (Meta e)) DataStructureList) as [EL|NL];
    try (exfalso; ds_consts; congruence).
  - (* ordered map *)
    inversion S2; inversion S3; inversion Heq; subst.
    split_stage S1; inversion S1; subst; repeat split; auto; intros; ds_consts; congruence.
  - (* set *)
    inversion S1; inversion S3; inversion Heq; subst.
    split_stage S2; inversion S2; subst; repeat split; auto; intros; ds_consts; congruence.
  - (* sorted set *)
    inversion S1; inversion S2; inversion Heq; subst.
    split_stage S3; inversion S3; subst; repeat split; auto; intros; ds_consts; congruence.
  - (* list *)
    inversion S1; inversion S2; inversion S3; subst.
    apply res_bind_Val in Heq as (items & _ & Heq).
    destruct (Z.eqb_spec (Flag (Meta e)) DataRPushFlag) as [ER|NR];
      destruct (Z.eqb_spec (Flag (Meta e)) DataLPushFlag) as [EP|NP];
      simpl in Heq;
      try (destruct (existsb (String.eqb (Value e)) items));
      inversion Heq; subst; repeat split; auto; intros;
      unfold DataRPushFlag, DataLPushFlag in *; ds_consts; congruence.
  - inversion S1; inversion S2; inversion S3; inversion Heq; subst.
    repeat split; auto.
Qed.

Lemma reWriteData_puts_log tx entries :
  forall s err s',
    reWriteData_puts tx entries s = (err, s') ->
    match err with
    | None => st_log s' = (st_log s ++ map put_of entries)%list
    | Some _ =>
        isMerging (st_db s') = false /\
        exists evs, st_log s' = (st_log s ++ evs)%list /\ ~ In EvCommit evs
    end.
Proof.
  induction entries as [|e rest IH]; intros s err s' Heq; simpl in Heq.
  - inversion Heq; subst. simpl. symmetry. apply app_nil_r.
  - destruct (call_put _ _ _ _ _ _ _ _ s) as [[e1|] s1] eqn:Hp;
      apply lift_tx_spec in Hp as [L1 _].
    + destruct (call_Rollback tx s1) as [r2 s2] eqn:Hr.
      apply lift_tx_spec in Hr as [L2 _].
      inversion Heq; subst. split; [reflexivity|].
      exists [put_of e; EvRollback]. split.
      * simpl. rewrite L2, L1. rewrite <- app_assoc. reflexivity.
      * simpl. intros [X|[X|[]]]; discriminate.
    + apply IH in Heq. destruct err as [e2|].
      * destruct Heq as [Hm (evs & L & Hn)]. split; [exact Hm|].
        exists (put_of e :: evs). split.
        -- rewrite L, L1. rewrite <- app_assoc. reflexivity.
        -- simpl. intros [X|X]; [discriminate|auto].
      * rewrite Heq, L1. rewrite <- app_assoc. reflexivity.
Qed.

(** X7.  [reWriteData] that returns nil has made exactly these calls: one
    [Begin(true)], one [NewDataFile], one [tx.put] per pending entry in
    the order of the list, then one [Commit].  When it returns an error,
    [isMerging] has been reset and [Commit] was not called. *)
Theorem reWriteData_is_one_transaction (entries : list Entry) (s : State)
    (err : option error) (s' : State) :
  reWriteData entries s = (err, s') ->
  match err with
  | None =>
      exists p,
        st_log s' =
        (st_log s ++ EvBegin true :: EvNewDataFile p :: map put_of entries
           ++ [EvCommit])%list
  | Some _ =>
      isMerging (st_db s') = false /\
      exists evs, st_log s' = (st_log s ++ evs)%list /\ ~ In EvCommit evs
  end.
Proof.
  unfold reWriteData. intros Heq.
  destruct (call_Begin true s) as [[e1|tx] s1] eqn:Hb;
    apply lift_tx_spec in Hb as [L1 _].
  - inversion Heq; subst. split; [reflexivity|].
    exists [EvBegin true]. split; [exact L1|].
    simpl. intros [X|[]]; discriminate.
  - destruct (call_NewDataFile _ _ _ s1) as [[e2|dataFile] s2] eqn:Hn;
      apply call_NewDataFile_spec in Hn as [D2 L2].
    + inversion Heq; subst. split; [reflexivity|].
      eexists. split; [simpl; rewrite L2, L1; rewrite <- app_assoc; reflexivity|].
      simpl. intros [X|[X|[]]]; discriminate.
    + match type of Heq with
      | match reWriteData_puts _ _ ?s3 with _ => _ end = _ =>
          destruct (reWriteData_puts tx entries s3) as [[e3|] s4] eqn:Hputs;
          apply reWriteData_puts_log in Hputs
      end.
      * inversion Heq; subst. destruct Hputs as [Hm (evs & L & Hno)].
        split; [exact Hm|].
        exists (EvBegin true :: EvNewDataFile
                  (getDataPath (st_db s1) (wrap_int64 (MaxFileID (st_db s1) + 1)))
                  :: evs).
        split.
        -- rewrite L. simpl. rewrite L2, L1. rewrite <- !app_assoc. reflexivity.
        -- simpl. intros [X|[X|X]]; try discriminate. auto.
      * destruct (call_Commit tx s4) as [r5 s5] eqn:Hc.
        apply lift_tx_spec in Hc as [L5 _].
        inversion Heq; subst.
        exists (getDataPath (st_db s1) (wrap_int64 (MaxFileID (st_db s1) + 1))).
        rewrite L5, Hputs. simpl. rewrite L2, L1.
        rewrite <- !app_assoc. reflexivity.
Qed.

End RewriteFacts.

(** ** What recovery reads and what it leaves alone *)

Section RecoveryFrames.
Context `{Platform}.

(** The fields of the [DB] struct that recovery does not write. *)
Definition header_same (d d' : DB) : Prop :=
  opt d' = opt d /\ MaxFileID d' = MaxFileID d /\ ActiveFile d' = ActiveFile d /\
  closed d' = closed d /\ isMerging d' = isMerging d.

Lemma header_same_refl d : header_same d d.
Proof. repeat split. Qed.

Lemma header_same_trans d1 d2 d3 :
  header_same d1 d2 -> header_same d2 d3 -> header_same d1 d3.
Proof.
  unfold header_same. intros (A1 & A2 & A3 & A4 & A5) (B1 & B2 & B3 & B4 & B5).
  repeat split; congruence.
Qed.

Lemma dispatch_header r db db' err :
  dispatch r db = Val (db', err) -> header_same db db'.
Proof.
  unfold dispatch, and_then. intros Heq.
  match type of Heq with
  | match ?step1 with _ => _ end = _ =>
      destruct step1 as [[d1 e1]| |] eqn:S1; try discriminate
  end.
  assert (K1 : header_same db d1).
  { unfold when in S1. destruct (_ =? _).
    - destruct (is_sparse db).
      + destruct (buildActiveBPTreeIdx_only _ _ _ _ S1) as [m ->]. repeat split.
      + destruct (buildBPTreeIdx_only _ _ _ _ _ S1) as [m ->]. repeat split.
    - inversion S1. repeat split. }
  destruct e1 as [e1|]; [inversion Heq; subst; exact K1|].
  destruct (buildOtherIdxes _ _ d1) as [[d2 e2]| |] eqn:S2; try discriminate.
  assert (K2 : header_same d1 d2).
  { apply buildOtherIdxes_shape in S2.
    destruct S2 as [[_ [m ->]]|[[_ [m ->]]|[[_ [m ->]]|(_ & _ & _ & -> & _)]]];
      repeat split. }
  destruct e2 as [e2|]; inversion Heq; subst.
  - eapply header_same_trans; eassumption.
  - eapply header_same_trans; [exact K1|].
    eapply header_same_trans; [exact K2|]. repeat split.
Qed.

Lemma buildHintIdx_apply_header (records : list Record_) :
  forall db db' err,
    buildHintIdx_apply records db = Val (db', err) -> header_same db db'.
Proof.
  induction records as [|r rest IH]; intros db db' err Heq; simpl in Heq.
  - inversion Heq; subst. apply header_same_refl.
  - unfold and_then in Heq.
    destruct (decide (txID (meta (H r)) ∈ committedTxIds db)).
    + destruct (dispatch r db) as [[d1 [e1|]]| |] eqn:Hd; try discriminate.
      * inversion Heq; subst. eapply dispatch_header; eassumption.
      * eapply header_same_trans; [eapply dispatch_header; eassumption|].
        eapply IH; eassumption.
    + eapply IH; eassumption.
Qed.

(** The calls recovery makes: it opens, reads and closes data files. *)
Definition recovery_event (ev : Event) : Prop :=
  match ev with
  | EvNewDataFile _ | EvReadAt _ _ | EvClose _ => True
  | _ => False
  end.

(** [E] is resident exactly in [HintKeyValAndRAMIdxMode], and is then the
    entry the hint points to. *)
Definition resident_as (mode : EntryIdxMode) (r : Record_) : Prop :=
  match E r with
  | Some e =>
      mode = HintKeyValAndRAMIdxMode /\ Key e = key (H r) /\ Meta e = meta (H r)
  | None => mode <> HintKeyValAndRAMIdxMode
  end.

Definition parse_inv (mode : EntryIdxMode) (records : list Record_)
    (committed : gset Z) : Prop :=
  (forall t, t ∈ committed <->
             exists r, In r records /\ txID (meta (H r)) = t /\
                       status (meta (H r)) = Committed) /\
  Forall (resident_as mode) records.

Lemma parse_inv_nil mode : parse_inv mode [] ∅.
Proof.
  split; [|constructor]. intros t. split.
  - intros Hin. exfalso. revert Hin. apply not_elem_of_empty.
  - intros (r & [] & _).
Qed.

Lemma parse_inv_step mode records committed entry fID off :
  parse_inv mode records committed ->
  parse_inv mode
    (records ++
       [mkRecord (mkHint (Key entry) fID (Meta entry) (to_uint64 off))
          (if mode_eqb mode HintKeyValAndRAMIdxMode
           then Some (mkEntry (Key entry) (Value entry) (Meta entry))
           else None)])%list
    (if status (Meta entry) =? Committed
     then {[ txID (Meta entry) ]} ∪ committed else committed).
Proof.
  intros [Hc Hr]. split.
  - intros t. destruct (Z.eqb_spec (status (Meta entry)) Committed) as [Hst|Hst].
    + rewrite elem_of_union, elem_of_singleton, Hc. split.
      * intros [->|(r & Hin & Ht & Hs)].
        -- eexists. split; [apply in_or_app; right; left; reflexivity|]. auto.
        -- exists r. split; [apply in_or_app; left; exact Hin|]. auto.
      * intros (r & Hin & Ht & Hs). apply in_app_or in Hin as [Hin|[<-|[]]].
        -- right. exists r. auto.
        -- left. simpl in Ht. congruence.
    + rewrite Hc. split.
      * intros (r & Hin & Ht & Hs). exists r.
        split; [apply in_or_app; left; exact Hin|]. auto.
      * intros (r & Hin & Ht & Hs). apply in_app_or in Hin as [Hin|[<-|[]]].
        -- exists r. auto.
        -- simpl in Hs. congruence.
  - apply Forall_app. split; [exact Hr|]. constructor; [|constructor].
    unfold resident_as. simpl.
    destruct mode; simpl; repeat split; congruence.
Qed.

Lemma parseDataFiles_scan_facts fuel path f fID :
  forall off records committed s ex s',
    parse_inv (EntryIdxMode_ (opt (st_db s))) records committed ->
    parseDataFiles_scan fuel path f fID off records committed s = Val (ex, s') ->
    header_same (st_db s) (st_db s') /\
    extends recovery_event s s' /\
    match ex with
    | Break (records', committed') =>
        parse_inv (EntryIdxMode_ (opt (st_db s))) records' committed'
    | Return _ => True
    end.
Proof.
  induction fuel as [|fuel IH]; intros off records committed s ex s' Hinv Heq;
    [discriminate|].
  simpl in Heq.
  assert (X0 : extends recovery_event s (logged s (EvReadAt path off)))
    by (eapply extends_one; [reflexivity|exact Logic.I]).
  destruct (DataFile_ReadAt f off (st_world s)) as [entry| |err].
  - pose proof (parse_inv_step _ _ _ entry fID off Hinv) as Hstep.
    unfold is_sparse in Heq.
    destruct (status (Meta entry) =? Committed);
      cbn [opt set_ActiveCommittedTxIdsIdx st_db with_db logged] in Heq;
      destruct (mode_eqb (EntryIdxMode_ (opt (st_db s))) HintBPTSparseIdxMode);
      apply IH in Heq as (Hh & Hx & Hex);
      try exact Hstep;
      (split; [destruct Hh as (A1 & A2 & A3 & A4 & A5); repeat split; assumption|];
       split; [eapply extends_trans; [exact X0|];
               destruct Hx as (evs & L & F); exists evs; split; assumption|];
       exact Hex).
  - inversion Heq; subst.
    split; [repeat split|]. split; [exact X0|exact Hinv].
  - destruct err;
      try (inversion Heq; subst;
           split; [repeat split|]; split; [exact X0|exact Hinv]);
      destruct (_ >=? _); inversion Heq; subst;
      (split; [repeat split|]);
      solve [ split; [exact X0|exact Hinv]
            | split; [|exact Logic.I];
              eapply extends_trans; [exact X0|];
              eapply extends_one; [reflexivity|exact Logic.I] ].
Qed.

Lemma parseDataFiles_loop_facts fuel ids :
  forall records committed s recs c err s',
    parse_inv (EntryIdxMode_ (opt (st_db s))) records committed ->
    parseDataFiles_loop fuel ids records committed s = Val ((recs, c, err), s') ->
    header_same (st_db s) (st_db s') /\
    extends recovery_event s s' /\
    parse_inv (EntryIdxMode_ (opt (st_db s))) recs c /\
    (err <> None -> recs = [] /\ c = ∅).
Proof.
  induction ids as [|id rest IH]; intros records committed s recs c err s' Hinv Heq;
    simpl in Heq.
  - inversion Heq; subst. split; [apply header_same_refl|].
    split; [apply extends_refl|]. split; [exact Hinv|congruence].
  - destruct (call_NewDataFile _ _ _ s) as [[e1|f] s1] eqn:Hn;
      apply call_NewDataFile_spec in Hn as [D1 L1];
      pose proof (extends_one recovery_event _ _ _ L1 Logic.I) as X1.
    + inversion Heq; subst. split; [rewrite D1; apply header_same_refl|].
      split; [exact X1|]. split; [apply parse_inv_nil|auto].
    + apply res_bind_Val in Heq as ([ex s2] & Hscan & Heq).
      apply parseDataFiles_scan_facts in Hscan as (Hh & Hx & Hex);
        [|rewrite D1; exact Hinv].
      rewrite D1 in Hh, Hex.
      destruct ex as [[records' committed']|err0].
      * destruct Hh as (A1 & A2 & A3 & A4 & A5).
        assert (Hinv2 : parse_inv
                          (EntryIdxMode_
                             (opt (st_db (call_Close (getDataPath (st_db s) id) f s2))))
                          records' committed')
          by (unfold call_Close; cbn [st_db logged with_world]; rewrite A1; exact Hex).
        destruct (IH _ _ _ _ _ _ _ Hinv2 Heq) as (Hh' & Hx' & Hinv' & Herr).
        unfold call_Close in Hh', Hinv'. cbn [st_db logged with_world] in Hh', Hinv'.
        rewrite A1 in Hinv'.
        split; [eapply header_same_trans; [|exact Hh']; repeat split; assumption|].
        split; [|split; assumption].
        eapply extends_trans; [exact X1|]. eapply extends_trans; [exact Hx|].
        eapply extends_trans; [|exact Hx'].
        eapply extends_one; [reflexivity|exact Logic.I].
      * inversion Heq; subst. split; [exact Hh|].
        split; [eapply extends_trans; eassumption|].
        split; [apply parse_inv_nil|auto].
Qed.

(** X8.  What [parseDataFiles] returns: a transaction id is in the
    committed set exactly when one of the returned records carries it
    with status committed; every record holds a resident entry in
    [HintKeyValAndRAMIdxMode] and none in the other modes; and with an
    error come no records and an empty set. *)
Theorem parseDataFiles_committed_set (fuel : nat) (ids : list Z) (s : State)
    (recs : list Record_) (c : gset Z) (err : option error) (s' : State) :
  parseDataFiles fuel ids s = Val ((recs, c, err), s') ->
  (forall t, t ∈ c <->
             exists r, In r recs /\ txID (meta (H r)) = t /\
                       status (meta (H r)) = Committed) /\
  Forall (resident_as (EntryIdxMode_ (opt (st_db s)))) recs /\
  (err <> None -> recs = [] /\ c = ∅).
Proof.
  unfold parseDataFiles. intros Heq.
  destruct (is_sparse (st_db s)); [destruct ids as [|i0 ids]; [discriminate|]|];
    apply parseDataFiles_loop_facts in Heq as (_ & _ & [Hc Hr] & Herr);
    try apply parse_inv_nil; repeat split; try apply Hc; auto; apply Herr; assumption.
Qed.

Lemma parseDataFiles_frame fuel ids s recs c err s' :
  parseDataFiles fuel ids s = Val ((recs, c, err), s') ->
  header_same (st_db s) (st_db s') /\ extends recovery_event s s'.
Proof.
  unfold parseDataFiles. intros Heq.
  destruct (is_sparse (st_db s)); [destruct ids as [|i0 ids]; [discriminate|]|];
    apply parseDataFiles_loop_facts in Heq as (Hh & Hx & _);
    try apply parse_inv_nil; split; assumption.
Qed.

End RecoveryFrames.

Section OpenFacts.
Context `{Platform}.
Variable DataFile_with_fileID : DataFile -> Z -> DataFile.
Variable DataFile_with_writeOff : DataFile -> Z -> DataFile.
Variable DataFile_with_ActualSize : DataFile -> Z -> DataFile.
Variable PathIsExist : string -> World -> bool.
Variable MkdirAll : string -> World -> option error * World.

(** The database with root indexes added, and nothing else changed. *)
Definition roots_added (d d' : DB) : Prop :=
  exists l, d' = set_BPTreeRootIdxes d (BPTreeRootIdxes d ++ l)%list.

Lemma roots_added_refl d : roots_added d d.
Proof. exists []. rewrite app_nil_r. destruct d; reflexivity. Qed.

Lemma roots_added_trans d1 d2 d3 :
  roots_added d1 d2 -> roots_added d2 d3 -> roots_added d1 d3.
Proof.
  intros [l1 ->] [l2 ->]. exists (l1 ++ l2)%list. simpl.
  rewrite <- app_assoc. reflexivity.
Qed.

Lemma buildBPTreeRootIdxes_scan_facts fuel path :
  forall off s err s',
    buildBPTreeRootIdxes_scan fuel path off s = Val (err, s') ->
    st_world s' = st_world s /\ st_log s' = st_log s /\
    roots_added (st_db s) (st_db s').
Proof.
  induction fuel as [|fuel IH]; intros off s err s' Heq; [discriminate|].
  simpl in Heq.
  destruct (ReadBPTreeRootIdxAt path off (st_world s)) as [[bs|] [e|]].
  - destruct e; inversion Heq; subst; repeat split; apply roots_added_refl.
  - apply IH in Heq as (W & L & [l R]). simpl in W, L, R.
    repeat split; try assumption.
    exists (bs :: l). rewrite R. simpl. rewrite <- app_assoc. reflexivity.
  - destruct e; inversion Heq; subst; repeat split; apply roots_added_refl.
  - inversion Heq; subst. repeat split. apply roots_added_refl.
Qed.

Lemma buildBPTreeRootIdxes_loop_facts fuel fIDs :
  forall s err s',
    buildBPTreeRootIdxes_loop fuel fIDs s = Val (err, s') ->
    st_world s' = st_world s /\ st_log s' = st_log s /\
    roots_added (st_db s) (st_db s').
Proof.
  induction fIDs as [|fID rest IH]; intros s err s' Heq; simpl in Heq.
  - inversion Heq; subst. repeat split. apply roots_added_refl.
  - apply res_bind_Val in Heq as ([e1 s1] & Hscan & Heq).
    apply buildBPTreeRootIdxes_scan_facts in Hscan as (W1 & L1 & R1).
    destruct e1 as [e1|].
    + inversion Heq; subst. repeat split; assumption.
    + apply IH in Heq as (W2 & L2 & R2).
      repeat split; try congruence. eapply roots_added_trans; eassumption.
Qed.

(** X9.  [buildBPTreeRootIdxes] reads root indexes only: the directory,
    the log of calls and every field but [BPTreeRootIdxes] and
    [committedTxIds] are as before, and root indexes are only added.
    With one segment it does nothing at all; with more, a run that
    returns nil leaves [committedTxIds] empty, and a run that returns an
    error leaves it as it was. *)
Theorem buildBPTreeRootIdxes_facts (fuel : nat) (ids : list Z) (s : State)
    (err : option error) (s' : State) :
  buildBPTreeRootIdxes fuel ids s = Val (err, s') ->
  st_world s' = st_world s /\ st_log s' = st_log s /\
  (exists d1, roots_added (st_db s) d1 /\
              (st_db s' = d1 \/ st_db s' = set_committedTxIds d1 ∅)) /\
  (length ids = 1%nat -> s' = s /\ err = None) /\
  (err = None -> (2 <= length ids)%nat -> committedTxIds (st_db s') = ∅) /\
  (err <> None -> committedTxIds (st_db s') = committedTxIds (st_db s)).
Proof.
  unfold buildBPTreeRootIdxes. intros Heq.
  destruct ids as [|i0 [|i1 ids]]; [discriminate| |].
  - inversion Heq; subst. repeat split; try congruence; try (simpl; lia).
    exists (st_db s'). split; [apply roots_added_refl|left; reflexivity].
  - apply res_bind_Val in Heq as ([e1 s1] & Hloop & Heq).
    apply buildBPTreeRootIdxes_loop_facts in Hloop as (W1 & L1 & R1).
    destruct e1 as [e1|]; inversion Heq; subst.
    + split; [exact W1|]. split; [exact L1|]. split.
      { exists (st_db s'). split; [exact R1|left; reflexivity]. }
      split; [simpl; intros; lia|]. split; [intros; congruence|].
      intros _. destruct R1 as [l R]. rewrite R. reflexivity.
    + split; [exact W1|]. split; [exact L1|]. split.
      { exists (st_db s1). split; [exact R1|right; reflexivity]. }
      split; [simpl; intros; lia|]. split; [intros; reflexivity|].
      intros; congruence.
Qed.

Lemma roots_added_header d d' : roots_added d d' -> header_same d d'.
Proof. intros [l ->]. repeat split. Qed.

Lemma buildBPTreeRootIdxes_frame fuel ids s err s' :
  buildBPTreeRootIdxes fuel ids s = Val (err, s') ->
  st_log s' = st_log s /\ header_same (st_db s) (st_db s').
Proof.
  unfold buildBPTreeRootIdxes. intros Heq.
  destruct ids as [|i0 [|i1 ids]]; [discriminate| |].
  - inversion Heq; subst. split; [reflexivity|apply header_same_refl].
  - apply res_bind_Val in Heq as ([e1 s1] & Hloop & Heq).
    apply buildBPTreeRootIdxes_loop_facts in Hloop as (W1 & L1 & R1).
    apply roots_added_header in R1.
    destruct e1 as [e1|]; inversion Heq; subst; split; assumption.
Qed.

Lemma buildHintIdx_frame fuel ids s err s' :
  buildHintIdx fuel ids s = Val (err, s') ->
  header_same (st_db s) (st_db s') /\ extends recovery_event s s'.
Proof.
  unfold buildHintIdx. intros Heq.
  apply res_bind_Val in Heq as ([[[recs c] e0] s1] & Hparse & Heq).
  apply parseDataFiles_frame in Hparse as [Hh Hx].
  assert (Hh1 : header_same (st_db s)
                  (st_db (with_db s1 (fun d => set_committedTxIds d c))))
    by (destruct Hh as (A1 & A2 & A3 & A4 & A5); repeat split; assumption).
  assert (Hx1 : extends recovery_event s
                  (with_db s1 (fun d => set_committedTxIds d c)))
    by (apply extends_with_db; exact Hx).
  destruct e0 as [e0|]; [inversion Heq; subst; split; assumption|].
  destruct recs as [|r rest]; [inversion Heq; subst; split; assumption|].
  apply res_bind_Val in Heq as ([d e1] & Happly & Heq).
  apply buildHintIdx_apply_header in Happly.
  assert (Hh2 : header_same (st_db s) d)
    by (eapply header_same_trans; [exact Hh1|exact Happly]).
  destruct e1 as [e1|].
  - inversion Heq; subst. split; [exact Hh2|]. apply extends_with_db. exact Hx.
  - cbn [st_db with_db] in Heq. destruct (is_sparse d).
    + apply buildBPTreeRootIdxes_frame in Heq as [L Hh3]. simpl in L, Hh3.
      split; [eapply header_same_trans; eassumption|].
      destruct Hx as (evs & Le & F). exists evs. split; [congruence|exact F].
    + inversion Heq; subst. split; [exact Hh2|]. apply extends_with_db. exact Hx.
Qed.

End OpenFacts.

(** ** Opening, closing and backing up *)

Section LifecycleFacts.
Context `{Platform}.
Variable DataFile_with_fileID : DataFile -> Z -> DataFile.
Variable DataFile_with_writeOff : DataFile -> Z -> DataFile.
Variable DataFile_with_ActualSize : DataFile -> Z -> DataFile.
Variable PathIsExist : string -> World -> bool.
Variable MkdirAll : string -> World -> option error * World.
Variable CopyDir : string -> string -> World -> option error * World.

(** The database with another active file, and nothing else changed. *)
Definition active_file_changed (d d' : DB) : Prop :=
  exists af, d' = set_ActiveFile d af.

Lemma active_file_changed_refl d : active_file_changed d d.
Proof. exists (ActiveFile d). destruct d; reflexivity. Qed.

Lemma getActiveFileWriteOff_facts fuel :
  forall off s off' err s',
    getActiveFileWriteOff DataFile_with_ActualSize fuel off s = Val ((off', err), s') ->
    st_world s' = st_world s /\
    extends recovery_event s s' /\
    active_file_changed (st_db s) (st_db s') /\
    (forall e, err = Some e ->
       off' = -1 /\
       exists cause,
         cause <> io_EOF /\
         e = fmt_Errorf "when build activeDataIndex readAt err: " cause).
Proof.
  induction fuel as [|fuel IH]; intros off s off' err s' Heq; [discriminate|].
  simpl in Heq.
  destruct (ActiveFile (st_db s)) as [f|]; [|discriminate].
  assert (X0 : extends recovery_event s
                 (logged s (EvReadAt (active_path (st_db s)) off)))
    by (eapply extends_one; [reflexivity|exact Logic.I]).
  destruct (DataFile_ReadAt f off (st_world s)) as [item| |e0].
  - apply IH in Heq as (W & X & [af A] & E0). simpl in W, A.
    split; [exact W|]. split.
    + eapply extends_trans; [exact X0|].
      destruct X as (evs & L & F). exists evs. split; assumption.
    + split; [|exact E0]. exists af. rewrite A. reflexivity.
  - inversion Heq; subst. split; [reflexivity|]. split; [exact X0|].
    split; [apply active_file_changed_refl|]. intros e Hc. discriminate.
  - destruct e0; inversion Heq; subst;
      (split; [reflexivity|]; split; [exact X0|];
       split; [apply active_file_changed_refl|]);
      intros e Hc; try discriminate;
      inversion Hc; subst; (split; [reflexivity|]);
      eexists; (split; [|reflexivity]); discriminate.
Qed.

(** X10.  [getActiveFileWriteOff] has no tolerance for a torn tail: any
    read error that is not EOF, at whatever offset (also at
    [SegmentSize] or beyond, where [parseDataFiles] would stop without an
    error), makes it return -1 and the wrapped error.  It writes nothing
    but the [ActualSize] of the active file. *)
Theorem getActiveFileWriteOff_surfaces_read_errors (fuel : nat) (off : Z)
    (s : State) (f : DataFile) :
  ActiveFile (st_db s) = Some f ->
  (forall cause,
     DataFile_ReadAt f off (st_world s) = ReadErr cause ->
     cause <> io_EOF ->
     getActiveFileWriteOff DataFile_with_ActualSize (S fuel) off s =
     Val ((-1, Some (fmt_Errorf "when build activeDataIndex readAt err: " cause)),
          logged s (EvReadAt (active_path (st_db s)) off))) /\
  (forall off' err s',
     getActiveFileWriteOff DataFile_with_ActualSize fuel off s = Val ((off', err), s') ->
     st_world s' = st_world s /\
     active_file_changed (st_db s) (st_db s') /\
     (err <> None -> off' = -1)).
Proof.
  intros Haf. split.
  - intros cause Hr Hne. simpl. rewrite Haf, Hr. destruct cause; congruence.
  - intros off' err s' Heq.
    apply getActiveFileWriteOff_facts in Heq as (W & _ & A & E0).
    split; [exact W|]. split; [exact A|].
    intros Hne. destruct err as [e|]; [|congruence].
    destruct (E0 e eq_refl) as [-> _]. reflexivity.
Qed.

Lemma getMaxFileIDAndFileIDs_none (s : State) :
  snd (getMaxFileIDAndFileIDs s) = [] -> fst (getMaxFileIDAndFileIDs s) = 0.
Proof.
  unfold getMaxFileIDAndFileIDs.
  destruct (match ioutil_ReadDir _ _ with inl _ => [] | inr files => files end)
    as [|f0 files]; [reflexivity|].
  destruct (collect_dataFileIds (f0 :: files) []) as [|i0 ids] eqn:Hc;
    [reflexivity|].
  cbv beta iota. unfold fst, snd. intros Hnil. exfalso.
  assert (Hlen : length (sort_Ints (i0 :: ids)) = length (i0 :: ids)).
  { clear. generalize (i0 :: ids). intros l.
    induction l as [|x l IH]; [reflexivity|]. simpl.
    assert (Hins : forall y m, length (insert_sorted y m) = S (length m)).
    { intros y m. induction m as [|z m IHm]; [reflexivity|]. simpl.
      destruct (Z.leb y z); simpl; [reflexivity|]. rewrite IHm. reflexivity. }
    rewrite Hins, IH. reflexivity. }
  rewrite Hnil in Hlen. discriminate.
Qed.

(** X11.  [buildIndexes] sets [MaxFileID] to the maximum that
    [getMaxFileIDAndFileIDs] returned, whether it then fails or not; it
    opens, reads and closes data files and makes no other call (no
    removal, no transaction); it leaves the options and the [closed] and
    [isMerging] flags alone.  In a directory without segment files it
    only opens [0.dat] and reads nothing. *)
Theorem buildIndexes_sets_MaxFileID_and_only_reads (fuel : nat) (s : State)
    (err : option error) (s' : State) :
  buildIndexes DataFile_with_fileID DataFile_with_writeOff DataFile_with_ActualSize
    fuel s = Val (err, s') ->
  MaxFileID (st_db s') = fst (getMaxFileIDAndFileIDs s) /\
  opt (st_db s') = opt (st_db s) /\
  closed (st_db s') = closed (st_db s) /\
  isMerging (st_db s') = isMerging (st_db s) /\
  extends recovery_event s s' /\
  (snd (getMaxFileIDAndFileIDs s) = [] ->
   st_log s' = (st_log s ++ [EvNewDataFile (getDataPath (st_db s) 0)])%list /\
   KeyCount (st_db s') = KeyCount (st_db s)).
Proof.
  unfold buildIndexes. intros Heq.
  pose proof (getMaxFileIDAndFileIDs_none s) as Hnone.
  destruct (getMaxFileIDAndFileIDs s) as [mx ids]. cbn [fst snd] in *.
  unfold setActiveFile in Heq.
  destruct (call_NewDataFile _ _ _ _) as [[e1|f] s1] eqn:Hn;
    apply call_NewDataFile_spec in Hn as [D1 L1];
    cbn [st_db st_log with_db MaxFileID opt set_MaxFileID] in D1, L1;
    pose proof (extends_one recovery_event _ _ _ L1 Logic.I) as X1.
  - inversion Heq; subst. simpl. rewrite D1. simpl.
    do 4 (split; [reflexivity|]).
    split; [apply extends_with_db; exact X1|].
    intros Hnil. split; [|reflexivity].
    rewrite (Hnone Hnil) in L1. exact L1.
  - destruct ids as [|i0 ids].
    + rewrite (Hnone eq_refl) in *. cbn [andb Z.eqb] in Heq.
      inversion Heq; subst. simpl. rewrite D1. simpl.
      do 4 (split; [reflexivity|]).
      split; [apply extends_with_db; exact X1|].
      intros _. split; [exact L1|reflexivity].
    + cbn [andb] in Heq.
      apply res_bind_Val in Heq as ([[off e2] s2] & Hoff & Heq).
      apply getActiveFileWriteOff_facts in Hoff as (W2 & X2 & [af A2] & _).
      simpl in A2. rewrite D1 in A2. simpl in A2.
      destruct (ActiveFile (st_db s2)) as [f2|]; [|discriminate].
      assert (X12 : extends recovery_event s s2).
      { eapply extends_trans; [exact X1|].
        destruct X2 as (evs & L & F). exists evs. split; assumption. }
      destruct e2 as [e2|].
      * inversion Heq; subst. simpl. rewrite A2. simpl.
        do 4 (split; [reflexivity|]).
        split; [apply extends_with_db; exact X12|].
        intros Hc. discriminate.
      * apply buildHintIdx_frame in Heq as [(B1 & B2 & B3 & B4 & B5) X3].
        simpl in B1, B2, B4, B5. rewrite A2 in B1, B2, B4, B5.
        simpl in B1, B2, B4, B5.
        split; [exact B2|]. split; [exact B1|]. split; [exact B4|].
        split; [exact B5|]. split; [|intros Hc; discriminate].
        eapply extends_trans; [|exact X3]. apply extends_with_db. exact X12.
Qed.

End LifecycleFacts.

Section FacadeFacts.
Context `{Platform}.
Variable DataFile_with_fileID : DataFile -> Z -> DataFile.
Variable DataFile_with_writeOff : DataFile -> Z -> DataFile.
Variable DataFile_with_ActualSize : DataFile -> Z -> DataFile.
Variable PathIsExist : string -> World -> bool.
Variable MkdirAll : string -> World -> option error * World.
Variable CopyDir : string -> string -> World -> option error * World.

(** X12.  A [Close] that returns nil has closed the active file, made
    [ActiveFile] nil and emptied the ordered-map index, and has left the
    set, sorted-set and list indexes as they were; a second [Close] then
    returns [ErrDBClosed] and changes nothing. *)
Theorem Close_then_Close (s s1 : State) :
  Close s = Val (None, s1) ->
  closed (st_db s) = false /\
  closed (st_db s1) = true /\
  ActiveFile (st_db s1) = None /\
  BPTreeIdx (st_db s1) = ∅ /\
  SetIdx (st_db s1) = SetIdx (st_db s) /\
  SortedSetIdx (st_db s1) = SortedSetIdx (st_db s) /\
  ListIdx (st_db s1) = ListIdx (st_db s) /\
  st_log s1 = (st_log s ++ [EvClose (active_path (st_db s))])%list /\
  Close s1 = Val (Some ErrDBClosed, s1).
Proof.
  unfold Close. intros Heq.
  destruct (closed (st_db s)) eqn:Hc; [discriminate|].
  cbn [st_db with_db ActiveFile set_closed] in Heq.
  destruct (ActiveFile (st_db s)) as [f|]; [|discriminate].
  inversion Heq; subst. simpl. repeat split.
Qed.

(** X13.  [Open] on a directory that already exists and holds a segment
    file refuses a switch to or from sparse mode: it returns the error of
    the mode check, the directory is untouched and no data file has been
    opened or created. *)
Theorem Open_refuses_mode_switch (fuel : nat) (o : Options) (w : World)
    (files : list string) :
  PathIsExist (Dir o) w = true ->
  ioutil_ReadDir (Dir o) w = inr files ->
  has_data_file files ->
  (has_bpt_dir files /\ EntryIdxMode_ o <> HintBPTSparseIdxMode) \/
  (~ has_bpt_dir files /\ EntryIdxMode_ o = HintBPTSparseIdxMode) ->
  exists err,
    (err = err_downgrade \/ err = err_upgrade) /\
    Open DataFile_with_fileID DataFile_with_writeOff DataFile_with_ActualSize
      PathIsExist MkdirAll fuel o w
    = Val (Some err, mkState (new_DB o) w []).
Proof.
  intros Hdir Hread Hdata Hswitch.
  unfold Open, mkdir_if_missing. rewrite Hdir, Hread. unfold checkEntryIdxMode.
  destruct (checkEntryIdxMode_scan files false false) as [d b] eqn:Hscan.
  apply checkEntryIdxMode_scan_flags in Hscan as [Hd Hb].
  assert (Hdt : d = true) by (apply Hd; right; exact Hdata).
  subst d.
  destruct Hswitch as [[Hbpt Hmode]|[Hbpt Hmode]].
  - assert (Hbt : b = true) by (apply Hb; right; exact Hbpt). subst b.
    assert (Hm : mode_eqb (EntryIdxMode_ o) HintBPTSparseIdxMode = false)
      by (destruct (EntryIdxMode_ o); simpl; congruence).
    rewrite Hm. simpl. exists err_downgrade. split; [left|]; reflexivity.
  - assert (Hbf : b = false).
    { destruct b; [|reflexivity]. exfalso. apply Hbpt.
      destruct (proj1 Hb eq_refl) as [X|X]; [discriminate|exact X]. }
    subst b. rewrite Hmode. simpl.
    exists err_upgrade. split; [right|]; reflexivity.
Qed.

(** The calls a managed run makes after [Begin], and whether it returns
    an error. *)
Definition facade_calls (evs : list Event) (err : option error) : Prop :=
  (evs = [] /\ err <> None) \/
  (evs = [EvRollback] /\ err <> None) \/
  (evs = [EvCommit] /\ err = None) \/
  (evs = [EvCommit; EvRollback] /\ err <> None).

Lemma managed_calls (writable : bool) (fn : callback) (s : State) :
  exists evs,
    st_log (snd (managed writable fn s)) = (st_log s ++ EvBegin writable :: evs)%list /\
    facade_calls evs (fst (managed writable fn s)).
Proof.
  unfold managed, facade_calls.
  destruct (call_Begin writable s) as [[e1|tx] s1] eqn:Hb;
    apply lift_tx_spec in Hb as [L1 _].
  - exists []. split; [exact L1|]. left. split; [reflexivity|discriminate].
  - assert (Lf : st_log (snd (run_fn fn tx s1)) = st_log s1).
    { unfold run_fn. destruct (fn tx _) as [r0 [d w]]. reflexivity. }
    destruct (run_fn fn tx s1) as [[e2|] s2]; simpl in Lf; rename Lf into Hf.
    + destruct (call_Rollback tx s2) as [[e3|] s3] eqn:Hr;
        apply lift_tx_spec in Hr as [L3 _];
        exists [EvRollback];
        (split; [simpl; rewrite L3, Hf, L1; rewrite <- app_assoc; reflexivity|]);
        right; left; split; [reflexivity|discriminate|reflexivity|discriminate].
    + destruct (call_Commit tx s2) as [[e3|] s3] eqn:Hc;
        apply lift_tx_spec in Hc as [L3 _].
      * destruct (call_Rollback tx s3) as [[e4|] s4] eqn:Hr;
          apply lift_tx_spec in Hr as [L4 _];
          exists [EvCommit; EvRollback];
          (split; [simpl; rewrite L4, L3, Hf, L1; rewrite <- !app_assoc; reflexivity|]);
          right; right; right; split; [reflexivity|discriminate|reflexivity|discriminate].
      * exists [EvCommit].
        split; [simpl; rewrite L3, Hf, L1; rewrite <- app_assoc; reflexivity|].
        right; right; left. split; reflexivity.
Qed.

(** X14.  A managed run begins one transaction and ends it once:
    [Update] begins a writable one, [View] and [Backup] a read-only one;
    after [Begin] the run calls nothing (when [Begin] failed), or
    [Rollback], or [Commit], or [Commit] and then [Rollback]; it returns
    nil exactly when it ended with [Commit] alone. *)
Theorem facade_begins_and_ends_one_transaction (fn : callback) (dir : string)
    (s : State) :
  (exists evs,
     st_log (snd (Update (Some fn) s)) = (st_log s ++ EvBegin true :: evs)%list /\
     facade_calls evs (fst (Update (Some fn) s))) /\
  (exists evs,
     st_log (snd (View (Some fn) s)) = (st_log s ++ EvBegin false :: evs)%list /\
     facade_calls evs (fst (View (Some fn) s))) /\
  (exists evs,
     st_log (snd (Backup CopyDir dir s)) = (st_log s ++ EvBegin false :: evs)%list /\
     facade_calls evs (fst (Backup CopyDir dir s))).
Proof.
  split; [|split].
  - apply (managed_calls true).
  - apply (managed_calls false).
  - unfold Backup, View. apply (managed_calls false).
Qed.

End FacadeFacts.

(** ** Further runs on the small instance *)

Definition returns {A} (m : res A) : bool :=
  match m with
  | Val _ => true
  | _ => false
  end.

Definition same_file
  : @DataFile sim_codec sim_structures -> Z -> @DataFile sim_codec sim_structures :=
  fun f _ => f.

Definition set_record : Record_ :=
  let m := mkMeta "s" DataSetFlag DataStructureSet Committed 1 0 0 in
  mkRecord (mkHint "k" 0 m 0) (Some (mkEntry "k" "v" m)).

Definition pending_record : Record_ :=
  let m := mkMeta "s" DataSetFlag DataStructureSet UnCommitted 2 0 0 in
  mkRecord (mkHint "j" 0 m 45) (Some (mkEntry "j" "w" m)).

Definition lset_record : Record_ :=
  let m := mkMeta "L" DataLSetFlag DataStructureList Committed 1 0 0 in
  mkRecord (mkHint "q" 0 m 0) (Some (mkEntry "q" "a" m)).

(** A fresh database in which transaction 1 is known to be committed. *)
Definition db_tx1 : DB :=
  set_committedTxIds (sim_db HintKeyValAndRAMIdxMode) {[ 1 ]}.

Lemma dispatch_changes_one_index_witness :
  match dispatch set_record db_tx1 with
  | Val (db', err) =>
      err = None /\ KeyCount db' = wrap_int64 (KeyCount db_tx1 + 1) /\
      ListIdx db' = ListIdx db_tx1
  | _ => False
  end.
Proof.
  assert (Hv : match dispatch set_record db_tx1 with
               | Val (_, err) => err = None
               | _ => False
               end) by (vm_compute; reflexivity).
  destruct (dispatch set_record db_tx1) as [[db' err]| |] eqn:Hd; try contradiction.
  split; [exact Hv|].
  destruct (dispatch_changes_one_index set_record db_tx1 db' err Hd)
    as (_ & _ & _ & HL & _ & _ & HK & _).
  split; [apply HK; exact Hv|apply HL; discriminate].
Defined.

Lemma buildHintIdx_apply_counts_committed_witness :
  match buildHintIdx_apply [set_record; pending_record] db_tx1 with
  | Val (db', _) => KeyCount db' = 1
  | _ => False
  end.
Proof.
  assert (Hv : match buildHintIdx_apply [set_record; pending_record] db_tx1 with
               | Val (_, err) => err = None
               | _ => False
               end) by (vm_compute; reflexivity).
  destruct (buildHintIdx_apply [set_record; pending_record] db_tx1)
    as [[db' err]| |] eqn:Ha; try contradiction.
  subst err.
  rewrite (buildHintIdx_apply_counts_committed [set_record; pending_record]
             db_tx1 db' ltac:(simpl; lia) Ha).
  vm_compute. reflexivity.
Defined.

Lemma buildSortedSetIdx_never_fails_witness :
  exists m,
    buildSortedSetIdx "S" unsplit_zadd_record (sim_db HintKeyValAndRAMIdxMode) =
    Val (set_SortedSetIdx (sim_db HintKeyValAndRAMIdxMode) m, None).
Proof.
  exact (buildSortedSetIdx_never_fails "S" unsplit_zadd_record _
           (sim_db HintKeyValAndRAMIdxMode) eq_refl).
Defined.

Lemma buildListIdx_key_without_index_panics_witness :
  buildListIdx "L" lset_record (sim_db HintKeyValAndRAMIdxMode) = Crash.
Proof.
  apply (buildListIdx_key_without_index_panics "L" lset_record
           (mkEntry "q" "a" (mkMeta "L" DataLSetFlag DataStructureList Committed 1 0 0))).
  - reflexivity.
  - left. reflexivity.
  - vm_compute. constructor.
Defined.

Definition live_entry : Entry :=
  sim_entry "u" "y" "2" DataSetFlag DataStructureBPTree Committed 2.

Lemma getPendingMergeEntries_adds_at_most_the_entry_witness :
  match getPendingMergeEntries (st_db recovered) live_entry [] with
  | Val pending' => pending' = [] \/ pending' = [live_entry]
  | _ => False
  end.
Proof.
  assert (Hv : returns (getPendingMergeEntries (st_db recovered) live_entry []) = true)
    by (vm_compute; reflexivity).
  destruct (getPendingMergeEntries (st_db recovered) live_entry [])
    as [pending'| |] eqn:Hg; [|discriminate Hv|discriminate Hv].
  exact (proj1 (getPendingMergeEntries_adds_at_most_the_entry _ _ _ _ Hg)).
Defined.

Lemma reWriteData_is_one_transaction_witness :
  exists p,
    st_log (snd (reWriteData [live_entry] one_segment)) =
    (st_log one_segment ++
       EvBegin true :: EvNewDataFile p :: map put_of [live_entry] ++ [EvCommit])%list.
Proof.
  assert (Hv : fst (reWriteData [live_entry] one_segment) = None)
    by (vm_compute; reflexivity).
  pose proof (reWriteData_is_one_transaction [live_entry] one_segment _ _
                (surjective_pairing (reWriteData [live_entry] one_segment))) as W.
  rewrite Hv in W. exact W.
Defined.

Lemma parseDataFiles_committed_set_witness :
  match parseDataFiles 10 [0; 1] (sim_state HintKeyValAndRAMIdxMode two_segments) with
  | Val ((recs, c, err), _) =>
      Forall (resident_as HintKeyValAndRAMIdxMode) recs /\
      (forall t, t ∈ c <->
                 exists r, In r recs /\ txID (meta (H r)) = t /\
                           status (meta (H r)) = Committed)
  | _ => False
  end.
Proof.
  assert (Hv : returns (parseDataFiles 10 [0; 1]
                          (sim_state HintKeyValAndRAMIdxMode two_segments)) = true)
    by (vm_compute; reflexivity).
  destruct (parseDataFiles 10 [0; 1] (sim_state HintKeyValAndRAMIdxMode two_segments))
    as [[[[recs c] err] s']| |] eqn:Hp; [|discriminate Hv|discriminate Hv].
  destruct (parseDataFiles_committed_set _ _ _ _ _ _ _ Hp) as (Hc & Hr & _).
  split; [exact Hr|exact Hc].
Defined.

Lemma buildBPTreeRootIdxes_facts_witness :
  match buildBPTreeRootIdxes 10 [0; 1] (sim_state HintBPTSparseIdxMode two_segments) with
  | Val (err, s') =>
      err = None /\ committedTxIds (st_db s') = ∅ /\ st_log s' = []
  | _ => False
  end.
Proof.
  assert (Hv : match buildBPTreeRootIdxes 10 [0; 1]
                       (sim_state HintBPTSparseIdxMode two_segments) with
               | Val (err, _) => err = None
               | _ => False
               end) by (vm_compute; reflexivity).
  destruct (buildBPTreeRootIdxes 10 [0; 1] (sim_state HintBPTSparseIdxMode two_segments))
    as [[err s']| |] eqn:Hb; try contradiction.
  destruct (buildBPTreeRootIdxes_facts _ _ _ _ _ Hb) as (_ & HL & _ & _ & HC & _).
  split; [exact Hv|]. split; [apply HC; [exact Hv|simpl; lia]|exact HL].
Defined.

(** The database with the unreadable segment as its active file. *)
Definition torn_active : State :=
  mkState (set_ActiveFile (sim_db HintKeyValAndRAMIdxMode) (Some unreadable_segment))
    [("/db/0.dat", unreadable_segment)] [].

Lemma getActiveFileWriteOff_surfaces_read_errors_witness :
  getActiveFileWriteOff same_file 1 0 torn_active =
  Val ((-1, Some (fmt_Errorf "when build activeDataIndex readAt err: "
                    (foreign_error 5))),
       logged torn_active (EvReadAt (active_path (st_db torn_active)) 0)).
Proof.
  apply (proj1 (getActiveFileWriteOff_surfaces_read_errors same_file 0 0 torn_active
                  unreadable_segment eq_refl)).
  - reflexivity.
  - discriminate.
Defined.

Lemma buildIndexes_sets_MaxFileID_and_only_reads_witness :
  match buildIndexes same_file same_file same_file 10
          (sim_state HintKeyValAndRAMIdxMode two_segments) with
  | Val (err, s') => err = None /\ MaxFileID (st_db s') = 1
  | _ => False
  end.
Proof.
  assert (Hv : match buildIndexes same_file same_file same_file 10
                       (sim_state HintKeyValAndRAMIdxMode two_segments) with
               | Val (err, _) => err = None
               | _ => False
               end) by (vm_compute; reflexivity).
  destruct (buildIndexes same_file same_file same_file 10
              (sim_state HintKeyValAndRAMIdxMode two_segments))
    as [[err s']| |] eqn:Hb; try contradiction.
  split; [exact Hv|].
  rewrite (proj1 (buildIndexes_sets_MaxFileID_and_only_reads
                    same_file same_file same_file 10 _ _ _ Hb)).
  vm_compute. reflexivity.
Defined.

Lemma Close_then_Close_witness :
  match Close torn_active with
  | Val (err, s1) => err = None /\ Close s1 = Val (Some ErrDBClosed, s1)
  | _ => False
  end.
Proof.
  assert (Hv : match Close torn_active with
               | Val (err, _) => err = None
               | _ => False
               end) by (vm_compute; reflexivity).
  destruct (Close torn_active) as [[err s1]| |] eqn:Hc; try contradiction.
  split; [exact Hv|]. subst err.
  apply (Close_then_Close torn_active s1 Hc).
Defined.

(** A directory that holds a segment file and an entry named [bpt]. *)
Definition sparse_directory : @World sim_codec sim_structures sim_platform :=
  [("/db/0.dat", []); ("/db/bpt", [])].

Definition sim_PathIsExist
  : string -> @World sim_codec sim_structures sim_platform -> bool :=
  fun _ _ => true.

Definition sim_MkdirAll
  : string -> @World sim_codec sim_structures sim_platform ->
    option error * @World sim_codec sim_structures sim_platform :=
  fun _ w => (None, w).

Lemma Open_refuses_mode_switch_witness :
  exists err,
    (err = err_downgrade \/ err = err_upgrade) /\
    Open same_file same_file same_file sim_PathIsExist sim_MkdirAll 10
      (sim_opt HintKeyValAndRAMIdxMode) sparse_directory
    = Val (Some err,
           mkState (new_DB (sim_opt HintKeyValAndRAMIdxMode)) sparse_directory []).
Proof.
  apply (Open_refuses_mode_switch same_file same_file same_file
           sim_PathIsExist sim_MkdirAll 10
           (sim_opt HintKeyValAndRAMIdxMode) sparse_directory ["0.dat"; "bpt"]).
  - reflexivity.
  - vm_compute. reflexivity.
  - exists "0.dat". split; [left; reflexivity|vm_compute; reflexivity].
  - left. split; [right; left; reflexivity|discriminate].
Defined.
